(** * JS Runtime Visualizer: translator hoisting pass, runtime state store
      and step interpreter, embedded from the JavaScript sources.

    Definitions:
    - [Syntax]        value expressions, instructions, runtime values;
    - [Parser]        the hoisting pass of the translator;
    - [StateManager]  the runtime state store and its notifications;
    - [Executor]      the step interpreter and the event-loop pass;
    - [Aliasing]      the store as an object graph, for the snapshot;
    - [Scenario]      concrete programs, hosts and stores;
    - [Sessions]      what a sequence of store operations asks for;
    - [Translator]    the other functions of the parser module;
    - [Subscriptions] the subscriber table of the store;
    - [Conduct]       relations between the interpreter before and after;
    - [Programs]      more concrete programs;
    - [Straight]      statements that start no call and register no task;
    - [Balance]       execution contexts entered and left;
    - [Passes]        tasks taken off the callback queue.
    Theorems: [ParserFacts], [StoreFacts], [ExecutorFacts],
    [AliasingFacts], [RefinementFacts], [SessionFacts],
    [TranslatorFacts], [SubscriptionFacts], [ConductFacts],
    [StraightFacts], [BalanceFacts], [PassFacts].

    Conventions.  A JS array is a list whose last element is the most
    recently pushed one.  A JS object used as a name table and the heap
    [Map] are finite maps; identifiers that collide with members of
    [Object.prototype] are outside the model.  A string stands for both the
    string and an absent field wherever the source only tests truthiness
    with the empty string on the falsy side.  Numbers are carried as data
    and never computed on; they are integers here.  The line recognizers
    of [parse] are regular expressions and are not embedded: the
    translator enters as the sequence of recognized statements it hands to
    the hoisting pass, and, for the texts of bodies and callbacks, as a
    parameter of the interpreter. *)

From stdpp Require Import gmap strings list pretty.

Set Warnings "-register-all".

(* ===================================================================== *)
(** ** Syntax: what the translator produces and the interpreter handles *)
(* ===================================================================== *)

Module Syntax.

(** A value expression, as built by [parseValue]. The property table of an
    object literal is listed in enumeration order. *)
Inductive ValueExpr : Type :=
| ENumber (value : Z)
| EString (value : string)
| EBoolean (value : bool)
| ENull
| EUndefined
| EArray (value : list ValueExpr)
| EObject (value : list (string * ValueExpr))
| EArrowFunction (params : list string) (body : string)
| EFunction (params : list string) (body : string)
| ECall (name : string) (args : list ValueExpr)
| EPropertyAccess (value : string)
| EReference (value : string).

(** One instruction; [line] is the 1-based source line, 0 for the marker. *)
Inductive Instruction : Type :=
| FunctionDeclaration (name : string) (params : list string) (line : nat)
    (body : string) (endLine : nat) (hoisted : bool)
| VariableDeclaration (declarationType : string) (name : string)
    (value : ValueExpr) (line : nat)
| SetTimeout (callback : string) (delay : nat) (line : nat)
| PromiseThen (callback : string) (line : nat)
| Console (method : string) (args : list ValueExpr) (line : nat)
| FunctionCall (name : string) (args : list ValueExpr) (line : nat)
| MethodCall (object method : string) (args : list ValueExpr) (line : nat)
| Assignment (name : string) (value : ValueExpr) (line : nat)
| Return (value : ValueExpr) (line : nat)
| NewObject (declarationType name constructor : string)
    (args : list ValueExpr) (line : nat)
| HoistedVar (name : string) (line : nat) (originalLine : nat)
| HoistingPhase (functions vars : list string) (line : nat).

Definition inst_line (i : Instruction) : nat :=
  match i with
  | FunctionDeclaration _ _ l _ _ _ | VariableDeclaration _ _ _ l
  | SetTimeout _ _ l | PromiseThen _ l | Console _ _ l | FunctionCall _ _ l
  | MethodCall _ _ _ l | Assignment _ _ l | Return _ l
  | NewObject _ _ _ _ l | HoistedVar _ l _ | HoistingPhase _ _ l => l
  end.

(** A runtime value. [VFunction] is a function literal travelling as a value
    (the interpreter hands the expression record itself around). *)
Inductive Value : Type :=
| VUndefined
| VNull
| VNumber (n : Z)
| VString (s : string)
| VBoolean (b : bool)
| VArray (elems : list Value)
| VObject (props : list (string * Value))
| VFunction (arrow : bool) (params : list string) (body : string).

End Syntax.
Export Syntax.

(* ===================================================================== *)
(** ** Parser: the hoisting pass *)
(* ===================================================================== *)

Module Parser.

(** The line recognizers of [parse] only ever emit the ten statement kinds,
    and a function declaration leaves them without the [hoisted] mark. *)
Definition recognized (i : Instruction) : bool :=
  match i with
  | FunctionDeclaration _ _ _ _ _ h => negb h
  | HoistedVar _ _ _ | HoistingPhase _ _ _ => false
  | _ => true
  end.

Definition isFunctionDeclaration (i : Instruction) : bool :=
  match i with FunctionDeclaration _ _ _ _ _ _ => true | _ => false end.

Definition isVarDeclaration (i : Instruction) : bool :=
  match i with
  | VariableDeclaration d _ _ _ => bool_decide (d = "var")
  | _ => false
  end.

(** The three accumulators filled by the [forEach] of [processHoisting]. *)
Fixpoint functionDeclarations (instructions : list Instruction) : list Instruction :=
  match instructions with
  | [] => []
  | FunctionDeclaration n ps l b e _ :: rest =>
      FunctionDeclaration n ps l b e true :: functionDeclarations rest
  | _ :: rest => functionDeclarations rest
  end.

Fixpoint varDeclarations (instructions : list Instruction) : list Instruction :=
  match instructions with
  | [] => []
  | VariableDeclaration d n v l :: rest =>
      if bool_decide (d = "var")
      then HoistedVar n l l :: varDeclarations rest
      else varDeclarations rest
  | _ :: rest => varDeclarations rest
  end.

Fixpoint rest (instructions : list Instruction) : list Instruction :=
  match instructions with
  | [] => []
  | FunctionDeclaration _ _ _ _ _ _ :: tl => rest tl
  | i :: tl => i :: rest tl
  end.

Definition inst_name (i : Instruction) : string :=
  match i with
  | FunctionDeclaration n _ _ _ _ _ | VariableDeclaration _ n _ _
  | FunctionCall n _ _ | Assignment n _ _ | NewObject _ n _ _ _
  | HoistedVar n _ _ => n
  | _ => ""
  end.

Definition processHoisting (instructions : list Instruction) : list Instruction :=
  let fds := functionDeclarations instructions in
  let vds := varDeclarations instructions in
  let hoisted :=
    match fds, vds with
    | [], [] => []
    | _, _ => [HoistingPhase (inst_name <$> fds) (inst_name <$> vds) 0]
    end in
  hoisted ++ fds ++ vds ++ rest instructions.

(** What a reader of the output calls hoisted and not hoisted. *)
Definition isMarker (i : Instruction) : bool :=
  match i with HoistingPhase _ _ _ => true | _ => false end.

Definition isHoisted (i : Instruction) : bool :=
  match i with
  | FunctionDeclaration _ _ _ _ _ h => h
  | HoistedVar _ _ _ => true
  | _ => false
  end.

Definition isNonHoisted (i : Instruction) : bool :=
  negb (isMarker i) && negb (isHoisted i).

(** Names of the declarations present in the recognized statements. *)
Definition declaredFunctions (instructions : list Instruction) : list string :=
  inst_name <$> filter (λ i, isFunctionDeclaration i = true) instructions.

Definition declaredVars (instructions : list Instruction) : list string :=
  inst_name <$> filter (λ i, isVarDeclaration i = true) instructions.

(** [functionDeclarations.length > 0 || varDeclarations.length > 0], read
    on the name lists. *)
Definition nonEmpty_names (fs vs : list string) : bool :=
  match fs, vs with [], [] => false | _, _ => true end.

End Parser.

(* ===================================================================== *)
(** ** StateManager: the runtime state store *)
(* ===================================================================== *)

Module StateManager.

Record FrameVar := mkFrameVar { fv_value : Value; fv_type : string }.

Record Frame := mkFrame {
  frame_id : Z;
  frame_name : string;
  frame_type : string;
  frame_variables : gmap string FrameVar;
  frame_thisBinding : string;
  frame_line : nat;
  frame_isActive : bool }.

Record HeapObject := mkHeapObject {
  ho_id : string;
  ho_type : string;
  ho_value : Value;
  ho_references : list string;
  ho_createdAt : Z }.

Record ScopeVar := mkScopeVar {
  sv_value : Value;
  sv_type : string;
  sv_declarationType : string }.

Record Scope := mkScope {
  scope_id : string;
  scope_name : string;
  scope_type : string;
  scope_parentId : option string;
  scope_variables : gmap string ScopeVar;
  scope_createdAt : Z }.

(** A timer task carries [delay] and [startTime]; a microtask does not. *)
Record Task := mkTask {
  task_id : Z;
  task_name : string;
  task_callback : string;
  task_delay : option nat;
  task_startTime : option Z;
  task_type : string }.

Record EventLoop := mkEventLoop {
  webAPIs : list Task;
  callbackQueue : list Task;
  microtaskQueue : list Task }.

Record State := mkState {
  code : string;
  parsedCode : list Instruction;
  callStack : list Frame;
  heap : gmap string HeapObject;
  heapIdCounter : nat;
  scopes : list Scope;
  scopeIdCounter : nat;
  eventLoop : EventLoop;
  currentLine : Z;
  currentStep : nat;
  isRunning : bool;
  isPaused : bool;
  speed : nat;
  executionQueue : list Instruction;
  timers : list Z }.

(** The payload handed to the subscribers of a topic, with the collection
    copy taken when it is sent. *)
Inductive Notification : Type :=
| NCode (code : string)
| NCallStack (action : string) (frame : option Frame) (stack : list Frame)
| NHeap (action : string) (object : option HeapObject)
    (from to : option string) (heap : gmap string HeapObject)
| NScopes (action : string) (scope : option Scope)
    (variable : option string) (scopes : list Scope)
| NEventLoop (action : string) (task : option Task) (eventLoop : EventLoop)
| NCurrentLine (line : Z)
| NExecution (isRunning isPaused : bool)
| NConsole (type : string) (args : list string) (timestamp : Z).

(** The module instance: its private [state], every [notify] call made so
    far (oldest first) and every timer handle given to [clearTimeout]. *)
Record Store := mkStore {
  state : State;
  emitted : list Notification;
  cancelled : list Z }.

Definition initialState : State :=
  {| code := ""; parsedCode := []; callStack := []; heap := ∅;
     heapIdCounter := 0; scopes := []; scopeIdCounter := 0;
     eventLoop := mkEventLoop [] [] [];
     currentLine := (-1)%Z; currentStep := 0;
     isRunning := false; isPaused := false; speed := 1000;
     executionQueue := []; timers := [] |}.

Definition initialStore : Store := mkStore initialState [] [].

(** Field updates of the private state. *)
Definition set_code (v : string) (s : State) : State :=
  mkState v (parsedCode s) (callStack s) (heap s) (heapIdCounter s) (scopes s)
    (scopeIdCounter s) (eventLoop s) (currentLine s) (currentStep s)
    (isRunning s) (isPaused s) (speed s) (executionQueue s) (timers s).
Definition set_parsedCode (v : list Instruction) (s : State) : State :=
  mkState (code s) v (callStack s) (heap s) (heapIdCounter s) (scopes s)
    (scopeIdCounter s) (eventLoop s) (currentLine s) (currentStep s)
    (isRunning s) (isPaused s) (speed s) (executionQueue s) (timers s).
Definition set_callStack (v : list Frame) (s : State) : State :=
  mkState (code s) (parsedCode s) v (heap s) (heapIdCounter s) (scopes s)
    (scopeIdCounter s) (eventLoop s) (currentLine s) (currentStep s)
    (isRunning s) (isPaused s) (speed s) (executionQueue s) (timers s).
Definition set_heap (v : gmap string HeapObject) (s : State) : State :=
  mkState (code s) (parsedCode s) (callStack s) v (heapIdCounter s) (scopes s)
    (scopeIdCounter s) (eventLoop s) (currentLine s) (currentStep s)
    (isRunning s) (isPaused s) (speed s) (executionQueue s) (timers s).
Definition set_heapIdCounter (v : nat) (s : State) : State :=
  mkState (code s) (parsedCode s) (callStack s) (heap s) v (scopes s)
    (scopeIdCounter s) (eventLoop s) (currentLine s) (currentStep s)
    (isRunning s) (isPaused s) (speed s) (executionQueue s) (timers s).
Definition set_scopes (v : list Scope) (s : State) : State :=
  mkState (code s) (parsedCode s) (callStack s) (heap s) (heapIdCounter s) v
    (scopeIdCounter s) (eventLoop s) (currentLine s) (currentStep s)
    (isRunning s) (isPaused s) (speed s) (executionQueue s) (timers s).
Definition set_scopeIdCounter (v : nat) (s : State) : State :=
  mkState (code s) (parsedCode s) (callStack s) (heap s) (heapIdCounter s)
    (scopes s) v (eventLoop s) (currentLine s) (currentStep s)
    (isRunning s) (isPaused s) (speed s) (executionQueue s) (timers s).
Definition set_eventLoop (v : EventLoop) (s : State) : State :=
  mkState (code s) (parsedCode s) (callStack s) (heap s) (heapIdCounter s)
    (scopes s) (scopeIdCounter s) v (currentLine s) (currentStep s)
    (isRunning s) (isPaused s) (speed s) (executionQueue s) (timers s).
Definition set_currentLine (v : Z) (s : State) : State :=
  mkState (code s) (parsedCode s) (callStack s) (heap s) (heapIdCounter s)
    (scopes s) (scopeIdCounter s) (eventLoop s) v (currentStep s)
    (isRunning s) (isPaused s) (speed s) (executionQueue s) (timers s).
Definition set_currentStep (v : nat) (s : State) : State :=
  mkState (code s) (parsedCode s) (callStack s) (heap s) (heapIdCounter s)
    (scopes s) (scopeIdCounter s) (eventLoop s) (currentLine s) v
    (isRunning s) (isPaused s) (speed s) (executionQueue s) (timers s).
Definition set_execution (r p : bool) (s : State) : State :=
  mkState (code s) (parsedCode s) (callStack s) (heap s) (heapIdCounter s)
    (scopes s) (scopeIdCounter s) (eventLoop s) (currentLine s) (currentStep s)
    r p (speed s) (executionQueue s) (timers s).
Definition set_speed (v : nat) (s : State) : State :=
  mkState (code s) (parsedCode s) (callStack s) (heap s) (heapIdCounter s)
    (scopes s) (scopeIdCounter s) (eventLoop s) (currentLine s) (currentStep s)
    (isRunning s) (isPaused s) v (executionQueue s) (timers s).
Definition set_timers (v : list Z) (s : State) : State :=
  mkState (code s) (parsedCode s) (callStack s) (heap s) (heapIdCounter s)
    (scopes s) (scopeIdCounter s) (eventLoop s) (currentLine s) (currentStep s)
    (isRunning s) (isPaused s) (speed s) (executionQueue s) v.

Definition update (f : State → State) (σ : Store) : Store :=
  mkStore (f (state σ)) (emitted σ) (cancelled σ).

(** [notify]: every handler of the topic and of the catch-all topic is
    called with the payload; the model keeps the sequence of payloads. *)
Definition notify (n : Notification) (σ : Store) : Store :=
  mkStore (state σ) (emitted σ ++ [n]) (cancelled σ).

(** [getState]: the caller's copy. In this value model a copy of a
    collection is the collection's value; what the copy shares with the
    store is the subject of [Aliasing]. *)
Definition getState (σ : Store) : State := state σ.

Definition setCode (c : string) (σ : Store) : Store :=
  notify (NCode c) (update (set_code c) σ).

Definition setParsedCode (parsed : list Instruction) (σ : Store) : Store :=
  update (set_parsedCode parsed) σ.

(** *** Call stack *)

(** The argument of [pushCallStack]; an absent [variables] is [None]. *)
Record FrameInit := mkFrameInit {
  fi_name : string;
  fi_type : string;
  fi_variables : option (gmap string FrameVar);
  fi_thisBinding : string;
  fi_line : nat }.

Definition orDefault (s d : string) : string := if bool_decide (s = "") then d else s.

Definition setActive (b : bool) (f : Frame) : Frame :=
  mkFrame (frame_id f) (frame_name f) (frame_type f) (frame_variables f)
    (frame_thisBinding f) (frame_line f) b.

(** [stack[stack.length - 1].isActive = b], guarded by [length > 0]. *)
Definition setTopActive (b : bool) (stack : list Frame) : list Frame :=
  match stack with
  | [] => []
  | _ => alter (setActive b) (length stack - 1) stack
  end.

(** [id] is the value of [Date.now() + Math.random()] at the call. *)
Definition pushCallStack (id : Z) (frame : FrameInit) (σ : Store) : Frame * Store :=
  let newFrame :=
    mkFrame id (orDefault (fi_name frame) "anonymous")
      (orDefault (fi_type frame) "function")
      (default ∅ (fi_variables frame))
      (orDefault (fi_thisBinding frame) "window")
      (fi_line frame) true in
  let stack := setTopActive false (callStack (state σ)) ++ [newFrame] in
  (newFrame,
   notify (NCallStack "push" (Some newFrame) stack) (update (set_callStack stack) σ)).

Definition popCallStack (σ : Store) : option Frame * Store :=
  let old := callStack (state σ) in
  let frame := last old in
  let stack := setTopActive true (take (length old - 1) old) in
  (frame, notify (NCallStack "pop" frame stack) (update (set_callStack stack) σ)).

Definition setFrameVariable (name : string) (v : FrameVar) (f : Frame) : Frame :=
  mkFrame (frame_id f) (frame_name f) (frame_type f)
    (<[name := v]> (frame_variables f))
    (frame_thisBinding f) (frame_line f) (frame_isActive f).

Definition updateFrameVariable (name : string) (value : Value) (type : string)
    (σ : Store) : Store :=
  match last (callStack (state σ)) with
  | None => σ
  | Some top =>
      let topFrame := setFrameVariable name (mkFrameVar value type) top in
      let stack :=
        alter (λ _, topFrame) (length (callStack (state σ)) - 1) (callStack (state σ)) in
      notify (NCallStack "update" (Some topFrame) stack) (update (set_callStack stack) σ)
  end.

(** *** Heap *)

Definition refName (n : nat) : string := "ref_" +:+ pretty n.

(** [refId || `ref_${++state.heapIdCounter}`]: an absent, null or empty
    [refId] takes the next counter value. [now] is [Date.now()]. *)
Definition allocateHeap (now : Z) (type : string) (value : Value)
    (refId : option string) (σ : Store) : string * Store :=
  let explicit :=
    match refId with
    | Some r => if bool_decide (r = "") then None else Some r
    | None => None
    end in
  let '(id, σ1) :=
    match explicit with
    | Some r => (r, σ)
    | None =>
        let n := S (heapIdCounter (state σ)) in
        (refName n, update (set_heapIdCounter n) σ)
    end in
  let heapObj := mkHeapObject id type value [] now in
  let h := <[id := heapObj]> (heap (state σ1)) in
  (id, notify (NHeap "allocate" (Some heapObj) None None h) (update (set_heap h) σ1)).

Definition addReference (toId : string) (o : HeapObject) : HeapObject :=
  mkHeapObject (ho_id o) (ho_type o) (ho_value o) (ho_references o ++ [toId])
    (ho_createdAt o).

Definition addHeapReference (fromId toId : string) (σ : Store) : Store :=
  match heap (state σ) !! fromId with
  | Some obj =>
      if bool_decide (toId ∈ ho_references obj) then σ
      else
        let h := <[fromId := addReference toId obj]> (heap (state σ)) in
        notify (NHeap "reference" None (Some fromId) (Some toId) h)
          (update (set_heap h) σ)
  | None => σ
  end.

Definition deallocateHeap (id : string) (σ : Store) : Store :=
  match heap (state σ) !! id with
  | Some obj =>
      let h := delete id (heap (state σ)) in
      notify (NHeap "deallocate" (Some obj) None None h) (update (set_heap h) σ)
  | None => σ
  end.

(** *** Scopes *)

Definition scopeName (n : nat) : string := "scope_" +:+ pretty n.

Definition createScope (now : Z) (name type : string) (parentId : option string)
    (σ : Store) : Scope * Store :=
  let n := S (scopeIdCounter (state σ)) in
  let scope := mkScope (scopeName n) name type parentId ∅ now in
  let ss := scopes (state σ) ++ [scope] in
  (scope,
   notify (NScopes "create" (Some scope) None ss)
     (update (set_scopes ss) (update (set_scopeIdCounter n) σ))).

(** [state.scopes.find(s => s.id === scopeId)]: position and record of the
    first scope with that identity; a null identity matches none. *)
Definition findScope (scopeId : option string) (ss : list Scope) : option (nat * Scope) :=
  match scopeId with
  | Some k => list_find (λ s, scope_id s = k) ss
  | None => None
  end.

Definition setScopeVariables (vars : gmap string ScopeVar) (s : Scope) : Scope :=
  mkScope (scope_id s) (scope_name s) (scope_type s) (scope_parentId s) vars
    (scope_createdAt s).

Definition addScopeVariable (scopeId : option string) (name : string)
    (value : Value) (varType declarationType : string) (σ : Store) : Store :=
  match findScope scopeId (scopes (state σ)) with
  | Some (i, scope) =>
      let scope' :=
        setScopeVariables
          (<[name := mkScopeVar value varType declarationType]> (scope_variables scope))
          scope in
      let ss := <[i := scope']> (scopes (state σ)) in
      notify (NScopes "addVariable" (Some scope') None ss) (update (set_scopes ss) σ)
  | None => σ
  end.

Definition setVarValue (value : Value) (v : ScopeVar) : ScopeVar :=
  mkScopeVar value (sv_type v) (sv_declarationType v).

Definition updateScopeVariable (scopeId : option string) (name : string)
    (value : Value) (σ : Store) : Store :=
  match findScope scopeId (scopes (state σ)) with
  | Some (i, scope) =>
      match scope_variables scope !! name with
      | Some v =>
          let scope' :=
            setScopeVariables
              (<[name := setVarValue value v]> (scope_variables scope)) scope in
          let ss := <[i := scope']> (scopes (state σ)) in
          notify (NScopes "updateVariable" (Some scope') (Some name) ss)
            (update (set_scopes ss) σ)
      | None => σ
      end
  | None => σ
  end.

Definition destroyScope (scopeId : option string) (σ : Store) : Store :=
  match findScope scopeId (scopes (state σ)) with
  | Some (i, scope) =>
      let ss := delete i (scopes (state σ)) in
      notify (NScopes "destroy" (Some scope) None ss) (update (set_scopes ss) σ)
  | None => σ
  end.

(** *** Event loop *)

Definition set_webAPIs (v : list Task) (e : EventLoop) : EventLoop :=
  mkEventLoop v (callbackQueue e) (microtaskQueue e).
Definition set_callbackQueue (v : list Task) (e : EventLoop) : EventLoop :=
  mkEventLoop (webAPIs e) v (microtaskQueue e).
Definition set_microtaskQueue (v : list Task) (e : EventLoop) : EventLoop :=
  mkEventLoop (webAPIs e) (callbackQueue e) v.

(** The argument of [addToWebAPI] and [addToMicrotaskQueue]. *)
Record TaskInit := mkTaskInit {
  ti_name : string;
  ti_callback : string;
  ti_delay : nat;
  ti_type : string }.

(** [id] is [Date.now() + Math.random()], [now] is [Date.now()]. *)
Definition addToWebAPI (id now : Z) (task : TaskInit) (σ : Store) : Task * Store :=
  let apiTask :=
    mkTask id (ti_name task) (ti_callback task) (Some (ti_delay task)) (Some now)
      (orDefault (ti_type task) "timer") in
  let e := set_webAPIs (webAPIs (eventLoop (state σ)) ++ [apiTask]) (eventLoop (state σ)) in
  (apiTask, notify (NEventLoop "addWebAPI" (Some apiTask) e) (update (set_eventLoop e) σ)).

Definition moveToCallbackQueue (taskId : Z) (σ : Store) : option Task * Store :=
  let e := eventLoop (state σ) in
  match list_find (λ t, task_id t = taskId) (webAPIs e) with
  | Some (i, task) =>
      let e' :=
        set_callbackQueue (callbackQueue e ++ [task])
          (set_webAPIs (delete i (webAPIs e)) e) in
      (Some task,
       notify (NEventLoop "moveToCallback" (Some task) e') (update (set_eventLoop e') σ))
  | None => (None, σ)
  end.

Definition addToMicrotaskQueue (id : Z) (task : TaskInit) (σ : Store) : Task * Store :=
  let microTask := mkTask id (ti_name task) (ti_callback task) None None "microtask" in
  let e :=
    set_microtaskQueue (microtaskQueue (eventLoop (state σ)) ++ [microTask])
      (eventLoop (state σ)) in
  (microTask, notify (NEventLoop "addMicrotask" (Some microTask) e) (update (set_eventLoop e) σ)).

Definition processNextMicrotask (σ : Store) : option Task * Store :=
  let e := eventLoop (state σ) in
  match microtaskQueue e with
  | task :: q =>
      let e' := set_microtaskQueue q e in
      (Some task,
       notify (NEventLoop "processMicrotask" (Some task) e') (update (set_eventLoop e') σ))
  | [] => (None, σ)
  end.

Definition processNextCallback (σ : Store) : option Task * Store :=
  let e := eventLoop (state σ) in
  match callbackQueue e with
  | task :: q =>
      let e' := set_callbackQueue q e in
      (Some task,
       notify (NEventLoop "processCallback" (Some task) e') (update (set_eventLoop e') σ))
  | [] => (None, σ)
  end.

(** *** Cursor, flags, console, timers *)

Definition setCurrentLine (line : Z) (σ : Store) : Store :=
  notify (NCurrentLine line) (update (set_currentLine line) σ).

Definition incrementStep (σ : Store) : nat * Store :=
  let n := S (currentStep (state σ)) in (n, update (set_currentStep n) σ).

Definition setExecutionState (isRunning isPaused : bool) (σ : Store) : Store :=
  notify (NExecution isRunning isPaused) (update (set_execution isRunning isPaused) σ).

Definition setSpeed (speed : nat) (σ : Store) : Store := update (set_speed speed) σ.

Definition logConsole (now : Z) (type : string) (args : list string) (σ : Store) : Store :=
  notify (NConsole type args now) σ.

Definition addTimer (timerId : Z) (σ : Store) : Store :=
  update (λ s, set_timers (timers s ++ [timerId]) s) σ.

(** *** Reset *)

Definition reset (σ : Store) : Store :=
  let fresh :=
    {| code := code (state σ); parsedCode := []; callStack := []; heap := ∅;
       heapIdCounter := 0; scopes := []; scopeIdCounter := 0;
       eventLoop := mkEventLoop [] [] [];
       currentLine := (-1)%Z; currentStep := 0;
       isRunning := false; isPaused := false; speed := speed (state σ);
       executionQueue := []; timers := [] |} in
  mkStore fresh
    (emitted σ ++
       [ NCallStack "reset" None [];
         NHeap "reset" None None None ∅;
         NScopes "reset" None None [];
         NEventLoop "reset" None (eventLoop fresh);
         NCurrentLine (-1)%Z;
         NExecution false false ])
    (cancelled σ ++ timers (state σ)).

(** *** The public interface as data: one constructor per mutating
    operation, with the host readings ([Date.now()], identity stamps) the
    call consumes. *)
Inductive Op : Type :=
| OSetCode (code : string)
| OSetParsedCode (parsed : list Instruction)
| OPushCallStack (id : Z) (frame : FrameInit)
| OPopCallStack
| OUpdateFrameVariable (name : string) (value : Value) (type : string)
| OAllocateHeap (now : Z) (type : string) (value : Value) (refId : option string)
| OAddHeapReference (fromId toId : string)
| ODeallocateHeap (id : string)
| OCreateScope (now : Z) (name type : string) (parentId : option string)
| OAddScopeVariable (scopeId : option string) (name : string) (value : Value)
    (varType declarationType : string)
| OUpdateScopeVariable (scopeId : option string) (name : string) (value : Value)
| ODestroyScope (scopeId : option string)
| OAddToWebAPI (id now : Z) (task : TaskInit)
| OMoveToCallbackQueue (taskId : Z)
| OAddToMicrotaskQueue (id : Z) (task : TaskInit)
| OProcessNextMicrotask
| OProcessNextCallback
| OSetCurrentLine (line : Z)
| OIncrementStep
| OSetExecutionState (isRunning isPaused : bool)
| OSetSpeed (speed : nat)
| OLogConsole (now : Z) (type : string) (args : list string)
| OAddTimer (timerId : Z)
| OReset.

Definition apply (op : Op) (σ : Store) : Store :=
  match op with
  | OSetCode c => setCode c σ
  | OSetParsedCode p => setParsedCode p σ
  | OPushCallStack id f => (pushCallStack id f σ).2
  | OPopCallStack => (popCallStack σ).2
  | OUpdateFrameVariable n v t => updateFrameVariable n v t σ
  | OAllocateHeap now t v r => (allocateHeap now t v r σ).2
  | OAddHeapReference f t => addHeapReference f t σ
  | ODeallocateHeap id => deallocateHeap id σ
  | OCreateScope now n t p => (createScope now n t p σ).2
  | OAddScopeVariable s n v t d => addScopeVariable s n v t d σ
  | OUpdateScopeVariable s n v => updateScopeVariable s n v σ
  | ODestroyScope s => destroyScope s σ
  | OAddToWebAPI id now t => (addToWebAPI id now t σ).2
  | OMoveToCallbackQueue id => (moveToCallbackQueue id σ).2
  | OAddToMicrotaskQueue id t => (addToMicrotaskQueue id t σ).2
  | OProcessNextMicrotask => (processNextMicrotask σ).2
  | OProcessNextCallback => (processNextCallback σ).2
  | OSetCurrentLine l => setCurrentLine l σ
  | OIncrementStep => (incrementStep σ).2
  | OSetExecutionState r p => setExecutionState r p σ
  | OSetSpeed v => setSpeed v σ
  | OLogConsole now t a => logConsole now t a σ
  | OAddTimer id => addTimer id σ
  | OReset => reset σ
  end.

(** A session: the operations applied in order, oldest first. *)
Definition run (ops : list Op) (σ : Store) : Store :=
  foldl (λ acc op, apply op acc) σ ops.

(** The identities handed out by the allocations of a session, oldest
    first. *)
Fixpoint allocatedIds (ops : list Op) (σ : Store) : list string :=
  match ops with
  | [] => []
  | op :: rest =>
      match op with
      | OAllocateHeap now type value refId =>
          (allocateHeap now type value refId σ).1 :: allocatedIds rest (apply op σ)
      | _ => allocatedIds rest (apply op σ)
      end
  end.

(** An operation of a session in which the store numbers the heap itself:
    no reset, and no allocation that brings its own identity. *)
Definition storeNumbered (op : Op) : bool :=
  match op with
  | OReset => false
  | OAllocateHeap _ _ _ (Some r) => bool_decide (r = "")
  | _ => true
  end.

(** *** Properties of the store used in the theorems *)

(** The operations that write each collection. *)
Definition touchesCallStack (op : Op) : bool :=
  match op with
  | OPushCallStack _ _ | OPopCallStack | OUpdateFrameVariable _ _ _ | OReset => true
  | _ => false
  end.

Definition touchesHeap (op : Op) : bool :=
  match op with
  | OAllocateHeap _ _ _ _ | OAddHeapReference _ _ | ODeallocateHeap _ | OReset => true
  | _ => false
  end.

Definition touchesScopes (op : Op) : bool :=
  match op with
  | OCreateScope _ _ _ _ | OAddScopeVariable _ _ _ _ _ | OUpdateScopeVariable _ _ _
  | ODestroyScope _ | OReset => true
  | _ => false
  end.

(** A frame is active exactly when it is the top of the stack. *)
Definition topOnlyActive (stack : list Frame) : Prop :=
  ∀ i f, stack !! i = Some f → frame_isActive f = bool_decide (S i = length stack).

(** No reference list of a heap object holds a target twice. *)
Definition refsNoDup (σ : Store) : Prop :=
  ∀ id obj, heap (state σ) !! id = Some obj → NoDup (ho_references obj).

(** The scopes of the list have distinct identities, handed out by the
    counter. *)
Definition scopesNumbered (σ : Store) : Prop :=
  NoDup (scope_id <$> scopes (state σ))
  ∧ Forall (λ s, ∃ k, scope_id s = scopeName k ∧ k ≤ scopeIdCounter (state σ))
      (scopes (state σ)).

End StateManager.

(* ===================================================================== *)
(** ** Executor: the step interpreter *)
(* ===================================================================== *)

Module Executor.
Export StateManager.

(** *** Display helpers *)

Definition propOf (key : string) (props : list (string * Value)) : option Value :=
  match list_find (λ kv, kv.1 = key) props with
  | Some (_, kv) => Some kv.2
  | None => None
  end.

Definition isFunctionRecord (props : list (string * Value)) : bool :=
  match propOf "type" props with
  | Some (VString t) => bool_decide (t = "function") || bool_decide (t = "arrowFunction")
  | _ => false
  end.

Definition getValueType (value : Value) : string :=
  match value with
  | VNull => "null"
  | VUndefined => "undefined"
  | VArray _ => "array"
  | VFunction _ _ _ => "function"
  | VObject props => if isFunctionRecord props then "function" else "object"
  | VNumber _ => "number"
  | VString _ => "string"
  | VBoolean _ => "boolean"
  end.

(** The double-quote character, code 34. *)
Definition dquote : string := String (Ascii.ascii_of_nat 34) "".

Definition quoted (s : string) : string := dquote +:+ s +:+ dquote.

Fixpoint formatValue (value : Value) : string :=
  match value with
  | VUndefined => "undefined"
  | VNull => "null"
  | VString s => quoted s
  | VArray elems =>
      if bool_decide (length elems ≤ 3)
      then "[" +:+ String.concat ", " (map formatValue elems) +:+ "]"
      else "[" +:+ pretty (length elems) +:+ " items]"
  | VFunction _ _ _ => "[Function]"
  | VObject props =>
      if isFunctionRecord props then "[Function]"
      else if bool_decide (length props ≤ 2)
      then "{" +:+ String.concat ", "
                     (map (λ kv, kv.1 +:+ ": " +:+ formatValue kv.2) props) +:+ "}"
      else "{...}"
  | VNumber n => pretty n
  | VBoolean b => if b then "true" else "false"
  end.

(** Does resolving the expression start a function call? *)
Fixpoint containsCall (e : ValueExpr) : bool :=
  match e with
  | ECall _ _ => true
  | EArray elems => existsb containsCall elems
  | EObject props => existsb (λ kv, containsCall kv.2) props
  | _ => false
  end.

(** [Promise.all(list.map(resolveValue))] starts the resolutions left to
    right, each running up to its first suspension. That is the same as
    resolving one after the other exactly when no element but the last can
    start a call. *)
Fixpoint sequentialArgs (args : list ValueExpr) : bool :=
  match args with
  | [] | [_] => true
  | e :: rest => negb (containsCall e) && sequentialArgs rest
  end.

(** *** Scope chain *)

(** [for (let i = n - 1; i >= 0; i--)] over the scope array. *)
Fixpoint lookupLoop (n : nat) (ss : list Scope) (name : string) : Value :=
  match n with
  | 0 => VUndefined
  | S i =>
      match ss !! i with
      | Some scope =>
          match scope_variables scope !! name with
          | Some v => sv_value v
          | None => lookupLoop i ss name
          end
      | None => lookupLoop i ss name
      end
  end.

Definition lookupVariable (name : string) (σ : Store) : Value :=
  let state := getState σ in
  lookupLoop (length (scopes state)) (scopes state) name.

Definition getCurrentScopeId (σ : Store) : option string :=
  let state := getState σ in
  scope_id <$> last (scopes state).

Fixpoint findScopeLoop (n : nat) (ss : list Scope) (name : string) : option string :=
  match n with
  | 0 => None
  | S i =>
      match ss !! i with
      | Some scope =>
          match scope_variables scope !! name with
          | Some _ => Some (scope_id scope)
          | None => findScopeLoop i ss name
          end
      | None => findScopeLoop i ss name
      end
  end.

Definition findVariableScope (name : string) (σ : Store) : option string :=
  let state := getState σ in
  match findScopeLoop (length (scopes state)) (scopes state) name with
  | Some id => Some id
  | None => getCurrentScopeId σ
  end.

(** No binding of the name in the scope. *)
Definition unbound (name : string) (s : Scope) : Prop :=
  scope_variables s !! name = None.

(** *** The interpreter's own state and the host *)

(** A timer the interpreter asked the host for: the handle, the delay in
    milliseconds and the task it moves to the callback queue ([None] for a
    pacing wait). *)
Record HostTimer := mkHostTimer {
  ht_handle : Z;
  ht_timeout : nat;
  ht_task : option Z }.

(** The variables of the [Executor] module, and the host. [executionStack]
    is never read and is left out, as are [isRunning], [isPaused] and
    [stepResolve], which serve pause, resume and stop: those come from
    outside and are not modelled. *)
Record Exec := mkExec {
  store : Store;
  instructions : list Instruction;
  currentIndex : nat;
  globalScope : option Scope;
  pendingTimers : list (Z * string);
  pendingMicrotasks : list string;
  reads : nat;                  (* clock readings consumed so far *)
  waits : nat;                  (* pacing waits completed so far *)
  hostTimers : list HostTimer   (* every [setTimeout] made, oldest first *) }.

Definition set_store (v : Store) (x : Exec) : Exec :=
  mkExec v (instructions x) (currentIndex x) (globalScope x) (pendingTimers x)
    (pendingMicrotasks x) (reads x) (waits x) (hostTimers x).
Definition set_currentIndex (v : nat) (x : Exec) : Exec :=
  mkExec (store x) (instructions x) v (globalScope x) (pendingTimers x)
    (pendingMicrotasks x) (reads x) (waits x) (hostTimers x).
Definition set_globalScope (v : option Scope) (x : Exec) : Exec :=
  mkExec (store x) (instructions x) (currentIndex x) v (pendingTimers x)
    (pendingMicrotasks x) (reads x) (waits x) (hostTimers x).
Definition set_pendingTimers (v : list (Z * string)) (x : Exec) : Exec :=
  mkExec (store x) (instructions x) (currentIndex x) (globalScope x) v
    (pendingMicrotasks x) (reads x) (waits x) (hostTimers x).
Definition set_pendingMicrotasks (v : list string) (x : Exec) : Exec :=
  mkExec (store x) (instructions x) (currentIndex x) (globalScope x)
    (pendingTimers x) v (reads x) (waits x) (hostTimers x).
Definition set_reads (v : nat) (x : Exec) : Exec :=
  mkExec (store x) (instructions x) (currentIndex x) (globalScope x)
    (pendingTimers x) (pendingMicrotasks x) v (waits x) (hostTimers x).
Definition set_waits (v : nat) (x : Exec) : Exec :=
  mkExec (store x) (instructions x) (currentIndex x) (globalScope x)
    (pendingTimers x) (pendingMicrotasks x) (reads x) v (hostTimers x).
Definition set_hostTimers (v : list HostTimer) (x : Exec) : Exec :=
  mkExec (store x) (instructions x) (currentIndex x) (globalScope x)
    (pendingTimers x) (pendingMicrotasks x) (reads x) (waits x) v.

(** How a computation ends: with a result, with the fuel of the model
    used up, or outside what the model covers (a thrown exception, calls
    running interleaved). *)
Inductive Outcome (A : Type) : Type :=
| Done (a : A) (x : Exec)
| OutOfFuel
| Stuck (why : string).
Arguments Done {A} a x.
Arguments OutOfFuel {A}.
Arguments Stuck {A} why.

Definition M (A : Type) : Type := Exec → Outcome A.

Definition ret {A} (a : A) : M A := λ x, Done a x.

Definition bind {A B} (m : M A) (k : A → M B) : M B :=
  λ x, match m x with
       | Done a x' => k a x'
       | OutOfFuel => OutOfFuel
       | Stuck w => Stuck w
       end.

Notation "v <- m ;; k" := (bind m (λ v, k))
  (at level 100, m at next level, right associativity).
Notation "m ;; k" := (bind m (λ _, k))
  (at level 100, right associativity).

Definition returns {A} (o : Outcome A) : Prop := ∃ a x, o = Done a x.

(** [σ'] comes from [σ] by operations of the store, and a computation
    that acts on the store in no other way. *)
Definition through (σ σ' : Store) : Prop := ∃ ops, σ' = StateManager.run ops σ.

Definition keeps {A} (m : M A) : Prop :=
  ∀ x a x', m x = Done a x' → through (store x) (store x').

(** A store operation performed by the interpreter. *)
Definition call {A} (f : Store → A * Store) : M A :=
  λ x, let '(a, σ) := f (store x) in Done a (set_store σ x).
Definition exec (f : Store → Store) : M unit :=
  λ x, Done () (set_store (f (store x)) x).
Definition ask {A} (f : Store → A) : M A := λ x, Done (f (store x)) x.

(** [for (const item of items) { await body(item) }] *)
Fixpoint forEach {A} (body : A → M unit) (items : list A) : M unit :=
  match items with
  | [] => ret ()
  | item :: rest => body item ;; forEach body rest
  end.

Fixpoint mapM {A B} (f : A → M B) (items : list A) : M (list B) :=
  match items with
  | [] => ret []
  | item :: rest => b <- f item ;; bs <- mapM f rest ;; ret (b :: bs)
  end.

Section Interpreter.

(** The translator applied to the text of a body or of a callback. *)
Variable parseBody : string → list Instruction.
(** The host clock: the k-th reading made of [Date.now()], alone or with
    [Math.random()] added to make an identity. *)
Variable clock : nat → Z.
(** The host timers: the tasks whose timer fires during the k-th pacing
    wait, in firing order. *)
Variable fired : nat → list Z.

Definition now : M Z :=
  λ x, Done (clock (reads x)) (set_reads (S (reads x)) x).

(** [setTimeout(f, timeout)]: the host hands out the next handle. *)
Definition setTimeout (task : option Z) (timeout : nat) : M Z :=
  λ x, let handle := Z.of_nat (S (length (hostTimers x))) in
       Done handle (set_hostTimers (hostTimers x ++ [mkHostTimer handle timeout task]) x).

Definition logConsoleM (type : string) (text : string) : M unit :=
  t <- now ;; exec (logConsole t type [text]).

(** [await delay()]: a pacing timer is set and tracked, and while the
    interpreter is suspended the host runs the timer callbacks that are
    due, each one a [moveToCallbackQueue]. *)
Definition delay : M unit :=
  speed <- ask (λ σ, speed (getState σ)) ;;
  timerId <- setTimeout None speed ;;
  exec (addTimer timerId) ;;
  (λ x, Done ()
     (set_waits (S (waits x))
        (set_store (foldl (λ σ id, (moveToCallbackQueue id σ).2) (store x)
                      (fired (waits x))) x))).

Definition declares (name : string) (i : Instruction) : bool :=
  match i with
  | FunctionDeclaration n _ _ _ _ _ => bool_decide (n = name)
  | _ => false
  end.

(** [instructions.find(i => i.type === 'functionDeclaration' && i.name === name)] *)
Definition findFunction (name : string) (x : Exec) : option Instruction :=
  List.find (declares name) (instructions x).

Definition executeHoisting (functions vars : list string) : M unit :=
  logConsoleM "info"
    ("Hoisting: Functions [" +:+ String.concat ", " functions +:+ "], Vars ["
       +:+ String.concat ", " vars +:+ "]").

Definition scopeIdValue (id : option string) : Value :=
  match id with Some s => VString s | None => VNull end.

Definition executeFunctionDeclaration (name : string) (params : list string)
    (body : string) : M unit :=
  closure <- ask getCurrentScopeId ;;
  t <- now ;;
  funcId <- call (allocateHeap t "function"
              (VObject [("name", VString name); ("params", VArray (VString <$> params));
                        ("body", VString body); ("closure", scopeIdValue closure)])
              None) ;;
  cur <- ask getCurrentScopeId ;;
  exec (addScopeVariable cur name (VString funcId) "function" "function") ;;
  exec (updateFrameVariable name (VString ("[Function: " +:+ name +:+ "]")) "function").

Definition executeHoistedVar (name : string) : M unit :=
  cur <- ask getCurrentScopeId ;;
  exec (addScopeVariable cur name VUndefined "undefined" "var") ;;
  exec (updateFrameVariable name (VString "undefined") "undefined").

Definition isObjectValue (v : Value) : bool :=
  match v with VArray _ | VObject _ | VFunction _ _ _ => true | _ => false end.

Definition isArrayValue (v : Value) : bool :=
  match v with VArray _ => true | _ => false end.

Definition executePromise (callback : string) : M unit :=
  id <- now ;;
  call (addToMicrotaskQueue id (mkTaskInit "Promise.then" callback 0 "")) ;;
  logConsoleM "info" "Promise.then added to microtask queue" ;;
  (λ x, Done () (set_pendingMicrotasks (pendingMicrotasks x ++ [callback]) x)).

Definition executeSetTimeout (callback : string) (delayMs : nat) : M unit :=
  taskId <- now ;;
  id <- now ;;
  startTime <- now ;;
  task <- call (addToWebAPI id startTime (mkTaskInit "setTimeout" callback delayMs "timer")) ;;
  logConsoleM "info" ("setTimeout registered (" +:+ pretty delayMs +:+ "ms)") ;;
  speed <- ask (λ σ, speed (getState σ)) ;;
  timerId <- setTimeout (Some (task_id task)) (delayMs `min` speed) ;;
  exec (addTimer timerId) ;;
  (λ x, Done () (set_pendingTimers (pendingTimers x ++ [(taskId, callback)]) x)).

Definition executeNewObject (declarationType name : string) : M unit :=
  t <- now ;;
  heapId <- call (allocateHeap t "object" (VObject []) None) ;;
  cur <- ask getCurrentScopeId ;;
  exec (addScopeVariable cur name (VString heapId) "object" declarationType) ;;
  exec (updateFrameVariable name (VString "{...}") "object").

(** [params.forEach((param, i) => ...)] with [args[i]], undefined when
    the call has fewer arguments. *)
Fixpoint bindParameters (scopeId : string) (params : list string) (args : list Value)
    : M unit :=
  match params with
  | [] => ret ()
  | param :: ps =>
      let value := default VUndefined (head args) in
      exec (addScopeVariable (Some scopeId) param value (getValueType value) "param") ;;
      exec (updateFrameVariable param (VString (formatValue value)) (getValueType value)) ;;
      bindParameters scopeId ps (tail args)
  end.

(** The executions that resolve expressions take the resolver of the
    current recursion depth as [resolveValue] / [resolveAll]. *)
Definition executeVariableDeclaration (resolveValue : ValueExpr → M Value)
    (declarationType name : string) (valueExpr : ValueExpr) : M unit :=
  value <- resolveValue valueExpr ;;
  let valueType := getValueType value in
  storedValue <-
    (if isObjectValue value then
       t <- now ;;
       heapId <- call (allocateHeap t
                   (if isArrayValue value then "array" else "object") value None) ;;
       ret (VString heapId)
     else ret value) ;;
  cur <- ask getCurrentScopeId ;;
  exec (addScopeVariable cur name storedValue valueType declarationType) ;;
  exec (updateFrameVariable name (VString (formatValue value)) valueType).

Definition executeAssignment (resolveValue : ValueExpr → M Value)
    (name : string) (valueExpr : ValueExpr) : M unit :=
  value <- resolveValue valueExpr ;;
  let valueType := getValueType value in
  target <- ask (findVariableScope name) ;;
  exec (updateScopeVariable target name value) ;;
  exec (updateFrameVariable name (VString (formatValue value)) valueType).

Definition executeConsole (resolveAll : list ValueExpr → M (list Value))
    (method : string) (args : list ValueExpr) : M unit :=
  values <- resolveAll args ;;
  logConsoleM method (String.concat " " (formatValue <$> values)).

Definition executeMethodCall (resolveAll : list ValueExpr → M (list Value))
    (object method : string) (args : list ValueExpr) : M unit :=
  if bool_decide (object = "console") then executeConsole resolveAll method args
  else ret ().

Definition executeReturn (resolveValue : ValueExpr → M Value)
    (valueExpr : ValueExpr) : M unit :=
  value <- resolveValue valueExpr ;;
  logConsoleM "log" ("Return: " +:+ formatValue value).

(** [executeInstruction]: the dispatch on the kind of instruction, over
    the call and the resolvers of the current recursion depth. *)
Definition executeInstructionBody
    (executeFunctionCall : string → list ValueExpr → M unit)
    (resolveValue : ValueExpr → M Value)
    (resolveAll : list ValueExpr → M (list Value))
    (instruction : Instruction) : M unit :=
  match instruction with
  | HoistingPhase functions vars _ => executeHoisting functions vars
  | FunctionDeclaration name params _ body _ _ =>
      executeFunctionDeclaration name params body
  | HoistedVar name _ _ => executeHoistedVar name
  | VariableDeclaration declarationType name valueExpr _ =>
      executeVariableDeclaration resolveValue declarationType name valueExpr
  | Assignment name valueExpr _ => executeAssignment resolveValue name valueExpr
  | FunctionCall name args _ => executeFunctionCall name args
  | MethodCall object method args _ => executeMethodCall resolveAll object method args
  | Console method args _ => executeConsole resolveAll method args
  | SetTimeout callback delayMs _ => executeSetTimeout callback delayMs
  | PromiseThen callback _ => executePromise callback
  | Return valueExpr _ => executeReturn resolveValue valueExpr
  | NewObject declarationType name _ _ _ => executeNewObject declarationType name
  end.

(** [executeFunctionCall], over the interpretation of the body's
    instructions and the resolver of the arguments. *)
Definition executeFunctionCallBody
    (executeInstruction : Instruction → M unit)
    (resolveAll : list ValueExpr → M (list Value))
    (name : string) (args : list ValueExpr) : M unit :=
  λ x,
  match findFunction name x with
  | Some (FunctionDeclaration _ params funcLine body _ _) =>
      (values <- resolveAll args ;;
       parent <- ask getCurrentScopeId ;;
       t <- now ;;
       funcScope <- call (createScope t name "function" parent) ;;
       id <- now ;;
       call (pushCallStack id (mkFrameInit name "function" (Some ∅) "window" funcLine)) ;;
       bindParameters (scope_id funcScope) params values ;;
       (if bool_decide (body = "") then ret ()
        else forEach
               (λ bodyInst,
                  exec (setCurrentLine
                          (Z.of_nat (if bool_decide (inst_line bodyInst = 0)
                                     then funcLine else inst_line bodyInst))) ;;
                  executeInstruction bodyInst ;;
                  delay)
               (parseBody body)) ;;
       call popCallStack ;;
       exec (destroyScope (Some (scope_id funcScope)))) x
  | _ =>
      logConsoleM "error" ("ReferenceError: " +:+ name +:+ " is not defined") x
  end.

(** [resolveValue], over the call, the resolver of nested expressions and
    the resolver of element lists. *)
Definition resolveValueBody
    (executeFunctionCall : string → list ValueExpr → M unit)
    (resolveValue : ValueExpr → M Value)
    (resolveAll : list ValueExpr → M (list Value))
    (valueExpr : ValueExpr) : M Value :=
  match valueExpr with
  | ENumber n => ret (VNumber n)
  | EString s => ret (VString s)
  | EBoolean b => ret (VBoolean b)
  | ENull => ret VNull
  | EUndefined => ret VUndefined
  | EArray elems => vs <- resolveAll elems ;; ret (VArray vs)
  | EObject props =>
      vs <- mapM (λ kv, v <- resolveValue kv.2 ;; ret (kv.1, v)) props ;;
      ret (VObject vs)
  | EReference name => ask (lookupVariable name)
  | ECall name args => executeFunctionCall name args ;; ret VUndefined
  | EFunction params body => ret (VFunction false params body)
  | EArrowFunction params body => ret (VFunction true params body)
  | EPropertyAccess text => ret (VString text)
  end.

(** [Promise.all(exprs.map(resolveValue))], where it runs in sequence. *)
Definition resolveAllBody (resolveValue : ValueExpr → M Value)
    (exprs : list ValueExpr) : M (list Value) :=
  if sequentialArgs exprs
  then mapM resolveValue exprs
  else λ _, Stuck "calls started together by Promise.all run interleaved".

(** The mutual recursion of [executeInstruction], [executeFunctionCall]
    and [resolveValue]. Every call into the recursion spends one unit of
    [fuel]; a body that calls itself without end uses up any amount. *)
Fixpoint executeInstruction (fuel : nat) (instruction : Instruction) : M unit :=
  match fuel with
  | 0 => λ _, OutOfFuel
  | S fuel =>
      executeInstructionBody (executeFunctionCall fuel) (resolveValue fuel)
        (resolveAll fuel) instruction
  end

with executeFunctionCall (fuel : nat) (name : string) (args : list ValueExpr) : M unit :=
  match fuel with
  | 0 => λ _, OutOfFuel
  | S fuel =>
      executeFunctionCallBody (executeInstruction fuel) (resolveAll fuel) name args
  end

with resolveValue (fuel : nat) (valueExpr : ValueExpr) : M Value :=
  match fuel with
  | 0 => λ _, OutOfFuel
  | S fuel =>
      resolveValueBody (executeFunctionCall fuel) (resolveValue fuel)
        (resolveAll fuel) valueExpr
  end

with resolveAll (fuel : nat) (exprs : list ValueExpr) : M (list Value) :=
  match fuel with
  | 0 => λ _, OutOfFuel
  | S fuel => resolveAllBody (resolveValue fuel) exprs
  end.

Definition nonEmpty {A} (l : list A) : bool :=
  match l with [] => false | _ => true end.

Definition hasPendingTasks (x : Exec) : bool :=
  let state := getState (store x) in
  nonEmpty (webAPIs (eventLoop state))
  || nonEmpty (callbackQueue (eventLoop state))
  || nonEmpty (microtaskQueue (eventLoop state))
  || nonEmpty (pendingTimers x)
  || nonEmpty (pendingMicrotasks x).

(** The loop over a callback's instructions. *)
Definition runCallback (fuel : nat) (callback : string) : M unit :=
  forEach (λ inst, executeInstruction fuel inst ;; delay) (parseBody callback).

(** One turn of the [while] of [processEventLoop]: take the next
    microtask, run its callback, drop one pending entry. *)
Definition microtaskTurn (fuel : nat) : M unit :=
  task <- call processNextMicrotask ;;
  match task with
  | Some t =>
      if bool_decide (task_callback t = "") then ret ()
      else
        logConsoleM "info" ("Executing microtask: " +:+ task_name t) ;;
        delay ;;
        runCallback fuel (task_callback t)
  | None => ret ()
  end ;;
  (λ x, Done () (set_pendingMicrotasks (tail (pendingMicrotasks x)) x)).

(** The [while] of [processEventLoop]. Its test reads the microtask queue
    of [state], the copy taken by [getState] before the loop, and the live
    [pendingMicrotasks]. One turn spends one unit of fuel. *)
Fixpoint microtaskLoop (fuel : nat) (state : State) : M unit :=
  match fuel with
  | 0 => λ _, OutOfFuel
  | S fuel =>
      λ x,
      if nonEmpty (microtaskQueue (eventLoop state)) || nonEmpty (pendingMicrotasks x)
      then (microtaskTurn fuel ;; microtaskLoop fuel state) x
      else Done () x
  end.

Definition processOneCallback (fuel : nat) : M unit :=
  callbackState <- ask getState ;;
  λ x,
  if nonEmpty (callbackQueue (eventLoop callbackState)) || nonEmpty (pendingTimers x)
  then
    (callback <- call processNextCallback ;;
     match callback with
     | Some c =>
         if bool_decide (task_callback c = "") then ret ()
         else
           logConsoleM "info" ("Executing callback: " +:+ task_name c) ;;
           (λ x,
            match globalScope x with
            | None => Stuck "TypeError: globalScope is null"
            | Some g =>
                (t <- now ;;
                 callbackScope <-
                   call (createScope t "setTimeout callback" "function" (Some (scope_id g))) ;;
                 id <- now ;;
                 call (pushCallStack id
                         (mkFrameInit "setTimeout callback" "function" (Some ∅) "window" 0)) ;;
                 delay ;;
                 runCallback fuel (task_callback c) ;;
                 call popCallStack ;;
                 exec (destroyScope (Some (scope_id callbackScope)))) x
            end)
     | None => ret ()
     end ;;
     (λ x, Done () (set_pendingTimers (tail (pendingTimers x)) x))) x
  else Done () x.

Definition processEventLoop (fuel : nat) : M bool :=
  state <- ask getState ;;
  microtaskLoop fuel state ;;
  processOneCallback fuel ;;
  λ x, Done (hasPendingTasks x) x.

(** [step]: one top-level instruction, or one pass over the queues once
    the instructions are used up. *)
Definition step (fuel : nat) : M bool :=
  λ x,
  match instructions x !! currentIndex x with
  | None => (processEventLoop fuel ;; ret false) x
  | Some instruction =>
      (exec (setCurrentLine (Z.of_nat (inst_line instruction))) ;;
       call incrementStep ;;
       executeInstruction fuel instruction ;;
       (λ x, Done () (set_currentIndex (S (currentIndex x)) x)) ;;
       (λ x, Done (bool_decide (currentIndex x < length (instructions x))
                   || hasPendingTasks x) x)) x
  end.

(** [init]: the variables are reset, then come the global scope and the
    global frame. *)
Definition init (parsedInstructions : list Instruction) : M unit :=
  (λ x, Done ()
     (mkExec (store x) parsedInstructions 0 (globalScope x) [] [] (reads x) (waits x)
        (hostTimers x))) ;;
  t <- now ;;
  g <- call (createScope t "Global" "global" None) ;;
  (λ x, Done () (set_globalScope (Some g) x)) ;;
  id <- now ;;
  call (pushCallStack id
          (mkFrameInit "Global Execution Context" "global" (Some ∅) "window" 0)) ;;
  ret ().

(** The loop of [run], with nobody pausing or stopping it: a step, then a
    pacing wait while the step reports more work. *)
Fixpoint runLoop (fuel : nat) : M unit :=
  match fuel with
  | 0 => λ _, OutOfFuel
  | S fuel =>
      more <- step fuel ;;
      if more : bool then delay ;; runLoop fuel else ret ()
  end.

Definition run (fuel : nat) : M unit :=
  exec (setExecutionState true false) ;;
  runLoop fuel ;;
  exec (setExecutionState false false) ;;
  logConsoleM "info" "Execution completed".

End Interpreter.

(** [Executor.reset]: stop, rewind, and reset the store. *)
Definition reset (x : Exec) : Exec :=
  mkExec (StateManager.reset (setExecutionState false false (store x)))
    (instructions x) 0 (globalScope x) [] [] (reads x) (waits x) (hostTimers x).

(** The interpreter before [init], over a fresh store. *)
Definition initialExec : Exec :=
  mkExec initialStore [] 0 None [] [] 0 0 [].

(** The console entries among the notifications, oldest first. *)
Definition consoleEntries (σ : Store) : list (string * list string) :=
  omap (λ n, match n with NConsole type args _ => Some (type, args) | _ => None end)
    (emitted σ).

End Executor.

(* ===================================================================== *)
(** ** Aliasing: the store as a graph of objects *)
(* ===================================================================== *)

(** [StateManager] above treats every collection as a value. Here the
    collections and the records in them are objects with an address, as in
    the source, so that what [getState] copies and what it shares can be
    told apart. Records (frames, scopes, heap objects, tasks) and
    containers (arrays, the heap [Map]) live at addresses of two separate
    kinds; a container of records holds addresses of records. *)
Module Aliasing.
Import StateManager.

Definition loc := nat.

Inductive Rec : Type :=
| RFrame (f : Frame)
| RScope (s : Scope)
| RHeapObject (o : HeapObject)
| RTask (t : Task).

Inductive Box : Type :=
| BArray (elems : list loc)             (* call stack, scope list, queues *)
| BMap (entries : gmap string loc)      (* the heap Map *)
| BCode (insts : list Instruction)      (* parsedCode, executionQueue *)
| BHandles (handles : list Z).          (* timers *)

Record Memory := mkMemory {
  records : gmap loc Rec;
  boxes : gmap loc Box;
  next : loc }.

(** The [state] object, or a copy of it: scalar fields and the addresses
    of its containers. *)
Record StateObj := mkStateObj {
  o_code : string;
  o_parsedCode : loc;
  o_callStack : loc;
  o_heap : loc;
  o_heapIdCounter : nat;
  o_scopes : loc;
  o_scopeIdCounter : nat;
  o_webAPIs : loc;
  o_callbackQueue : loc;
  o_microtaskQueue : loc;
  o_currentLine : Z;
  o_currentStep : nat;
  o_isRunning : bool;
  o_isPaused : bool;
  o_speed : nat;
  o_executionQueue : loc;
  o_timers : loc }.

Definition World : Type := Memory * StateObj.

(** *** Reading and writing memory *)

Definition readArray (m : Memory) (ℓ : loc) : list loc :=
  match boxes m !! ℓ with Some (BArray l) => l | _ => [] end.
Definition readMap (m : Memory) (ℓ : loc) : gmap string loc :=
  match boxes m !! ℓ with Some (BMap e) => e | _ => ∅ end.
Definition readCode (m : Memory) (ℓ : loc) : list Instruction :=
  match boxes m !! ℓ with Some (BCode l) => l | _ => [] end.
Definition readHandles (m : Memory) (ℓ : loc) : list Z :=
  match boxes m !! ℓ with Some (BHandles l) => l | _ => [] end.

Definition asFrame (r : Rec) : option Frame :=
  match r with RFrame f => Some f | _ => None end.
Definition asScope (r : Rec) : option Scope :=
  match r with RScope s => Some s | _ => None end.
Definition asHeapObject (r : Rec) : option HeapObject :=
  match r with RHeapObject o => Some o | _ => None end.
Definition asTask (r : Rec) : option Task :=
  match r with RTask t => Some t | _ => None end.

Definition frameAt (m : Memory) (ℓ : loc) : option Frame := records m !! ℓ ≫= asFrame.
Definition scopeAt (m : Memory) (ℓ : loc) : option Scope := records m !! ℓ ≫= asScope.
Definition heapObjectAt (m : Memory) (ℓ : loc) : option HeapObject :=
  records m !! ℓ ≫= asHeapObject.
Definition taskAt (m : Memory) (ℓ : loc) : option Task := records m !! ℓ ≫= asTask.

Definition writeBox (ℓ : loc) (b : Box) (m : Memory) : Memory :=
  mkMemory (records m) (<[ℓ := b]> (boxes m)) (next m).
Definition writeRecord (ℓ : loc) (r : Rec) (m : Memory) : Memory :=
  mkMemory (<[ℓ := r]> (records m)) (boxes m) (next m).
Definition allocBox (b : Box) (m : Memory) : loc * Memory :=
  (next m, mkMemory (records m) (<[next m := b]> (boxes m)) (S (next m))).
Definition allocRecord (r : Rec) (m : Memory) : loc * Memory :=
  (next m, mkMemory (<[next m := r]> (records m)) (boxes m) (S (next m))).

(** *** What a holder of a state object sees: every address followed *)

Definition view (m : Memory) (s : StateObj) : State :=
  {| code := o_code s;
     parsedCode := readCode m (o_parsedCode s);
     callStack := omap (frameAt m) (readArray m (o_callStack s));
     heap := omap (heapObjectAt m) (readMap m (o_heap s));
     heapIdCounter := o_heapIdCounter s;
     scopes := omap (scopeAt m) (readArray m (o_scopes s));
     scopeIdCounter := o_scopeIdCounter s;
     eventLoop :=
       mkEventLoop (omap (taskAt m) (readArray m (o_webAPIs s)))
         (omap (taskAt m) (readArray m (o_callbackQueue s)))
         (omap (taskAt m) (readArray m (o_microtaskQueue s)));
     currentLine := o_currentLine s;
     currentStep := o_currentStep s;
     isRunning := o_isRunning s;
     isPaused := o_isPaused s;
     speed := o_speed s;
     executionQueue := readCode m (o_executionQueue s);
     timers := readHandles m (o_timers s) |}.

(** The containers of a state object, by address and by content: which
    records each collection holds, in which order. *)
Definition roots (s : StateObj) : list loc :=
  [ o_parsedCode s; o_callStack s; o_heap s; o_scopes s; o_webAPIs s;
    o_callbackQueue s; o_microtaskQueue s; o_executionQueue s; o_timers s ].

Definition containers (m : Memory) (s : StateObj)
    : list loc * gmap string loc * list loc * list loc * list loc * list loc :=
  (readArray m (o_callStack s), readMap m (o_heap s), readArray m (o_scopes s),
   readArray m (o_webAPIs s), readArray m (o_callbackQueue s),
   readArray m (o_microtaskQueue s)).

(** *** The module at load time *)

Definition initialMemory : Memory :=
  mkMemory ∅
    (<[8 := BHandles []]> (<[7 := BCode []]> (<[6 := BArray []]>
     (<[5 := BArray []]> (<[4 := BArray []]> (<[3 := BArray []]>
     (<[2 := BMap ∅]> (<[1 := BArray []]> (<[0 := BCode []]> ∅)))))))))
    9.

Definition initialStateObj : StateObj :=
  mkStateObj "" 0 1 2 0 3 0 4 5 6 (-1)%Z 0 false false 1000 7 8.

Definition initialWorld : World := (initialMemory, initialStateObj).

(** *** [getState]: a new object with the scalar fields, new arrays and a
    new [Map] holding the same record addresses; [parsedCode],
    [executionQueue] and [timers] come with the spread and stay the
    store's own arrays. *)
Definition getState (w : World) : StateObj * Memory :=
  let '(m, s) := w in
  let n := next m in
  let snapshot :=
    mkStateObj (o_code s) (o_parsedCode s) n (n + 1) (o_heapIdCounter s) (n + 2)
      (o_scopeIdCounter s) (n + 3) (n + 4) (n + 5) (o_currentLine s)
      (o_currentStep s) (o_isRunning s) (o_isPaused s) (o_speed s)
      (o_executionQueue s) (o_timers s) in
  (snapshot,
   mkMemory (records m)
     (<[n + 5 := BArray (readArray m (o_microtaskQueue s))]>
      (<[n + 4 := BArray (readArray m (o_callbackQueue s))]>
      (<[n + 3 := BArray (readArray m (o_webAPIs s))]>
      (<[n + 2 := BArray (readArray m (o_scopes s))]>
      (<[n + 1 := BMap (readMap m (o_heap s))]>
      (<[n := BArray (readArray m (o_callStack s))]> (boxes m)))))))
     (n + 6)).

(** The six containers that belong to a copy alone. *)
Definition ownBoxes (s : StateObj) : list loc :=
  [ o_callStack s; o_heap s; o_scopes s; o_webAPIs s; o_callbackQueue s;
    o_microtaskQueue s ].

(** *** Field updates of a state object *)

Definition o_set_code (v : string) (s : StateObj) : StateObj :=
  mkStateObj v (o_parsedCode s) (o_callStack s) (o_heap s) (o_heapIdCounter s)
    (o_scopes s) (o_scopeIdCounter s) (o_webAPIs s) (o_callbackQueue s)
    (o_microtaskQueue s) (o_currentLine s) (o_currentStep s) (o_isRunning s)
    (o_isPaused s) (o_speed s) (o_executionQueue s) (o_timers s).
Definition o_set_parsedCode (v : loc) (s : StateObj) : StateObj :=
  mkStateObj (o_code s) v (o_callStack s) (o_heap s) (o_heapIdCounter s)
    (o_scopes s) (o_scopeIdCounter s) (o_webAPIs s) (o_callbackQueue s)
    (o_microtaskQueue s) (o_currentLine s) (o_currentStep s) (o_isRunning s)
    (o_isPaused s) (o_speed s) (o_executionQueue s) (o_timers s).
Definition o_set_heapIdCounter (v : nat) (s : StateObj) : StateObj :=
  mkStateObj (o_code s) (o_parsedCode s) (o_callStack s) (o_heap s) v
    (o_scopes s) (o_scopeIdCounter s) (o_webAPIs s) (o_callbackQueue s)
    (o_microtaskQueue s) (o_currentLine s) (o_currentStep s) (o_isRunning s)
    (o_isPaused s) (o_speed s) (o_executionQueue s) (o_timers s).
Definition o_set_scopeIdCounter (v : nat) (s : StateObj) : StateObj :=
  mkStateObj (o_code s) (o_parsedCode s) (o_callStack s) (o_heap s)
    (o_heapIdCounter s) (o_scopes s) v (o_webAPIs s) (o_callbackQueue s)
    (o_microtaskQueue s) (o_currentLine s) (o_currentStep s) (o_isRunning s)
    (o_isPaused s) (o_speed s) (o_executionQueue s) (o_timers s).
Definition o_set_currentLine (v : Z) (s : StateObj) : StateObj :=
  mkStateObj (o_code s) (o_parsedCode s) (o_callStack s) (o_heap s)
    (o_heapIdCounter s) (o_scopes s) (o_scopeIdCounter s) (o_webAPIs s)
    (o_callbackQueue s) (o_microtaskQueue s) v (o_currentStep s) (o_isRunning s)
    (o_isPaused s) (o_speed s) (o_executionQueue s) (o_timers s).
Definition o_set_currentStep (v : nat) (s : StateObj) : StateObj :=
  mkStateObj (o_code s) (o_parsedCode s) (o_callStack s) (o_heap s)
    (o_heapIdCounter s) (o_scopes s) (o_scopeIdCounter s) (o_webAPIs s)
    (o_callbackQueue s) (o_microtaskQueue s) (o_currentLine s) v (o_isRunning s)
    (o_isPaused s) (o_speed s) (o_executionQueue s) (o_timers s).
Definition o_set_execution (r p : bool) (s : StateObj) : StateObj :=
  mkStateObj (o_code s) (o_parsedCode s) (o_callStack s) (o_heap s)
    (o_heapIdCounter s) (o_scopes s) (o_scopeIdCounter s) (o_webAPIs s)
    (o_callbackQueue s) (o_microtaskQueue s) (o_currentLine s) (o_currentStep s)
    r p (o_speed s) (o_executionQueue s) (o_timers s).
Definition o_set_speed (v : nat) (s : StateObj) : StateObj :=
  mkStateObj (o_code s) (o_parsedCode s) (o_callStack s) (o_heap s)
    (o_heapIdCounter s) (o_scopes s) (o_scopeIdCounter s) (o_webAPIs s)
    (o_callbackQueue s) (o_microtaskQueue s) (o_currentLine s) (o_currentStep s)
    (o_isRunning s) (o_isPaused s) v (o_executionQueue s) (o_timers s).

(** *** The operations of the store on the object graph. Each one is the
    operation of the same name in [StateManager], with the in-place
    updates of the source written as writes to memory; the value it
    returns and the notifications it sends are not repeated here. *)

Definition setTop (b : bool) (stack : list loc) (m : Memory) : Memory :=
  match last stack with
  | Some top =>
      match frameAt m top with
      | Some f => writeRecord top (RFrame (setActive b f)) m
      | None => m
      end
  | None => m
  end.

Definition pushCallStack (id : Z) (frame : FrameInit) (w : World) : World :=
  let '(m, s) := w in
  let newFrame :=
    mkFrame id (orDefault (fi_name frame) "anonymous")
      (orDefault (fi_type frame) "function") (default ∅ (fi_variables frame))
      (orDefault (fi_thisBinding frame) "window") (fi_line frame) true in
  let '(ℓ, m1) := allocRecord (RFrame newFrame) m in
  let stack := readArray m1 (o_callStack s) in
  let m2 := setTop false stack m1 in
  (writeBox (o_callStack s) (BArray (stack ++ [ℓ])) m2, s).

Definition popCallStack (w : World) : World :=
  let '(m, s) := w in
  let stack := readArray m (o_callStack s) in
  let stack' := take (length stack - 1) stack in
  let m1 := writeBox (o_callStack s) (BArray stack') m in
  (setTop true stack' m1, s).

Definition updateFrameVariable (name : string) (value : Value) (type : string)
    (w : World) : World :=
  let '(m, s) := w in
  match last (readArray m (o_callStack s)) with
  | Some top =>
      match frameAt m top with
      | Some f =>
          (writeRecord top (RFrame (setFrameVariable name (mkFrameVar value type) f)) m, s)
      | None => w
      end
  | None => w
  end.

Definition allocateHeap (now : Z) (type : string) (value : Value)
    (refId : option string) (w : World) : World :=
  let '(m, s) := w in
  let explicit :=
    match refId with
    | Some r => if bool_decide (r = "") then None else Some r
    | None => None
    end in
  let '(id, s1) :=
    match explicit with
    | Some r => (r, s)
    | None =>
        let n := S (o_heapIdCounter s) in (refName n, o_set_heapIdCounter n s)
    end in
  let '(ℓ, m1) := allocRecord (RHeapObject (mkHeapObject id type value [] now)) m in
  (writeBox (o_heap s) (BMap (<[id := ℓ]> (readMap m1 (o_heap s)))) m1, s1).

Definition addHeapReference (fromId toId : string) (w : World) : World :=
  let '(m, s) := w in
  match readMap m (o_heap s) !! fromId with
  | Some ℓ =>
      match heapObjectAt m ℓ with
      | Some obj =>
          if bool_decide (toId ∈ ho_references obj) then w
          else (writeRecord ℓ (RHeapObject (addReference toId obj)) m, s)
      | None => w
      end
  | None => w
  end.

Definition deallocateHeap (id : string) (w : World) : World :=
  let '(m, s) := w in
  match readMap m (o_heap s) !! id with
  | Some _ => (writeBox (o_heap s) (BMap (delete id (readMap m (o_heap s)))) m, s)
  | None => w
  end.

Definition createScope (now : Z) (name type : string) (parentId : option string)
    (w : World) : World :=
  let '(m, s) := w in
  let n := S (o_scopeIdCounter s) in
  let '(ℓ, m1) := allocRecord (RScope (mkScope (scopeName n) name type parentId ∅ now)) m in
  (writeBox (o_scopes s) (BArray (readArray m1 (o_scopes s) ++ [ℓ])) m1,
   o_set_scopeIdCounter n s).

(** Position, address and record of the first scope with the identity. *)
Definition findScopeAt (m : Memory) (scopeId : option string) (ss : list loc)
    : option (nat * loc) :=
  match scopeId with
  | Some k =>
      list_find (λ ℓ, (scope_id <$> scopeAt m ℓ) = Some k) ss
  | None => None
  end.

Definition addScopeVariable (scopeId : option string) (name : string)
    (value : Value) (varType declarationType : string) (w : World) : World :=
  let '(m, s) := w in
  match findScopeAt m scopeId (readArray m (o_scopes s)) with
  | Some (_, ℓ) =>
      match scopeAt m ℓ with
      | Some scope =>
          (writeRecord ℓ
             (RScope (setScopeVariables
                        (<[name := mkScopeVar value varType declarationType]>
                           (scope_variables scope)) scope)) m, s)
      | None => w
      end
  | None => w
  end.

Definition updateScopeVariable (scopeId : option string) (name : string)
    (value : Value) (w : World) : World :=
  let '(m, s) := w in
  match findScopeAt m scopeId (readArray m (o_scopes s)) with
  | Some (_, ℓ) =>
      match scopeAt m ℓ with
      | Some scope =>
          match scope_variables scope !! name with
          | Some v =>
              (writeRecord ℓ
                 (RScope (setScopeVariables
                            (<[name := setVarValue value v]> (scope_variables scope))
                            scope)) m, s)
          | None => w
          end
      | None => w
      end
  | None => w
  end.

Definition destroyScope (scopeId : option string) (w : World) : World :=
  let '(m, s) := w in
  match findScopeAt m scopeId (readArray m (o_scopes s)) with
  | Some (i, _) =>
      (writeBox (o_scopes s) (BArray (delete i (readArray m (o_scopes s)))) m, s)
  | None => w
  end.

Definition addToWebAPI (id now : Z) (task : TaskInit) (w : World) : World :=
  let '(m, s) := w in
  let apiTask :=
    mkTask id (ti_name task) (ti_callback task) (Some (ti_delay task)) (Some now)
      (orDefault (ti_type task) "timer") in
  let '(ℓ, m1) := allocRecord (RTask apiTask) m in
  (writeBox (o_webAPIs s) (BArray (readArray m1 (o_webAPIs s) ++ [ℓ])) m1, s).

Definition moveToCallbackQueue (taskId : Z) (w : World) : World :=
  let '(m, s) := w in
  match list_find (λ ℓ, (task_id <$> taskAt m ℓ) = Some taskId)
          (readArray m (o_webAPIs s)) with
  | Some (i, ℓ) =>
      let m1 := writeBox (o_webAPIs s) (BArray (delete i (readArray m (o_webAPIs s)))) m in
      (writeBox (o_callbackQueue s)
         (BArray (readArray m1 (o_callbackQueue s) ++ [ℓ])) m1, s)
  | None => w
  end.

Definition addToMicrotaskQueue (id : Z) (task : TaskInit) (w : World) : World :=
  let '(m, s) := w in
  let microTask := mkTask id (ti_name task) (ti_callback task) None None "microtask" in
  let '(ℓ, m1) := allocRecord (RTask microTask) m in
  (writeBox (o_microtaskQueue s)
     (BArray (readArray m1 (o_microtaskQueue s) ++ [ℓ])) m1, s).

Definition processNextMicrotask (w : World) : World :=
  let '(m, s) := w in
  match readArray m (o_microtaskQueue s) with
  | _ :: q => (writeBox (o_microtaskQueue s) (BArray q) m, s)
  | [] => w
  end.

Definition processNextCallback (w : World) : World :=
  let '(m, s) := w in
  match readArray m (o_callbackQueue s) with
  | _ :: q => (writeBox (o_callbackQueue s) (BArray q) m, s)
  | [] => w
  end.

(** [state.parsedCode = parsed]: the array is the caller's; it is a new
    one here, as the translator returns. *)
Definition setParsedCode (parsed : list Instruction) (w : World) : World :=
  let '(m, s) := w in
  let '(ℓ, m1) := allocBox (BCode parsed) m in (m1, o_set_parsedCode ℓ s).

Definition addTimer (timerId : Z) (w : World) : World :=
  let '(m, s) := w in
  (writeBox (o_timers s) (BHandles (readHandles m (o_timers s) ++ [timerId])) m, s).

(** [state = { ... }]: a new state object with new, empty containers. *)
Definition reset (w : World) : World :=
  let '(m, s) := w in
  let n := next m in
  (mkMemory (records m)
     (<[n + 8 := BHandles []]> (<[n + 7 := BCode []]> (<[n + 6 := BArray []]>
      (<[n + 5 := BArray []]> (<[n + 4 := BArray []]> (<[n + 3 := BArray []]>
      (<[n + 2 := BMap ∅]> (<[n + 1 := BArray []]> (<[n := BCode []]> (boxes m))))))))))
     (n + 9),
   mkStateObj (o_code s) n (n + 1) (n + 2) 0 (n + 3) 0 (n + 4) (n + 5) (n + 6)
     (-1)%Z 0 false false (o_speed s) (n + 7) (n + 8)).

Definition apply (op : Op) (w : World) : World :=
  match op with
  | OSetCode c => (w.1, o_set_code c w.2)
  | OSetParsedCode p => setParsedCode p w
  | OPushCallStack id f => pushCallStack id f w
  | OPopCallStack => popCallStack w
  | OUpdateFrameVariable n v t => updateFrameVariable n v t w
  | OAllocateHeap now t v r => allocateHeap now t v r w
  | OAddHeapReference f t => addHeapReference f t w
  | ODeallocateHeap id => deallocateHeap id w
  | OCreateScope now n t p => createScope now n t p w
  | OAddScopeVariable s n v t d => addScopeVariable s n v t d w
  | OUpdateScopeVariable s n v => updateScopeVariable s n v w
  | ODestroyScope s => destroyScope s w
  | OAddToWebAPI id now t => addToWebAPI id now t w
  | OMoveToCallbackQueue id => moveToCallbackQueue id w
  | OAddToMicrotaskQueue id t => addToMicrotaskQueue id t w
  | OProcessNextMicrotask => processNextMicrotask w
  | OProcessNextCallback => processNextCallback w
  | OSetCurrentLine l => (w.1, o_set_currentLine l w.2)
  | OIncrementStep => (w.1, o_set_currentStep (S (o_currentStep w.2)) w.2)
  | OSetExecutionState r p => (w.1, o_set_execution r p w.2)
  | OSetSpeed v => (w.1, o_set_speed v w.2)
  | OLogConsole _ _ _ => w
  | OAddTimer id => addTimer id w
  | OReset => reset w
  end.

Definition run (ops : list Op) (w : World) : World :=
  foldl (λ acc op, apply op acc) w ops.

(** *** What the holder of a copy can do to it: store into a record
    reached through the copy, or replace the content of a container the
    copy points to. *)
Inductive Mutation : Type :=
| MRecord (ℓ : loc) (r : Rec)
| MBox (ℓ : loc) (b : Box).

Definition mutate (μ : Mutation) (m : Memory) : Memory :=
  match μ with
  | MRecord ℓ r => writeRecord ℓ r m
  | MBox ℓ b => writeBox ℓ b m
  end.

(** *** Two properties of a world used in the theorems *)

(** Every container of the store was allocated. *)
Definition bounded (w : World) : Prop := Forall (λ r, r < next w.1) (roots w.2).

(** The addresses from [lo] up to [hi] are allocated and none of them is
    a container of the store. *)
Definition apart (lo hi : loc) (w : World) : Prop :=
  hi ≤ next w.1 ∧ Forall (λ r, r < lo ∨ hi ≤ r) (roots w.2).

(** *** The object graph against the value model *)

(** The records at the addresses [l] are, in order, the values [xs]. *)
Definition holds {A} (proj : Rec → option A) (recs : gmap loc Rec)
    (l : list loc) (xs : list A) : Prop :=
  Forall2 (λ ℓ x, recs !! ℓ ≫= proj = Some x) l xs.

(** The heap objects at the addresses in [e] are, key by key, those of [h]. *)
Definition holdsMap (recs : gmap loc Rec) (e : gmap string loc)
    (h : gmap string HeapObject) : Prop :=
  ∀ k, option_Forall2 (λ ℓ o, recs !! ℓ ≫= asHeapObject = Some o) (e !! k) (h !! k).

(** The state [st] of the value model describes the world [w], and the
    world is well formed: the store's containers are distinct and
    allocated, records are allocated, no frame and no scope stands twice in
    its collection, no heap object under two identities. *)
Record sim (w : World) (st : State) : Prop := mkSim {
  sim_code : o_code w.2 = code st;
  sim_heapIdCounter : o_heapIdCounter w.2 = heapIdCounter st;
  sim_scopeIdCounter : o_scopeIdCounter w.2 = scopeIdCounter st;
  sim_currentLine : o_currentLine w.2 = currentLine st;
  sim_currentStep : o_currentStep w.2 = currentStep st;
  sim_isRunning : o_isRunning w.2 = isRunning st;
  sim_isPaused : o_isPaused w.2 = isPaused st;
  sim_speed : o_speed w.2 = speed st;
  sim_parsedCode : readCode w.1 (o_parsedCode w.2) = parsedCode st;
  sim_executionQueue : readCode w.1 (o_executionQueue w.2) = executionQueue st;
  sim_timers : readHandles w.1 (o_timers w.2) = timers st;
  sim_callStack : holds asFrame (records w.1) (readArray w.1 (o_callStack w.2)) (callStack st);
  sim_scopes : holds asScope (records w.1) (readArray w.1 (o_scopes w.2)) (scopes st);
  sim_webAPIs :
    holds asTask (records w.1) (readArray w.1 (o_webAPIs w.2)) (webAPIs (eventLoop st));
  sim_callbackQueue :
    holds asTask (records w.1) (readArray w.1 (o_callbackQueue w.2)) (callbackQueue (eventLoop st));
  sim_microtaskQueue :
    holds asTask (records w.1) (readArray w.1 (o_microtaskQueue w.2))
      (microtaskQueue (eventLoop st));
  sim_heap : holdsMap (records w.1) (readMap w.1 (o_heap w.2)) (heap st);
  sim_roots : NoDup (roots w.2);
  sim_bounded : bounded w;
  sim_records : ∀ ℓ, is_Some (records w.1 !! ℓ) → ℓ < next w.1;
  sim_callStack_once : NoDup (readArray w.1 (o_callStack w.2));
  sim_scopes_once : NoDup (readArray w.1 (o_scopes w.2));
  sim_heap_once :
    ∀ k k' ℓ, readMap w.1 (o_heap w.2) !! k = Some ℓ →
              readMap w.1 (o_heap w.2) !! k' = Some ℓ → k = k' }.

(** An operation of the value model on a bare state. *)
Definition applyState (op : Op) (st : State) : State :=
  state (StateManager.apply op (mkStore st [] [])).

End Aliasing.

(* ===================================================================== *)
(** ** Scenarios: concrete programs, hosts and stores *)
(* ===================================================================== *)

Module Scenario.
Import Executor.

(** A host whose k-th clock reading is k and whose timers are all due by
    the first pacing wait: the task with identity 3 is the one registered
    by the first statement of [timerAndPromises]. *)
Definition hostClock (k : nat) : Z := Z.of_nat k.
Definition hostFired (k : nat) : list Z := [3%Z].

(** The translator on the callback texts used below:
    [console.log("A")] gives one console instruction on line 1, and so on;
    any other text used here has no recognized statement. *)
Definition logA : string := "console.log(" +:+ dquote +:+ "A" +:+ dquote +:+ ")".
Definition logB : string := "console.log(" +:+ dquote +:+ "B" +:+ dquote +:+ ")".
Definition logT : string := "console.log(" +:+ dquote +:+ "T" +:+ dquote +:+ ")".

Definition translated (text : string) : list Instruction :=
  if bool_decide (text = logA) then [Console "log" [EString "A"] 1]
  else if bool_decide (text = logB) then [Console "log" [EString "B"] 1]
  else if bool_decide (text = logT) then [Console "log" [EString "T"] 1]
  else [].

(** The translation of the three-line snippet
    [setTimeout(function() {console.log("T")}, 0);]
    [Promise.resolve().then(function() {console.log("A")});]
    [Promise.resolve().then(function() {console.log("B")});]
    which has nothing to hoist. *)
Definition timerAndPromises : list Instruction :=
  [ SetTimeout logT 0 1; PromiseThen logA 2; PromiseThen logB 3 ].

Definition stateOf {A} (o : Outcome A) : Exec :=
  match o with Done _ x => x | _ => initialExec end.

(** The interpreter after [init] and the start of [run]. *)
Definition started : Exec :=
  stateOf ((init hostClock timerAndPromises ;; exec (setExecutionState true false))
             initialExec).

(** One statement and the pacing wait that follows it. *)
Definition stepAndWait : M unit :=
  step translated hostClock hostFired 1 ;; delay hostFired.

(** ... and after each of the three statements with its pacing wait. *)
Definition afterTimer : Exec := stateOf (stepAndWait started).
Definition afterFirstPromise : Exec := stateOf (stepAndWait afterTimer).
Definition exhausted : Exec := stateOf (stepAndWait afterFirstPromise).

(** ... and after the first and the second turn of the microtask loop. *)
Definition afterFirstTurn : Exec :=
  stateOf (microtaskTurn translated hostClock hostFired 3 exhausted).
Definition drained : Exec :=
  stateOf (microtaskTurn translated hostClock hostFired 3 afterFirstTurn).

(** A store with a global scope binding [a] and [b], a function scope
    binding [b] again, and an innermost scope binding neither. *)
Definition nestedScopes : Store :=
  StateManager.run
    [ OCreateScope 0 "Global" "global" None;
      OAddScopeVariable (Some "scope_1") "a" (VNumber 1) "number" "var";
      OAddScopeVariable (Some "scope_1") "b" (VNumber 2) "number" "var";
      OCreateScope 1 "outer" "function" (Some "scope_1");
      OAddScopeVariable (Some "scope_2") "b" (VNumber 20) "number" "let";
      OCreateScope 2 "inner" "function" (Some "scope_2");
      OPushCallStack 3 (mkFrameInit "inner" "function" None "window" 0) ]
    initialStore.

Definition nestedScope (i : nat) : Scope :=
  default (mkScope "" "" "" None ∅ 0) (scopes (state nestedScopes) !! i).

Definition nestedExec : Exec := mkExec nestedScopes [] 0 None [] [] 0 0 [].

(** The interpreter initialised on a program that calls [foo], which it
    does not declare, and then logs. *)
Definition callsUnknown : Exec :=
  stateOf (init hostClock
             [ FunctionCall "foo" [] 1; Console "log" [EString "after"] 2 ]
             initialExec).

(** The store as an object graph after one push, the copy [getState]
    hands out then, and the memory once the copy is made. *)
Definition onePushed : Aliasing.World :=
  Aliasing.run [OPushCallStack 1 (mkFrameInit "main" "function" None "window" 1)]
    Aliasing.initialWorld.
Definition snapshot : Aliasing.StateObj := (Aliasing.getState onePushed).1.
Definition afterSnapshot : Aliasing.Memory := (Aliasing.getState onePushed).2.

(** A session that goes through every operation of the store. *)
Definition everyOperation : list Op :=
  [ OSetCode "var a = 1"; OSetParsedCode [HoistedVar "a" 1 1];
    OCreateScope 0 "Global" "global" None;
    OPushCallStack 1 (mkFrameInit "Global Execution Context" "global" None "window" 0);
    OAddScopeVariable (Some "scope_1") "a" (VNumber 1) "number" "var";
    OUpdateFrameVariable "a" (VString "1") "number";
    OAllocateHeap 2 "object" (VObject []) None;
    OAllocateHeap 3 "array" (VArray []) None;
    OAllocateHeap 4 "object" (VObject []) (Some "mine");
    OAddHeapReference "ref_1" "ref_2"; OAddHeapReference "ref_1" "ref_2";
    ODeallocateHeap "ref_2";
    OCreateScope 5 "f" "function" (Some "scope_1");
    OPushCallStack 6 (mkFrameInit "f" "" None "" 3);
    OAddScopeVariable (Some "scope_2") "a" VUndefined "undefined" "param";
    OUpdateScopeVariable (Some "scope_2") "a" (VNumber 2);
    OUpdateScopeVariable (Some "scope_1") "zz" (VNumber 2);
    OUpdateFrameVariable "a" (VString "2") "number";
    OAddToWebAPI 7 8 (mkTaskInit "setTimeout" "f()" 10 "timer");
    OAddToWebAPI 9 10 (mkTaskInit "setTimeout" "g()" 0 "");
    OAddToMicrotaskQueue 11 (mkTaskInit "Promise.then" "h()" 0 "");
    OMoveToCallbackQueue 9; OMoveToCallbackQueue 12;
    OProcessNextMicrotask; OProcessNextMicrotask;
    OPopCallStack; ODestroyScope (Some "scope_2");
    OMoveToCallbackQueue 7; OProcessNextCallback;
    OSetCurrentLine 3; OIncrementStep; OSetExecutionState true false;
    OSetSpeed 500; OLogConsole 13 "log" ["x"]; OAddTimer 1; OAddTimer 2;
    OPushCallStack 14 (mkFrameInit "g" "function" None "window" 4) ].

End Scenario.
(* ===================================================================== *)
(** ** Sessions: what a sequence of store operations asks for *)
(* ===================================================================== *)

Module Sessions.
Import StateManager.

(** The console entries a session asks for, oldest first. *)
Definition loggedBy (ops : list Op) : list (string * list string) :=
  omap (λ op, match op with OLogConsole _ type args => Some (type, args) | _ => None end)
    ops.

(** The timer handles a session registers, oldest first. *)
Definition registeredBy (ops : list Op) : list Z :=
  omap (λ op, match op with OAddTimer timerId => Some timerId | _ => None end) ops.

(** The record [addToMicrotaskQueue] builds for a task, and the operation
    that adds it. *)
Definition microTask (item : Z * TaskInit) : Task :=
  mkTask item.1 (ti_name item.2) (ti_callback item.2) None None "microtask".

Definition enqueue (item : Z * TaskInit) : Op := OAddToMicrotaskQueue item.1 item.2.

End Sessions.

(* ===================================================================== *)
(** ** Translator: the other functions of the parser module *)
(* ===================================================================== *)

(** Text is ASCII here: a character is one of the 128 ASCII codes, and
    the white space [trim] strips is tab, line feed, vertical tab, form
    feed, carriage return and the space. [parseValue] is built from
    regular expressions and is not embedded; it enters [parseArguments] as
    a parameter, called once per argument text. *)
Module Translator.
Import Parser.

(** [instructions.filter(i => i.type === 'functionDeclaration').map(i => i.name)] *)
Definition getFunctionNames (instructions : list Instruction) : list string :=
  inst_name <$> filter (λ i, isFunctionDeclaration i = true) instructions.

(** [instructions.find(i => i.type === 'functionDeclaration' && i.name === name)] *)
Definition findFunction (instructions : list Instruction) (name : string)
    : option Instruction :=
  List.find (Executor.declares name) instructions.

(** The code of a character. *)
Definition charCode (c : Ascii.ascii) : nat := Ascii.nat_of_ascii c.

Definition isSpace (c : Ascii.ascii) : bool :=
  bool_decide (charCode c ∈ [9; 10; 11; 12; 13; 32]).

Fixpoint trimStart (cs : list Ascii.ascii) : list Ascii.ascii :=
  match cs with
  | c :: rest => if isSpace c then trimStart rest else cs
  | [] => []
  end.

Definition trimChars (cs : list Ascii.ascii) : list Ascii.ascii :=
  reverse (trimStart (reverse (trimStart cs))).

Definition trim (s : string) : string :=
  String.string_of_list_ascii (trimChars (String.list_ascii_of_string s)).

(** The characters ( [ { and ) ] } and the comma. *)
Definition isOpening (c : Ascii.ascii) : bool := bool_decide (charCode c ∈ [40; 91; 123]).
Definition isClosing (c : Ascii.ascii) : bool := bool_decide (charCode c ∈ [41; 93; 125]).
Definition isComma (c : Ascii.ascii) : bool := bool_decide (charCode c = 44).

Section ParseArguments.

Variable parseValue : string → ValueExpr.

(** The variables of the loop of [parseArguments]. *)
Record Scan := mkScan {
  args : list ValueExpr;
  depth : Z;
  current : list Ascii.ascii }.

(** One turn of [for (let char of argsStr)]. *)
Definition scanChar (st : Scan) (char : Ascii.ascii) : Scan :=
  let depth1 := if isOpening char then (depth st + 1)%Z else depth st in
  let depth2 := if isClosing char then (depth1 - 1)%Z else depth1 in
  if isComma char && bool_decide (depth2 = 0%Z)
  then mkScan (args st ++ [parseValue (String.string_of_list_ascii (trimChars (current st)))])
         depth2 []
  else mkScan (args st) depth2 (current st ++ [char]).

Definition parseArguments (argsStr : string) : list ValueExpr :=
  if bool_decide (trim argsStr = "") then []
  else
    let st := foldl scanChar (mkScan [] 0 []) (String.list_ascii_of_string argsStr) in
    if bool_decide (trimChars (current st) = []) then args st
    else args st ++ [parseValue (String.string_of_list_ascii (trimChars (current st)))].

(** The argument a piece of the text yields. *)
Definition parsed (p : string) : ValueExpr := parseValue (trim p).

End ParseArguments.

(** A piece of an argument text in which every comma stands inside
    brackets and every bracket opened is closed: scanned from depth 0 it
    never meets a comma at depth 0 and ends at depth 0. *)
Fixpoint scanDepth (d : Z) (cs : list Ascii.ascii) : option Z :=
  match cs with
  | [] => Some d
  | c :: rest =>
      let d1 := if isOpening c then (d + 1)%Z else d in
      let d2 := if isClosing c then (d1 - 1)%Z else d1 in
      if isComma c && bool_decide (d2 = 0%Z) then None else scanDepth d2 rest
  end.

Definition closedPiece (p : string) : Prop :=
  scanDepth 0 (String.list_ascii_of_string p) = Some 0%Z.

Definition blank (s : string) : Prop := trim s = "".

End Translator.

(* ===================================================================== *)
(** ** Subscriptions: who is told of a change *)
(* ===================================================================== *)

(** The subscriber table of the store. A callback is known by its
    identity, as [indexOf] compares it; what a callback does when called
    is outside the model, and it is taken not to subscribe or unsubscribe
    while a notification is being delivered. *)
Module Subscriptions.

Abbreviation Callback := nat (only parsing).

Abbreviation Subscribers := (gmap string (list Callback)) (only parsing).

Definition topics : list string :=
  ["callStack"; "heap"; "scopes"; "eventLoop"; "currentLine"; "execution"; "console";
   "all"].

Definition initialSubscribers : Subscribers :=
  list_to_map ((λ t, (t, [])) <$> topics).

(** The function [subscribe] hands back: it removes [callback] from
    [event], or does nothing. *)
Inductive Unsubscribe : Type :=
| Remove (event : string) (callback : Callback)
| Idle.

Definition subscribe (event : string) (callback : Callback) (subs : Subscribers)
    : Unsubscribe * Subscribers :=
  match subs !! event with
  | Some callbacks => (Remove event callback, <[event := callbacks ++ [callback]]> subs)
  | None => (Idle, subs)
  end.

(** Calling the function handed back: [indexOf], then [splice(index, 1)].
    The list of the topic exists whenever such a function was handed
    out. *)
Definition unsubscribe (u : Unsubscribe) (subs : Subscribers) : Subscribers :=
  match u with
  | Remove event callback =>
      match subs !! event with
      | Some callbacks =>
          match list_find (λ cb, cb = callback) callbacks with
          | Some (index, _) => <[event := delete index callbacks]> subs
          | None => subs
          end
      | None => subs
      end
  | Idle => subs
  end.

(** The first argument of each [notify] call of the store. *)
Definition topic (n : StateManager.Notification) : string :=
  match n with
  | StateManager.NCode _ => "code"
  | StateManager.NCallStack _ _ _ => "callStack"
  | StateManager.NHeap _ _ _ _ _ => "heap"
  | StateManager.NScopes _ _ _ _ => "scopes"
  | StateManager.NEventLoop _ _ _ => "eventLoop"
  | StateManager.NCurrentLine _ => "currentLine"
  | StateManager.NExecution _ _ => "execution"
  | StateManager.NConsole _ _ _ => "console"
  end.

(** A call of a subscriber: [cb(data, state)] for a subscriber of the
    topic, [cb(event, data, state)] for a subscriber of [all]. *)
Inductive Call : Type :=
| CallTopic (callback : Callback) (data : StateManager.Notification)
| CallAll (callback : Callback) (event : string) (data : StateManager.Notification).

(** [notify(event, data)]: the calls it makes, in order. *)
Definition notify (n : StateManager.Notification) (subs : Subscribers) : list Call :=
  match subs !! topic n with
  | Some callbacks => (λ cb, CallTopic cb n) <$> callbacks
  | None => []
  end
  ++ ((λ cb, CallAll cb (topic n) n) <$> default [] (subs !! "all")).

(** What subscribing and unsubscribing can make of the table. *)
Inductive Request : Type :=
| Subscribe (event : string) (callback : Callback)
| Revoke (u : Unsubscribe).

Definition serve (r : Request) (subs : Subscribers) : Subscribers :=
  match r with
  | Subscribe event callback => (subscribe event callback subs).2
  | Revoke u => unsubscribe u subs
  end.

Definition served (requests : list Request) : Subscribers :=
  foldl (λ subs r, serve r subs) initialSubscribers requests.

End Subscriptions.

(* ===================================================================== *)
(** ** Conduct: what an execution leaves as it found it *)
(* ===================================================================== *)

Module Conduct.
Import Executor.

(** A computation that, whenever it returns, leaves the interpreter
    related by [R] to the interpreter it started from. *)
Definition respects {A} (R : Exec → Exec → Prop) (m : M A) : Prop :=
  ∀ x a x', m x = Done a x' → R x x'.

(** The store operations made while one instruction is executed, outside
    the making and the leaving of an execution context. *)
Definition quiet (op : Op) : bool :=
  match op with
  | OAllocateHeap _ _ _ None | OAddScopeVariable _ _ _ _ _
  | OUpdateScopeVariable _ _ _ | OUpdateFrameVariable _ _ _ | OLogConsole _ _ _
  | OAddTimer _ | OMoveToCallbackQueue _ | OSetCurrentLine _ => true
  | _ => false
  end.

(** ... and all of them. *)
Definition nested (op : Op) : bool :=
  match op with
  | OCreateScope _ _ _ _ | OPushCallStack _ _ | OPopCallStack | ODestroyScope _
  | OAddToWebAPI _ _ _ | OAddToMicrotaskQueue _ _ => true
  | _ => quiet op
  end.

(** The variables of the interpreter other than the host's counters are
    the same. *)
Definition sameVariables (x x' : Exec) : Prop :=
  instructions x' = instructions x
  ∧ currentIndex x' = currentIndex x
  ∧ globalScope x' = globalScope x
  ∧ pendingTimers x' = pendingTimers x
  ∧ pendingMicrotasks x' = pendingMicrotasks x.

(** What the execution of an instruction never touches: the program and
    the cursor, the global scope the interpreter remembers, and in the
    store the source text, the step counter, the speed, the running flags
    and the timers already cancelled; and it only adds to the
    notifications sent, to the timers tracked and to the pending lists. *)
Definition undisturbed (x x' : Exec) : Prop :=
  instructions x' = instructions x
  ∧ currentIndex x' = currentIndex x
  ∧ globalScope x' = globalScope x
  ∧ code (state (store x')) = code (state (store x))
  ∧ parsedCode (state (store x')) = parsedCode (state (store x))
  ∧ currentStep (state (store x')) = currentStep (state (store x))
  ∧ speed (state (store x')) = speed (state (store x))
  ∧ isRunning (state (store x')) = isRunning (state (store x))
  ∧ isPaused (state (store x')) = isPaused (state (store x))
  ∧ cancelled (store x') = cancelled (store x)
  ∧ emitted (store x) `prefix_of` emitted (store x')
  ∧ timers (state (store x)) `prefix_of` timers (state (store x'))
  ∧ pendingTimers x `prefix_of` pendingTimers x'
  ∧ pendingMicrotasks x `prefix_of` pendingMicrotasks x'.

End Conduct.

(* ===================================================================== *)
(** ** Programs: more concrete programs *)
(* ===================================================================== *)

Module Programs.
Import Executor Scenario.

(** The translation of
    [function f(p) {console.log("A")}]
    [f(1)]
    and the interpreter once the declaration has been executed. *)
Definition declaresAndCalls : list Instruction :=
  [ HoistingPhase ["f"] [] 0;
    FunctionDeclaration "f" ["p"] 1 logA 1 true;
    FunctionCall "f" [ENumber 1] 2 ].

Definition beforeCall : Exec :=
  stateOf ((init hostClock declaresAndCalls ;;
            step translated hostClock hostFired 3 ;; delay hostFired ;;
            step translated hostClock hostFired 3 ;; delay hostFired) initialExec).

End Programs.

(* ===================================================================== *)
(** ** Straight: statements that start no call and register no task *)
(* ===================================================================== *)

Module Straight.
Import Executor Conduct.

(** The value of an expression in which no call occurs. *)
Fixpoint evalExpr (σ : Store) (e : ValueExpr) : Value :=
  match e with
  | ENumber n => VNumber n
  | EString s => VString s
  | EBoolean b => VBoolean b
  | ENull => VNull
  | EUndefined => VUndefined
  | EArray elems => VArray (map (evalExpr σ) elems)
  | EObject props => VObject (map (λ kv, (kv.1, evalExpr σ kv.2)) props)
  | EReference name => lookupVariable name σ
  | ECall _ _ => VUndefined
  | EFunction params body => VFunction false params body
  | EArrowFunction params body => VFunction true params body
  | EPropertyAccess text => VString text
  end.

(** How deep the resolver recurses into an expression. *)
Fixpoint exprDepth (e : ValueExpr) : nat :=
  match e with
  | EArray elems => 2 + max_list (map exprDepth elems)
  | EObject props => 1 + max_list (map (λ kv, exprDepth kv.2) props)
  | _ => 0
  end.

(** A statement that starts no call and registers no timer and no
    microtask. *)
Definition straight (i : Instruction) : bool :=
  match i with
  | HoistingPhase _ _ _ | FunctionDeclaration _ _ _ _ _ _ | HoistedVar _ _ _
  | NewObject _ _ _ _ _ => true
  | VariableDeclaration _ _ e _ | Assignment _ e _ | Return e _ => negb (containsCall e)
  | Console _ args _ | MethodCall _ _ args _ => forallb (λ e, negb (containsCall e)) args
  | FunctionCall _ _ _ | SetTimeout _ _ _ | PromiseThen _ _ => false
  end.

Definition instructionDepth (i : Instruction) : nat :=
  match i with
  | VariableDeclaration _ _ e _ | Assignment _ e _ | Return e _ => exprDepth e
  | Console _ args _ | MethodCall _ _ args _ => S (max_list (map exprDepth args))
  | _ => 0
  end.

(** Fuel that lets the model run a straight-line program to its end. *)
Definition programFuel (insts : list Instruction) : nat :=
  length insts + max_list (map instructionDepth insts) + 3.

(** The interpreter's variables other than the host's counters and the
    three task collections of the store are the same. *)
Definition calm (x x' : Exec) : Prop :=
  sameVariables x x'
  ∧ eventLoop (state (store x')) = eventLoop (state (store x)).

(** A computation that always returns, calmly. *)
Definition settles {A} (m : M A) : Prop :=
  ∀ x, ∃ a x', m x = Done a x' ∧ calm x x'.

(** No task anywhere: the three collections of the store and the two
    pending lists of the interpreter are empty. *)
Definition resting (x : Exec) : Prop :=
  eventLoop (state (store x)) = mkEventLoop [] [] []
  ∧ pendingTimers x = [] ∧ pendingMicrotasks x = [].

(** A program of two statements, a declaration with an array and a print
    of the variable. *)
Definition declareAndPrint : list Instruction :=
  [ VariableDeclaration "var" "colors" (EArray [ENumber 1; ENumber 2]) 1;
    Console "log" [EReference "colors"] 2 ].

End Straight.

(* ===================================================================== *)
(** ** Balance: execution contexts are left as they are entered *)
(* ===================================================================== *)

Module Balance.
Import Executor.

(** A frame without its variables. *)
Definition outline (f : Frame) : Frame :=
  mkFrame (frame_id f) (frame_name f) (frame_type f) ∅
    (frame_thisBinding f) (frame_line f) (frame_isActive f).

(** The frames under the top of the stack. *)
Definition belowTop (stack : list Frame) : list Frame :=
  take (length stack - 1) stack.

(** What every session of the store keeps: only the top frame is active,
    and the scopes have distinct identities handed out by the counter. *)
Definition sound (σ : Store) : Prop :=
  topOnlyActive (callStack (state σ)) ∧ scopesNumbered σ.

(** The same execution contexts: the frames under the top are the same,
    the top frame is the same but for its variables, and the live scopes
    are the same ones, in the same order. *)
Definition sameContexts (σ σ' : Store) : Prop :=
  belowTop (callStack (state σ')) = belowTop (callStack (state σ))
  ∧ outline <$> callStack (state σ') = outline <$> callStack (state σ)
  ∧ scope_id <$> scopes (state σ') = scope_id <$> scopes (state σ).

(** The call stack is the same, and so are the live scopes. *)
Definition restored (σ σ' : Store) : Prop :=
  callStack (state σ') = callStack (state σ)
  ∧ scope_id <$> scopes (state σ') = scope_id <$> scopes (state σ).

Definition keepsContexts (x x' : Exec) : Prop :=
  sound (store x) → sound (store x') ∧ sameContexts (store x) (store x').

Definition restoresContexts (x x' : Exec) : Prop :=
  sound (store x) → sound (store x') ∧ restored (store x) (store x').

(** The translation of
    [function f(p) {console.log("A")}]
    [setTimeout(function() {console.log("T")}, 0);]
    [f(1)]
    a host on which every timer is due at the next pacing wait, the two
    store operations of [init], and the interpreter after [init]. *)
Definition callsAndTimer : list Instruction :=
  [ HoistingPhase ["f"] [] 0;
    FunctionDeclaration "f" ["p"] 1 Scenario.logA 1 true;
    SetTimeout Scenario.logT 0 2;
    FunctionCall "f" [ENumber 1] 3 ].

Definition firesAll (k : nat) : list Z := Z.of_nat <$> seq 0 40.

Definition initOps : list Op :=
  [ OCreateScope 0 "Global" "global" None;
    OPushCallStack 1
      (mkFrameInit "Global Execution Context" "global" (Some ∅) "window" 0) ].

Definition afterInit : Exec :=
  Scenario.stateOf (init Scenario.hostClock callsAndTimer initialExec).

End Balance.

(* ===================================================================== *)
(** ** Passes: how many tasks a run takes off the callback queue *)
(* ===================================================================== *)

Module Passes.
Import Executor.

(** The notification sent by [processNextCallback] when it takes a task. *)
Definition isTaken (n : Notification) : bool :=
  match n with
  | NEventLoop action _ _ => bool_decide (action = "processCallback")
  | _ => false
  end.

(** The number of tasks taken off the callback queue so far. *)
Definition callbacksTaken (σ : Store) : nat :=
  length (filter (λ n, isTaken n = true) (emitted σ)).

(** At most [k] more tasks have been taken. *)
Definition takes (k : nat) (x x' : Exec) : Prop :=
  callbacksTaken (store x') ≤ callbacksTaken (store x) + k.

(** The translation of
    [setTimeout(function() {console.log("T")}, 0);]
    [setTimeout(function() {console.log("A")}, 0);] *)
Definition twoTimers : list Instruction :=
  [ SetTimeout Scenario.logT 0 1; SetTimeout Scenario.logA 0 2 ].

End Passes.


(* ===================================================================== *)
(** ** Theorems: the hoisting pass *)
(* ===================================================================== *)

Module ParserFacts.
Import Parser.

Lemma functionDeclarations_names insts :
  inst_name <$> functionDeclarations insts = declaredFunctions insts.
Proof.
  unfold declaredFunctions.
  induction insts as [|i insts IH]; [done|].
  destruct i;
    first [ rewrite filter_cons_False by (simpl; done); exact IH
          | simpl; f_equal; exact IH ].
Qed.

Lemma varDeclarations_names insts :
  inst_name <$> varDeclarations insts = declaredVars insts.
Proof.
  unfold declaredVars.
  induction insts as [|i insts IH]; [done|].
  destruct i;
    try (rewrite filter_cons_False by (simpl; done); exact IH).
  simpl. case_bool_decide as Hd.
  - rewrite filter_cons_True by (simpl; by apply bool_decide_eq_true).
    simpl. f_equal. exact IH.
  - rewrite filter_cons_False by (simpl; by rewrite bool_decide_eq_true).
    exact IH.
Qed.

Lemma functionDeclarations_hoisted insts :
  Forall (λ i, isHoisted i = true ∧ isMarker i = false) (functionDeclarations insts).
Proof.
  induction insts as [|i insts IH]; [constructor|].
  destruct i; simpl; try exact IH. by constructor.
Qed.

Lemma varDeclarations_hoisted insts :
  Forall (λ i, isHoisted i = true ∧ isMarker i = false) (varDeclarations insts).
Proof.
  induction insts as [|i insts IH]; [constructor|].
  destruct i; simpl; try exact IH.
  case_bool_decide; [by constructor | exact IH].
Qed.

Lemma rest_not_hoisted insts :
  forallb recognized insts = true →
  Forall (λ i, isHoisted i = false ∧ isMarker i = false) (rest insts).
Proof.
  induction insts as [|i insts IH]; [constructor|].
  simpl. intros [Hi Hr]%andb_prop. specialize (IH Hr).
  destruct i; simpl in *; try done; by constructor.
Qed.

Lemma rest_without_functions insts :
  functionDeclarations insts = [] → rest insts = insts.
Proof.
  induction insts as [|i insts IH]; [done|].
  destruct i; simpl; try done; intros H; by rewrite IH.
Qed.

(** In [pre ++ post], an element satisfying [P] stands before any element
    satisfying [Q] when [post] has none of the first and [pre] none of the
    second. *)
Lemma split_order {A} (P Q : A → bool) (pre post : list A) i j a b :
  Forall (λ x, Q x = false) pre →
  Forall (λ x, P x = false) post →
  (pre ++ post) !! i = Some a → (pre ++ post) !! j = Some b →
  P a = true → Q b = true → i < j.
Proof.
  intros Hpre Hpost Ha Hb Pa Qb.
  apply lookup_app_Some in Ha as [Ha | [Hi Ha]].
  - apply lookup_app_Some in Hb as [Hb | [Hj Hb]].
    + rewrite Forall_lookup in Hpre. specialize (Hpre _ _ Hb). congruence.
    + apply lookup_lt_Some in Ha. lia.
  - rewrite Forall_lookup in Hpost. specialize (Hpost _ _ Ha). congruence.
Qed.

(** C2, as the claim states it, fails: a snippet with no function and no
    [var] declaration, such as the single statement [console.log(1)], is
    translated to a sequence that carries no hoisting marker at all. *)
Lemma processHoisting_marker_counterexample :
  forallb recognized [Console "log" [ENumber 1] 1] = true ∧
  ¬ ∃ fs vs l tail,
      processHoisting [Console "log" [ENumber 1] 1] = HoistingPhase fs vs l :: tail.
Proof.
  split; [reflexivity|].
  intros (fs & vs & l & tail & H). vm_compute in H. discriminate H.
Qed.

(** C2 (amended). For every sequence of recognized statements: when it
    holds at least one function declaration or [var] declaration, the
    output starts with exactly one hoisting marker whose function list and
    var list are the names of those declarations, in source order; when it
    holds none, the output is the input and carries no marker. In both
    cases every hoisted function declaration and every hoisted-var
    placeholder stands before every non-hoisted instruction. *)
Theorem processHoisting_marker_and_order (insts : list Instruction) :
  forallb recognized insts = true →
  (if nonEmpty_names (declaredFunctions insts) (declaredVars insts)
   then ∃ tail,
          processHoisting insts
          = HoistingPhase (declaredFunctions insts) (declaredVars insts) 0 :: tail
          ∧ Forall (λ i, isMarker i = false) tail
   else processHoisting insts = insts
        ∧ Forall (λ i, isMarker i = false) (processHoisting insts))
  ∧ ∀ i j a b,
      processHoisting insts !! i = Some a →
      processHoisting insts !! j = Some b →
      isHoisted a = true → isNonHoisted b = true → i < j.
Proof.
  intros Hrec.
  pose proof (functionDeclarations_hoisted insts) as Hf.
  pose proof (varDeclarations_hoisted insts) as Hv.
  pose proof (rest_not_hoisted insts Hrec) as Hr.
  assert (Htail : Forall (λ i, isMarker i = false)
            (functionDeclarations insts ++ varDeclarations insts ++ rest insts)).
  { rewrite !Forall_app. repeat split; (eapply Forall_impl; [eassumption|]; by intros ? [_ ?]). }
  split.
  - unfold nonEmpty_names, processHoisting.
    rewrite <- functionDeclarations_names, <- varDeclarations_names.
    destruct (functionDeclarations insts) as [|f fds] eqn:Ef;
      destruct (varDeclarations insts) as [|v vds] eqn:Ev; simpl.
    + split; [by apply rest_without_functions | exact Htail].
    + eexists; split; [reflexivity | exact Htail].
    + eexists; split; [reflexivity | exact Htail].
    + eexists; split; [reflexivity | exact Htail].
  - intros i j a b Ha Hb Pa Qb.
    unfold processHoisting in Ha, Hb.
    rewrite !(assoc_L (++)) in Ha, Hb.
    eapply (split_order isHoisted isNonHoisted); [| |exact Ha|exact Hb|done|done].
    + unfold isNonHoisted. rewrite !Forall_app. repeat split.
      * destruct (functionDeclarations insts), (varDeclarations insts);
          repeat constructor.
      * eapply Forall_impl; [exact Hf|]. intros x [-> _]. apply andb_false_r.
      * eapply Forall_impl; [exact Hv|]. intros x [-> _]. apply andb_false_r.
    + eapply Forall_impl; [exact Hr|]. by intros ? [? _].
Qed.

(** The amended statement at a snippet with one function, one [var] and
    one [let] declaration. *)
Lemma processHoisting_marker_and_order_witness :
  let insts :=
    [ Console "log" [EReference "x"] 1;
      VariableDeclaration "var" "x" (ENumber 5) 2;
      VariableDeclaration "let" "y" (ENumber 6) 3;
      FunctionDeclaration "greet" [] 4 "console.log(1)" 4 false ] in
  forallb recognized insts = true
  ∧ (∃ tail,
       processHoisting insts = HoistingPhase ["greet"] ["x"] 0 :: tail
       ∧ Forall (λ i, isMarker i = false) tail)
  ∧ ∀ i j a b,
      processHoisting insts !! i = Some a →
      processHoisting insts !! j = Some b →
      isHoisted a = true → isNonHoisted b = true → i < j.
Proof.
  intros insts.
  assert (Hrec : forallb recognized insts = true) by reflexivity.
  split; [exact Hrec|].
  exact (processHoisting_marker_and_order insts Hrec).
Defined.

End ParserFacts.

(* ===================================================================== *)
(** ** Theorems: the runtime state store *)
(* ===================================================================== *)

Module StoreFacts.
Import StateManager.

(** *** Which operation touches which collection *)

Ltac unfold_ops :=
  unfold apply, setCode, setParsedCode, pushCallStack, popCallStack,
    updateFrameVariable, allocateHeap, addHeapReference, deallocateHeap,
    createScope, addScopeVariable, updateScopeVariable, destroyScope,
    addToWebAPI, moveToCallbackQueue, addToMicrotaskQueue,
    processNextMicrotask, processNextCallback, setCurrentLine, incrementStep,
    setExecutionState, setSpeed, logConsole, addTimer, reset, notify, update.

Ltac crush_op := unfold_ops; repeat case_match; simplify_eq/=; try done.

Lemma apply_callStack op σ :
  touchesCallStack op = false → callStack (state (apply op σ)) = callStack (state σ).
Proof. destruct op; try done; intros _; crush_op. Qed.

Lemma apply_heap op σ :
  touchesHeap op = false →
  heap (state (apply op σ)) = heap (state σ)
  ∧ heapIdCounter (state (apply op σ)) = heapIdCounter (state σ).
Proof. destruct op; try done; intros _; crush_op. Qed.

Lemma apply_scopes op σ :
  touchesScopes op = false →
  scopes (state (apply op σ)) = scopes (state σ)
  ∧ scopeIdCounter (state (apply op σ)) = scopeIdCounter (state σ).
Proof. destruct op; try done; intros _; crush_op. Qed.

(** A property of the store that holds initially and that every operation
    keeps holds throughout every session. *)
Lemma run_invariant (P : Store → Prop) :
  P initialStore → (∀ op σ, P σ → P (apply op σ)) →
  ∀ ops, P (run ops initialStore).
Proof.
  intros H0 Hstep ops. unfold run.
  induction ops as [|op ops IH] using rev_ind; [done|].
  rewrite foldl_app. simpl. by apply Hstep.
Qed.

(** *** Call stack: only the top frame is active *)

Lemma length_setTopActive b stack : length (setTopActive b stack) = length stack.
Proof. destruct stack; [done|]. unfold setTopActive. by rewrite length_alter. Qed.

Lemma lookup_setTopActive b stack i :
  setTopActive b stack !! i
  = if bool_decide (S i = length stack) then setActive b <$> stack !! i else stack !! i.
Proof.
  destruct stack as [|f0 stack]; [by case_bool_decide|].
  unfold setTopActive. rewrite list_lookup_alter.
  case_bool_decide as Hi; case_decide as Hd; simpl in *; try lia; [by rewrite Hd | done].
Qed.

Lemma push_topOnlyActive stack newFrame :
  frame_isActive newFrame = true →
  topOnlyActive stack → topOnlyActive (setTopActive false stack ++ [newFrame]).
Proof.
  intros Hnew Hinv i f Hlk.
  rewrite length_app, length_setTopActive. simpl.
  apply lookup_app_Some in Hlk as [Hlk | [Hi Hlk]].
  - pose proof (lookup_lt_Some _ _ _ Hlk) as Hlt. rewrite length_setTopActive in Hlt.
    rewrite bool_decide_eq_false_2 by lia.
    rewrite lookup_setTopActive in Hlk. case_bool_decide as Htop.
    + destruct (stack !! i); simplify_eq/=. done.
    + rewrite (Hinv _ _ Hlk). by apply bool_decide_eq_false_2.
  - rewrite length_setTopActive in Hi, Hlk.
    destruct (i - length stack) as [|k] eqn:Hk; simplify_eq/=.
    rewrite Hnew. symmetry. apply bool_decide_eq_true_2. lia.
Qed.

Lemma pop_topOnlyActive stack :
  topOnlyActive stack →
  topOnlyActive (setTopActive true (take (length stack - 1) stack)).
Proof.
  intros Hinv i f Hlk.
  rewrite length_setTopActive. rewrite lookup_setTopActive in Hlk.
  rewrite length_take in *.
  case_bool_decide as Htop.
  - destruct (take _ stack !! i); simplify_eq/=. done.
  - apply lookup_take_Some in Hlk as [Hlk Hi].
    rewrite (Hinv _ _ Hlk). apply bool_decide_eq_false_2. lia.
Qed.

Lemma update_topOnlyActive stack name v top :
  last stack = Some top →
  topOnlyActive stack →
  topOnlyActive (alter (λ _, setFrameVariable name v top) (length stack - 1) stack).
Proof.
  intros Hlast Hinv i f Hlk. rewrite length_alter.
  rewrite list_lookup_alter in Hlk. case_decide as Hd.
  - subst i. rewrite last_lookup in Hlast.
    replace (pred (length stack)) with (length stack - 1) in Hlast by lia.
    rewrite Hlast in Hlk. simplify_eq/=. by apply Hinv.
  - by apply Hinv.
Qed.

Lemma apply_topOnlyActive op σ :
  topOnlyActive (callStack (state σ)) →
  topOnlyActive (callStack (state (apply op σ))).
Proof.
  intros Hinv.
  destruct (touchesCallStack op) eqn:Ht;
    [| by rewrite apply_callStack].
  destruct op; try discriminate Ht; simpl.
  - by apply push_topOnlyActive.
  - by apply pop_topOnlyActive.
  - unfold updateFrameVariable.
    destruct (last (callStack (state σ))) as [top|] eqn:Hlast; [|done].
    simpl. by apply update_topOnlyActive.
  - intros i f Hlk. done.
Qed.

(** Throughout every session only the top frame is active. *)
Lemma session_top_frame_active ops :
  topOnlyActive (callStack (state (run ops initialStore))).
Proof.
  apply (run_invariant (λ σ, topOnlyActive (callStack (state σ)))).
  - intros i f Hlk. done.
  - apply apply_topOnlyActive.
Qed.


(** *** Heap identities *)

Global Instance refName_inj : Inj (=) (=) refName.
Proof.
  intros a b H. unfold refName in H. simpl in H. simplify_eq.
  by apply (inj pretty).
Qed.

Global Instance scopeName_inj : Inj (=) (=) scopeName.
Proof.
  intros a b H. unfold scopeName in H. simpl in H. simplify_eq.
  by apply (inj pretty).
Qed.

Lemma allocate_default now type value refId σ :
  storeNumbered (OAllocateHeap now type value refId) = true →
  (allocateHeap now type value refId σ).1 = refName (S (heapIdCounter (state σ)))
  ∧ heapIdCounter (state (allocateHeap now type value refId σ).2)
    = S (heapIdCounter (state σ)).
Proof.
  unfold allocateHeap. destruct refId as [r|]; simpl.
  - intros ->. done.
  - done.
Qed.

Lemma apply_heapIdCounter op σ :
  storeNumbered op = true →
  heapIdCounter (state (apply op σ))
  = match op with
    | OAllocateHeap _ _ _ _ => S (heapIdCounter (state σ))
    | _ => heapIdCounter (state σ)
    end.
Proof.
  intros Hs. destruct op; try done; try (by crush_op).
  simpl. by apply allocate_default.
Qed.

Lemma allocatedIds_numbered ops σ :
  forallb storeNumbered ops = true →
  allocatedIds ops σ
  = refName <$> seq (S (heapIdCounter (state σ))) (length (allocatedIds ops σ)).
Proof.
  revert σ. induction ops as [|op ops IH]; intros σ; [done|].
  simpl. intros [Hop Hops]%andb_prop.
  pose proof (apply_heapIdCounter op σ Hop) as Hc.
  specialize (IH (apply op σ) Hops). rewrite Hc in IH.
  destruct op; try exact IH.
  simpl. f_equal; [by apply allocate_default | exact IH].
Qed.

(** C5, as the claim states it, fails: an allocation may bring its own
    identity, and then the store hands out an identity again, here that of
    an object deallocated before. *)
Lemma heap_identity_reuse_counterexample :
  ¬ NoDup (allocatedIds
             [ OAllocateHeap 0 "object" (VObject []) None;
               ODeallocateHeap "ref_1";
               OAllocateHeap 1 "array" (VArray []) (Some "ref_1") ]
             initialStore).
Proof.
  intros H. vm_compute in H.
  apply NoDup_cons in H as [Hnin _]. apply Hnin. left.
Qed.

(** C5 (amended). In a session without reset in which no allocation
    brings its own identity (as at every call site of the interpreter), the
    N allocations yield the identities ref_(c+1), ..., ref_(c+N) in this
    order, c being the counter at the start: N distinct identities with
    increasing numbers, whatever deallocations and other operations happen
    in between, so no identity is handed out twice. *)
Theorem store_numbered_heap_ids_fresh (ops : list Op) (σ : Store) :
  forallb storeNumbered ops = true →
  allocatedIds ops σ
  = refName <$> seq (S (heapIdCounter (state σ))) (length (allocatedIds ops σ))
  ∧ NoDup (allocatedIds ops σ).
Proof.
  intros Hs. pose proof (allocatedIds_numbered ops σ Hs) as Heq.
  split; [exact Heq|]. rewrite Heq.
  apply (NoDup_fmap_2 refName), NoDup_seq.
Qed.

(** The amended statement on three allocations around a deallocation. *)
Lemma store_numbered_heap_ids_fresh_witness :
  let ops :=
    [ OAllocateHeap 0 "object" (VObject []) None;
      OAllocateHeap 1 "array" (VArray []) None;
      ODeallocateHeap "ref_1";
      OAllocateHeap 2 "object" (VObject []) None ] in
  forallb storeNumbered ops = true
  ∧ allocatedIds ops initialStore = ["ref_1"; "ref_2"; "ref_3"]
  ∧ NoDup (allocatedIds ops initialStore).
Proof.
  intros ops.
  assert (Hs : forallb storeNumbered ops = true) by reflexivity.
  split; [exact Hs|]. split; [vm_compute; reflexivity|].
  exact (proj2 (store_numbered_heap_ids_fresh ops initialStore Hs)).
Defined.

(** *** Reset *)

(** C9. [reset] keeps the source text and the pacing speed and returns
    every other field of the state to its initial value; the timers it
    was tracking are the ones it cancels. *)
Theorem reset_keeps_code_and_speed (σ : Store) :
  let s := state (reset σ) in
  code s = code (state σ)
  ∧ speed s = speed (state σ)
  ∧ parsedCode s = parsedCode initialState
  ∧ callStack s = callStack initialState
  ∧ heap s = heap initialState
  ∧ heapIdCounter s = heapIdCounter initialState
  ∧ scopes s = scopes initialState
  ∧ scopeIdCounter s = scopeIdCounter initialState
  ∧ eventLoop s = eventLoop initialState
  ∧ currentLine s = currentLine initialState
  ∧ currentStep s = currentStep initialState
  ∧ isRunning s = isRunning initialState
  ∧ isPaused s = isPaused initialState
  ∧ executionQueue s = executionQueue initialState
  ∧ timers s = timers initialState
  ∧ s = set_speed (speed (state σ)) (set_code (code (state σ)) initialState)
  ∧ cancelled (reset σ) = cancelled σ ++ timers (state σ).
Proof. repeat split. Qed.

(** *** Heap references *)

Lemma apply_refsNoDup op σ : refsNoDup σ → refsNoDup (apply op σ).
Proof.
  intros Hinv.
  destruct (touchesHeap op) eqn:Ht.
  2:{ intros id obj. rewrite (proj1 (apply_heap op σ Ht)). apply Hinv. }
  destruct op; try discriminate Ht; simpl.
  - intros id obj. unfold allocateHeap.
    repeat case_match; simplify_eq/=;
      (intros [[<- <-]|[_ Ho]]%lookup_insert_Some; [constructor | by eapply Hinv]).
  - unfold addHeapReference.
    destruct (heap (state σ) !! fromId) as [o|] eqn:Ho; [|done].
    case_bool_decide as Hin; [done|].
    intros id obj. simpl.
    intros [[<- <-]|[_ Ho']]%lookup_insert_Some; [|by eapply Hinv].
    simpl. apply NoDup_app. split; [by eapply Hinv|].
    split; [|apply NoDup_singleton].
    intros x Hx ->%list_elem_of_singleton. done.
  - unfold deallocateHeap.
    destruct (heap (state σ) !! id) as [o|] eqn:Ho; [|done].
    intros id' obj. simpl. intros [_ Ho']%lookup_delete_Some. by eapply Hinv.
  - intros id obj. simpl. by rewrite lookup_empty.
Qed.

Lemma addHeapReference_present σ fromId toId o :
  heap (state σ) !! fromId = Some o → toId ∈ ho_references o →
  addHeapReference fromId toId σ = σ.
Proof.
  intros Ho Hin. unfold addHeapReference.
  by rewrite Ho, bool_decide_eq_true_2.
Qed.

(** Throughout every session no reference list holds a target twice. *)
Lemma heap_references_distinct ops id obj :
  heap (state (run ops initialStore)) !! id = Some obj → NoDup (ho_references obj).
Proof.
  revert id obj. apply (run_invariant refsNoDup).
  - intros id obj. simpl. by rewrite lookup_empty.
  - apply apply_refsNoDup.
Qed.

(** C10. Adding the same reference a second time changes nothing, neither
    the state (so the reference list of the source object stays as it is)
    nor the notifications sent; and throughout every session no reference
    list of a heap object holds a target twice. *)
Theorem addHeapReference_idempotent_nodup :
  (∀ σ fromId toId,
     addHeapReference fromId toId (addHeapReference fromId toId σ)
     = addHeapReference fromId toId σ)
  ∧ (∀ ops id obj,
       heap (state (run ops initialStore)) !! id = Some obj →
       NoDup (ho_references obj)).
Proof.
  split.
  - intros σ fromId toId.
    destruct (heap (state σ) !! fromId) as [o|] eqn:Ho.
    + destruct (decide (toId ∈ ho_references o)) as [Hin|Hin].
      * by rewrite !(addHeapReference_present σ fromId toId o Ho Hin).
      * apply (addHeapReference_present _ _ _ (addReference toId o)).
        -- unfold addHeapReference. rewrite Ho, bool_decide_eq_false_2 by done.
           simpl. apply lookup_insert_eq.
        -- simpl. apply elem_of_app. right. by apply list_elem_of_singleton.
    + unfold addHeapReference. by rewrite !Ho.
  - apply heap_references_distinct.
Qed.

(** *** Scope identities *)

Lemma findScope_Some scopeId (ss : list Scope) (i : nat) (s : Scope) :
  findScope scopeId ss = Some (i, s) → ss !! i = Some s ∧ scopeId = Some (scope_id s).
Proof.
  unfold findScope. destruct scopeId as [k|]; [|done].
  intros [Hlk [Hid _]]%list_find_Some. by subst.
Qed.

Lemma insert_same_id (ss : list Scope) (i : nat) (s s' : Scope) :
  ss !! i = Some s → scope_id s' = scope_id s →
  scope_id <$> <[i := s']> ss = scope_id <$> ss.
Proof.
  intros Hlk Hid. rewrite list_fmap_insert, Hid.
  apply list_insert_id. by rewrite list_lookup_fmap, Hlk.
Qed.

Lemma apply_scopesNumbered op σ : scopesNumbered σ → scopesNumbered (apply op σ).
Proof.
  intros [Hnd Hall].
  destruct (touchesScopes op) eqn:Ht.
  2:{ unfold scopesNumbered.
      by rewrite (proj1 (apply_scopes op σ Ht)), (proj2 (apply_scopes op σ Ht)). }
  destruct op; try discriminate Ht; simpl; unfold scopesNumbered.
  - simpl. split.
    + rewrite fmap_app. apply NoDup_app. split; [done|]. split; [|apply NoDup_singleton].
      intros x Hx ->%list_elem_of_singleton.
      apply list_elem_of_fmap in Hx as (s & Hid & Hs).
      rewrite Forall_forall in Hall. destruct (Hall _ Hs) as (k & Hk & Hle).
      simpl in Hid. rewrite Hk in Hid. apply (inj scopeName) in Hid. lia.
    + rewrite Forall_app. split.
      * eapply Forall_impl; [exact Hall|]. intros s (k & Hk & Hle). exists k. split; [done|lia].
      * constructor; [|constructor]. eexists. split; [reflexivity|lia].
  - unfold addScopeVariable.
    destruct (findScope scopeId (scopes (state σ))) as [[i s]|] eqn:Hf; [|done].
    apply findScope_Some in Hf as [Hlk _]. simpl. split.
    + by erewrite insert_same_id.
    + apply Forall_insert; [done|]. rewrite Forall_lookup in Hall. by apply (Hall _ _ Hlk).
  - unfold updateScopeVariable.
    destruct (findScope scopeId (scopes (state σ))) as [[i s]|] eqn:Hf; [|done].
    destruct (scope_variables s !! name) as [v|]; [|done].
    apply findScope_Some in Hf as [Hlk _]. simpl. split.
    + by erewrite insert_same_id.
    + apply Forall_insert; [done|]. rewrite Forall_lookup in Hall. by apply (Hall _ _ Hlk).
  - unfold destroyScope.
    destruct (findScope scopeId (scopes (state σ))) as [[i s]|] eqn:Hf; [|done].
    simpl. split.
    + rewrite list_fmap_delete. eapply sublist_NoDup; [exact Hnd|apply sublist_delete].
    + by apply Forall_delete.
  - simpl. split; constructor.
Qed.

(** Throughout every session the scopes of the list have distinct
    identities. *)
Lemma scope_ids_distinct ops :
  NoDup (scope_id <$> scopes (state (run ops initialStore))).
Proof.
  apply (run_invariant scopesNumbered).
  - split; constructor.
  - apply apply_scopesNumbered.
Qed.

End StoreFacts.

(* ===================================================================== *)
(** ** Theorems: the step interpreter *)
(* ===================================================================== *)

Module ExecutorFacts.
Import Executor.

(** *** Scope chain *)

Lemma lookupLoop_prefix n (ss ss' : list Scope) name :
  n ≤ length ss → lookupLoop n (ss ++ ss') name = lookupLoop n ss name.
Proof.
  induction n as [|i IH]; [done|]. intros Hn. simpl.
  rewrite lookup_app_l by lia. rewrite IH by lia. done.
Qed.

Lemma lookupLoop_snoc (ss : list Scope) z name :
  lookupLoop (length (ss ++ [z])) (ss ++ [z]) name
  = match scope_variables z !! name with
    | Some v => sv_value v
    | None => lookupLoop (length ss) ss name
    end.
Proof.
  rewrite length_app, Nat.add_1_r. simpl.
  rewrite list_lookup_middle by done.
  destruct (scope_variables z !! name); [done|]. by apply lookupLoop_prefix.
Qed.

Lemma findScopeLoop_prefix n (ss ss' : list Scope) name :
  n ≤ length ss → findScopeLoop n (ss ++ ss') name = findScopeLoop n ss name.
Proof.
  induction n as [|i IH]; [done|]. intros Hn. simpl.
  rewrite lookup_app_l by lia. rewrite IH by lia. done.
Qed.

Lemma findScopeLoop_snoc (ss : list Scope) z name :
  findScopeLoop (length (ss ++ [z])) (ss ++ [z]) name
  = match scope_variables z !! name with
    | Some _ => Some (scope_id z)
    | None => findScopeLoop (length ss) ss name
    end.
Proof.
  rewrite length_app, Nat.add_1_r. simpl.
  rewrite list_lookup_middle by done.
  destruct (scope_variables z !! name); [done|]. by apply findScopeLoop_prefix.
Qed.

Lemma lookupLoop_innermost outer s inner name v :
  scope_variables s !! name = Some v → Forall (unbound name) inner →
  lookupLoop (length (outer ++ s :: inner)) (outer ++ s :: inner) name = sv_value v.
Proof.
  intros Hs. induction inner as [|z inner IH] using rev_ind; intros Hin.
  - rewrite lookupLoop_snoc. by rewrite Hs.
  - apply Forall_app in Hin as [Hin Hz]. rewrite Forall_singleton in Hz.
    unfold unbound in Hz.
    replace (outer ++ s :: inner ++ [z]) with ((outer ++ s :: inner) ++ [z])
      by (by rewrite <- app_assoc).
    rewrite lookupLoop_snoc, Hz. by apply IH.
Qed.

Lemma findScopeLoop_innermost outer s inner name v :
  scope_variables s !! name = Some v → Forall (unbound name) inner →
  findScopeLoop (length (outer ++ s :: inner)) (outer ++ s :: inner) name
  = Some (scope_id s).
Proof.
  intros Hs. induction inner as [|z inner IH] using rev_ind; intros Hin.
  - rewrite findScopeLoop_snoc. by rewrite Hs.
  - apply Forall_app in Hin as [Hin Hz]. rewrite Forall_singleton in Hz.
    unfold unbound in Hz.
    replace (outer ++ s :: inner ++ [z]) with ((outer ++ s :: inner) ++ [z])
      by (by rewrite <- app_assoc).
    rewrite findScopeLoop_snoc, Hz. by apply IH.
Qed.

Lemma findScopeLoop_unbound ss name :
  Forall (unbound name) ss → findScopeLoop (length ss) ss name = None.
Proof.
  induction ss as [|z ss IH] using rev_ind; [done|].
  intros [Hss Hz]%Forall_app. rewrite Forall_singleton in Hz.
  unfold unbound in Hz.
  rewrite findScopeLoop_snoc, Hz. by apply IH.
Qed.



(** *** Assignment *)

Lemma find_by_id (ss : list Scope) (i : nat) (s : Scope) :
  NoDup (scope_id <$> ss) → ss !! i = Some s →
  findScope (Some (scope_id s)) ss = Some (i, s).
Proof.
  intros Hnd Hlk. unfold findScope. apply list_find_Some.
  split; [done|]. split; [done|].
  intros j y Hj Hlt Hid.
  assert (j = i); [|lia].
  eapply (NoDup_lookup _ _ _ (scope_id s) Hnd).
  - by rewrite list_lookup_fmap, Hj, <- Hid.
  - by rewrite list_lookup_fmap, Hlk.
Qed.

Lemma updateFrameVariable_scopes name v t σ :
  scopes (state (updateFrameVariable name v t σ)) = scopes (state σ).
Proof. apply (StoreFacts.apply_scopes (OUpdateFrameVariable name v t) σ eq_refl). Qed.

Lemma updateScopeVariable_bound σ outer s inner name v value :
  NoDup (scope_id <$> scopes (state σ)) →
  scopes (state σ) = outer ++ s :: inner →
  scope_variables s !! name = Some v →
  scopes (state (updateScopeVariable (Some (scope_id s)) name value σ))
  = outer ++ setScopeVariables (<[name := setVarValue value v]> (scope_variables s)) s
          :: inner.
Proof.
  intros Hnd Hss Hs. unfold updateScopeVariable.
  rewrite (find_by_id _ (length outer) s Hnd)
    by (by rewrite Hss, list_lookup_middle).
  rewrite Hs. simpl. rewrite Hss.
  rewrite insert_app_r_alt by lia. by rewrite Nat.sub_diag.
Qed.

Lemma updateScopeVariable_unbound σ scopeId name value :
  Forall (unbound name) (scopes (state σ)) →
  updateScopeVariable scopeId name value σ = σ.
Proof.
  intros Hall. unfold updateScopeVariable.
  destruct (findScope scopeId (scopes (state σ))) as [[i s]|] eqn:Hf; [|done].
  apply StoreFacts.findScope_Some in Hf as [Hlk _].
  rewrite Forall_lookup in Hall. by rewrite (Hall _ _ Hlk).
Qed.

Section Interpreter.

Variable parseBody : string → list Instruction.
Variable clock : nat → Z.
Variable fired : nat → list Z.

Local Abbreviation executeInstruction := (Executor.executeInstruction parseBody clock fired).
Local Abbreviation resolveValue := (Executor.resolveValue parseBody clock fired).
Local Abbreviation processEventLoop := (Executor.processEventLoop parseBody clock fired).
Local Abbreviation microtaskLoop := (Executor.microtaskLoop parseBody clock fired).
Local Abbreviation microtaskTurn := (Executor.microtaskTurn parseBody clock fired).
Local Abbreviation step := (Executor.step parseBody clock fired).

(** The recursion, one level unfolded. *)
Lemma executeInstruction_S fuel i :
  executeInstruction (S fuel) i
  = executeInstructionBody clock
      (Executor.executeFunctionCall parseBody clock fired fuel)
      (resolveValue fuel) (Executor.resolveAll parseBody clock fired fuel) i.
Proof. reflexivity. Qed.

Lemma executeFunctionCall_S fuel name args :
  Executor.executeFunctionCall parseBody clock fired (S fuel) name args
  = executeFunctionCallBody parseBody clock fired (executeInstruction fuel)
      (Executor.resolveAll parseBody clock fired fuel) name args.
Proof. reflexivity. Qed.

Lemma resolveValue_S fuel e :
  resolveValue (S fuel) e
  = resolveValueBody (Executor.executeFunctionCall parseBody clock fired fuel)
      (resolveValue fuel) (Executor.resolveAll parseBody clock fired fuel) e.
Proof. reflexivity. Qed.

Lemma resolveAll_S fuel es :
  Executor.resolveAll parseBody clock fired (S fuel) es
  = resolveAllBody (resolveValue fuel) es.
Proof. reflexivity. Qed.


(** *** Calls of unknown functions *)

Lemma consoleEntries_logConsole t type args σ :
  consoleEntries (logConsole t type args σ) = consoleEntries σ ++ [(type, args)].
Proof. unfold consoleEntries, logConsole, notify. simpl. by rewrite omap_app. Qed.

Lemma unknown_call_outcome fuel name args line x :
  findFunction name x = None →
  executeInstruction (S (S fuel)) (FunctionCall name args line) x
  = Done ()
      (set_reads (S (reads x))
         (set_store
            (logConsole (clock (reads x)) "error"
               ["ReferenceError: " +:+ name +:+ " is not defined"] (store x)) x)).
Proof.
  intros Hfind. rewrite executeInstruction_S. unfold executeInstructionBody.
  rewrite executeFunctionCall_S. unfold executeFunctionCallBody.
  by rewrite Hfind.
Qed.

(** C8. A call of a name that no top-level function declaration carries
    ends at once: the store's state (call stack, scopes, heap, queues and
    the rest) is as before, exactly one notification is sent, a console
    entry of type error, and the interpreter goes on: the step that
    executes such a call moves the cursor to the next instruction. *)
Theorem unknown_function_call_is_skipped
    (fuel : nat) (name : string) (args : list ValueExpr) (line : nat) (x : Exec) :
  findFunction name x = None →
  let msg := "ReferenceError: " +:+ name +:+ " is not defined" in
  let x' :=
    set_reads (S (reads x))
      (set_store (logConsole (clock (reads x)) "error" [msg] (store x)) x) in
  executeInstruction (S (S fuel)) (FunctionCall name args line) x = Done () x'
  ∧ state (store x') = state (store x)
  ∧ emitted (store x') = emitted (store x) ++ [NConsole "error" [msg] (clock (reads x))]
  ∧ consoleEntries (store x') = consoleEntries (store x) ++ [("error", [msg])]
  ∧ (instructions x !! currentIndex x = Some (FunctionCall name args line) →
     ∃ more x'',
       step (S (S fuel)) x = Done more x''
       ∧ currentIndex x'' = S (currentIndex x)
       ∧ instructions x'' = instructions x
       ∧ callStack (state (store x'')) = callStack (state (store x))
       ∧ scopes (state (store x'')) = scopes (state (store x))
       ∧ heap (state (store x'')) = heap (state (store x))
       ∧ eventLoop (state (store x'')) = eventLoop (state (store x))
       ∧ consoleEntries (store x'') = consoleEntries (store x) ++ [("error", [msg])]).
Proof.
  intros Hfind msg x'. split; [|split; [|split; [|split]]].
  - by apply unknown_call_outcome.
  - done.
  - done.
  - subst x'. simpl. by rewrite consoleEntries_logConsole.
  - intros Hcur.
    set (xa := set_store (incrementStep (setCurrentLine (Z.of_nat line) (store x))).2 x).
    assert (Hxa : findFunction name xa = None) by exact Hfind.
    pose proof (unknown_call_outcome fuel name args line xa Hxa) as Hcall.
    assert (Hstep : step (S (S fuel)) x
              = bind (executeInstruction (S (S fuel)) (FunctionCall name args line))
                  (λ _, bind (λ x, Done () (set_currentIndex (S (currentIndex x)) x))
                          (λ _ x, Done (bool_decide (currentIndex x < length (instructions x))
                                        || hasPendingTasks x) x)) xa).
    { unfold Executor.step. rewrite Hcur. reflexivity. }
    rewrite Hstep. unfold bind at 1. rewrite Hcall.
    do 2 eexists. split; [reflexivity|].
    simpl. repeat split.
    unfold consoleEntries. simpl. rewrite !omap_app. simpl.
    by rewrite app_nil_r.
Qed.

(** *** The event-loop pass *)

Lemma bind_not_returns {A B} (m : M A) (k : A → M B) x :
  ¬ returns (m x) → ¬ returns (bind m k x).
Proof.
  intros Hm (b & x' & Hb). unfold bind in Hb.
  destruct (m x) as [a x1| |w] eqn:Hmx; try discriminate.
  apply Hm. by exists a, x1.
Qed.

(** The loop never ends when the copy of the microtask queue taken before
    it is not empty: no turn changes the copy. *)
Lemma microtaskLoop_stale_copy fuel state x :
  microtaskQueue (eventLoop state) ≠ [] → ¬ returns (microtaskLoop fuel state x).
Proof.
  intros Hq. revert x. induction fuel as [|fuel IH]; intros x.
  - intros (a & x' & H). discriminate H.
  - simpl. destruct (microtaskQueue (eventLoop state)) as [|t q] eqn:Eq; [done|].
    simpl. intros (a & x' & H). unfold bind in H.
    destruct (microtaskTurn fuel x) as [u x1| |w]; try discriminate.
    apply (IH x1). by exists a, x'.
Qed.

(** The pass over the queues never returns when it starts with a
    microtask in the queue. *)
Lemma processEventLoop_never_returns fuel x :
  microtaskQueue (eventLoop (state (store x))) ≠ [] →
  ¬ returns (processEventLoop fuel x).
Proof.
  intros Hq. unfold Executor.processEventLoop.
  unfold bind at 1. simpl.
  apply bind_not_returns. by apply microtaskLoop_stale_copy.
Qed.

(** With nothing queued and nothing pending the pass returns at once. *)
Lemma processEventLoop_idle fuel x :
  microtaskQueue (eventLoop (state (store x))) = [] →
  callbackQueue (eventLoop (state (store x))) = [] →
  pendingMicrotasks x = [] → pendingTimers x = [] →
  processEventLoop (S fuel) x = Done (hasPendingTasks x) x.
Proof.
  intros Hm Hc Hpm Hpt. unfold Executor.processEventLoop, processOneCallback, bind, ask.
  simpl. unfold getState. rewrite Hm, Hpm. simpl. by rewrite Hc, Hpt.
Qed.

(** Statements that resolve nothing run the same with any fuel. *)
Lemma step_setTimeout f x callback delayMs line :
  instructions x !! currentIndex x = Some (SetTimeout callback delayMs line) →
  step (S f) x = step 1 x.
Proof. intros H. unfold Executor.step. rewrite H. reflexivity. Qed.

Lemma step_promise f x callback line :
  instructions x !! currentIndex x = Some (PromiseThen callback line) →
  step (S f) x = step 1 x.
Proof. intros H. unfold Executor.step. rewrite H. reflexivity. Qed.

Lemma runLoop_advance f x z :
  step f x = step 1 x →
  (∃ y, step 1 x = Done true y ∧ delay fired y = Done () z) →
  runLoop parseBody clock fired (S f) x = runLoop parseBody clock fired f z.
Proof.
  intros Hf (y & Hy & Hz). simpl. unfold bind at 1. rewrite Hf, Hy.
  unfold bind at 1. by rewrite Hz.
Qed.

Lemma step_exhausted_never_returns f x :
  instructions x !! currentIndex x = None →
  microtaskQueue (eventLoop (state (store x))) ≠ [] →
  ¬ returns (step f x).
Proof.
  intros Hend Hq. unfold Executor.step. rewrite Hend.
  apply bind_not_returns. by apply processEventLoop_never_returns.
Qed.

(** With the live queue empty and nothing pending, a turn of the loop
    changes nothing. *)
Lemma microtaskTurn_idle f x :
  microtaskQueue (eventLoop (state (store x))) = [] →
  pendingMicrotasks x = [] →
  microtaskTurn f x = Done () x.
Proof.
  intros Hq Hp. destruct x as [σ insts idx g pt pm r wt ht]. simpl in *. subst pm.
  unfold Executor.microtaskTurn, bind, call, processNextMicrotask. simpl.
  rewrite Hq. simpl. by destruct σ.
Qed.

(** ... so the loop over a non-empty copy goes on for as long as there is
    fuel. *)
Lemma microtaskLoop_spins fuel state x :
  microtaskQueue (eventLoop state) ≠ [] →
  microtaskQueue (eventLoop (StateManager.state (store x))) = [] →
  pendingMicrotasks x = [] →
  microtaskLoop fuel state x = OutOfFuel.
Proof.
  intros Hcopy Hq Hp. induction fuel as [|fuel IH]; [done|].
  simpl. destruct (microtaskQueue (eventLoop state)) as [|t q]; [done|].
  simpl. unfold bind. by rewrite microtaskTurn_idle.
Qed.

Lemma microtaskLoop_turn f state x y :
  microtaskQueue (eventLoop state) ≠ [] →
  microtaskTurn f x = Done () y →
  microtaskLoop (S f) state x = microtaskLoop f state y.
Proof.
  intros Hcopy Hturn. simpl.
  destruct (microtaskQueue (eventLoop state)) as [|t q]; [done|].
  simpl. unfold bind. by rewrite Hturn.
Qed.

Lemma processEventLoop_loop fuel x :
  microtaskLoop fuel (getState (store x)) x = OutOfFuel →
  processEventLoop fuel x = OutOfFuel.
Proof.
  intros H. unfold Executor.processEventLoop, bind, ask. by rewrite H.
Qed.

Lemma step_exhausted_loop fuel x :
  instructions x !! currentIndex x = None →
  microtaskLoop fuel (getState (store x)) x = OutOfFuel →
  step fuel x = OutOfFuel.
Proof.
  intros Hend H. unfold Executor.step. rewrite Hend.
  unfold bind. by rewrite processEventLoop_loop.
Qed.

Lemma runLoop_exhausted_never_returns fuel x :
  instructions x !! currentIndex x = None →
  microtaskQueue (eventLoop (state (store x))) ≠ [] →
  ¬ returns (runLoop parseBody clock fired fuel x).
Proof.
  intros Hend Hq. destruct fuel as [|f].
  - intros (a & x' & H). discriminate H.
  - cbn [runLoop]. apply bind_not_returns.
    by apply step_exhausted_never_returns.
Qed.

End Interpreter.

(** *** The interpreter acts on the store through its operations only *)

Lemma through_refl σ : through σ σ.
Proof. by exists []. Qed.

Lemma through_trans σ1 σ2 σ3 : through σ1 σ2 → through σ2 σ3 → through σ1 σ3.
Proof.
  intros [ops1 ->] [ops2 ->]. exists (ops1 ++ ops2).
  unfold StateManager.run. by rewrite foldl_app.
Qed.

Lemma through_apply op σ : through σ (StateManager.apply op σ).
Proof. by exists [op]. Qed.

Lemma through_moves ids σ :
  through σ (foldl (λ σ id, (moveToCallbackQueue id σ).2) σ ids).
Proof.
  revert σ. induction ids as [|id ids IH]; intros σ; [apply through_refl|].
  simpl. eapply through_trans; [|apply IH].
  apply (through_apply (OMoveToCallbackQueue id)).
Qed.

Create HintDb keeps.

Lemma keeps_ret {A} (a : A) : keeps (ret a).
Proof. intros x a' x' [= <- <-]. apply through_refl. Qed.

Lemma keeps_bind {A B} (m : M A) (k : A → M B) :
  keeps m → (∀ a, keeps (k a)) → keeps (bind m k).
Proof.
  intros Hm Hk x b x' H. unfold bind in H.
  destruct (m x) as [a x1| |w] eqn:Hmx; try discriminate.
  eapply through_trans; [by eapply Hm | by eapply Hk].
Qed.

Lemma keeps_ask {A} (f : Store → A) : keeps (ask f).
Proof. intros x a x' [= <- <-]. apply through_refl. Qed.

(** A change of the interpreter's own variables leaves the store alone. *)
Lemma keeps_own {A} (f : Exec → A * Exec) :
  (∀ x, store (f x).2 = store x) → keeps (λ x, Done (f x).1 (f x).2).
Proof. intros Hf x a x' [= <- <-]. rewrite Hf. apply through_refl. Qed.

Lemma keeps_exec op : keeps (exec (StateManager.apply op)).
Proof. intros x a x' [= <- <-]. apply through_apply. Qed.

Lemma keeps_if {A} (b : bool) (m1 m2 : M A) :
  keeps m1 → keeps m2 → keeps (if b then m1 else m2).
Proof. by destruct b. Qed.

Lemma keeps_forEach {A} (body : A → M unit) items :
  (∀ item, keeps (body item)) → keeps (forEach body items).
Proof.
  intros Hbody. induction items as [|item items IH]; simpl.
  - apply keeps_ret.
  - apply keeps_bind; [apply Hbody | intros _; exact IH].
Qed.

Lemma keeps_mapM {A B} (f : A → M B) items :
  (∀ item, keeps (f item)) → keeps (mapM f items).
Proof.
  intros Hf. induction items as [|item items IH]; simpl.
  - apply keeps_ret.
  - apply keeps_bind; [apply Hf|]. intros b.
    apply keeps_bind; [exact IH|]. intros bs. apply keeps_ret.
Qed.

Lemma keeps_stuck {A} w : keeps (λ _ : Exec, @Stuck A w).
Proof. intros x a x' H. discriminate H. Qed.

Lemma keeps_outOfFuel {A} : keeps (λ _ : Exec, @OutOfFuel A).
Proof. intros x a x' H. discriminate H. Qed.

Lemma keeps_update {A} (a : Exec → A) (g : Exec → Exec) :
  (∀ x, store (g x) = store x) → keeps (λ x, Done (a x) (g x)).
Proof. intros Hg x a' x' [= <- <-]. rewrite Hg. apply through_refl. Qed.

Lemma keeps_call {A} (f : Store → A * Store) op :
  (∀ σ, (f σ).2 = StateManager.apply op σ) → keeps (call f).
Proof.
  intros Hf x a x' H. unfold call in H. specialize (Hf (store x)).
  destruct (f (store x)) as [a0 σ]. simpl in *. injection H as <- <-.
  simpl. rewrite Hf. apply through_apply.
Qed.

Lemma keeps_exec_op (f : Store → Store) op :
  (∀ σ, f σ = StateManager.apply op σ) → keeps (exec f).
Proof.
  intros Hf x a x' [= <- <-]. simpl. rewrite Hf. apply through_apply.
Qed.

Lemma keeps_allocateHeap t ty v r : keeps (call (allocateHeap t ty v r)).
Proof. by apply (keeps_call _ (OAllocateHeap t ty v r)). Qed.
Lemma keeps_createScope t n ty p : keeps (call (createScope t n ty p)).
Proof. by apply (keeps_call _ (OCreateScope t n ty p)). Qed.
Lemma keeps_pushCallStack id f : keeps (call (pushCallStack id f)).
Proof. by apply (keeps_call _ (OPushCallStack id f)). Qed.
Lemma keeps_popCallStack : keeps (call popCallStack).
Proof. by apply (keeps_call _ OPopCallStack). Qed.
Lemma keeps_addToWebAPI id t task : keeps (call (addToWebAPI id t task)).
Proof. by apply (keeps_call _ (OAddToWebAPI id t task)). Qed.
Lemma keeps_addToMicrotaskQueue id task : keeps (call (addToMicrotaskQueue id task)).
Proof. by apply (keeps_call _ (OAddToMicrotaskQueue id task)). Qed.
Lemma keeps_processNextMicrotask : keeps (call processNextMicrotask).
Proof. by apply (keeps_call _ OProcessNextMicrotask). Qed.
Lemma keeps_processNextCallback : keeps (call processNextCallback).
Proof. by apply (keeps_call _ OProcessNextCallback). Qed.
Lemma keeps_incrementStep : keeps (call incrementStep).
Proof. by apply (keeps_call _ OIncrementStep). Qed.
Lemma keeps_addScopeVariable s n v t d : keeps (exec (addScopeVariable s n v t d)).
Proof. by apply (keeps_exec_op _ (OAddScopeVariable s n v t d)). Qed.
Lemma keeps_updateScopeVariable s n v : keeps (exec (updateScopeVariable s n v)).
Proof. by apply (keeps_exec_op _ (OUpdateScopeVariable s n v)). Qed.
Lemma keeps_updateFrameVariable n v t : keeps (exec (updateFrameVariable n v t)).
Proof. by apply (keeps_exec_op _ (OUpdateFrameVariable n v t)). Qed.
Lemma keeps_destroyScope s : keeps (exec (destroyScope s)).
Proof. by apply (keeps_exec_op _ (ODestroyScope s)). Qed.
Lemma keeps_setCurrentLine l : keeps (exec (setCurrentLine l)).
Proof. by apply (keeps_exec_op _ (OSetCurrentLine l)). Qed.
Lemma keeps_logConsole t ty args : keeps (exec (logConsole t ty args)).
Proof. by apply (keeps_exec_op _ (OLogConsole t ty args)). Qed.
Lemma keeps_addTimer id : keeps (exec (addTimer id)).
Proof. by apply (keeps_exec_op _ (OAddTimer id)). Qed.
Lemma keeps_setExecutionState r p : keeps (exec (setExecutionState r p)).
Proof. by apply (keeps_exec_op _ (OSetExecutionState r p)). Qed.

#[local] Hint Resolve keeps_ret keeps_ask keeps_stuck keeps_outOfFuel
  keeps_allocateHeap keeps_createScope keeps_pushCallStack keeps_popCallStack
  keeps_addToWebAPI keeps_addToMicrotaskQueue keeps_processNextMicrotask
  keeps_processNextCallback keeps_incrementStep keeps_addScopeVariable
  keeps_updateScopeVariable keeps_updateFrameVariable keeps_destroyScope
  keeps_setCurrentLine keeps_logConsole keeps_addTimer keeps_setExecutionState
  : keeps.

(** One step of a proof that a computation keeps to the operations. *)
Ltac keeps_step :=
  cbv beta;
  first
    [ solve [auto with keeps]
    | apply keeps_bind; [|intros ?]
    | apply keeps_if
    | apply keeps_forEach; intros ?
    | apply keeps_mapM; intros ?
    | apply keeps_update; intros ?; reflexivity ].

Section Discipline.

Variable parseBody : string → list Instruction.
Variable clock : nat → Z.
Variable fired : nat → list Z.

Lemma keeps_now : keeps (now clock).
Proof. unfold now. keeps_step. Qed.

Lemma keeps_setTimeout task timeout : keeps (setTimeout task timeout).
Proof. unfold setTimeout. keeps_step. Qed.

Lemma keeps_logConsoleM type text : keeps (logConsoleM clock type text).
Proof. unfold logConsoleM. pose proof keeps_now. repeat keeps_step. Qed.

Lemma keeps_delay : keeps (delay fired).
Proof.
  unfold delay. pose proof keeps_setTimeout. repeat keeps_step.
  intros x0 r0 x1 [= <- <-]. simpl. apply through_moves.
Qed.

#[local] Hint Resolve keeps_now keeps_setTimeout keeps_logConsoleM keeps_delay : keeps.

Lemma keeps_bindParameters scopeId params args :
  keeps (bindParameters scopeId params args).
Proof.
  revert args. induction params as [|p ps IH]; intros args; simpl.
  - apply keeps_ret.
  - repeat keeps_step.
Qed.

#[local] Hint Resolve keeps_bindParameters : keeps.

Lemma keeps_simple_executions :
  (∀ fs vs, keeps (executeHoisting clock fs vs))
  ∧ (∀ n ps b, keeps (executeFunctionDeclaration clock n ps b))
  ∧ (∀ n, keeps (executeHoistedVar n))
  ∧ (∀ c, keeps (executePromise clock c))
  ∧ (∀ c d, keeps (executeSetTimeout clock c d))
  ∧ (∀ d n, keeps (executeNewObject clock d n)).
Proof.
  repeat split; intros;
    unfold executeHoisting, executeFunctionDeclaration, executeHoistedVar,
      executePromise, executeSetTimeout, executeNewObject;
    repeat keeps_step.
Qed.

Lemma keeps_resolving_executions
    (resolveValue : ValueExpr → M Value)
    (resolveAll : list ValueExpr → M (list Value)) :
  (∀ e, keeps (resolveValue e)) → (∀ es, keeps (resolveAll es)) →
  (∀ d n e, keeps (executeVariableDeclaration clock resolveValue d n e))
  ∧ (∀ n e, keeps (executeAssignment resolveValue n e))
  ∧ (∀ m args, keeps (executeConsole clock resolveAll m args))
  ∧ (∀ o m args, keeps (executeMethodCall clock resolveAll o m args))
  ∧ (∀ e, keeps (executeReturn clock resolveValue e)).
Proof.
  intros Hv Ha. repeat split; intros;
    unfold executeVariableDeclaration, executeAssignment, executeMethodCall,
      executeConsole, executeReturn;
    repeat keeps_step.
Qed.

(** The interpreter changes the store by calling its operations and in no
    other way: whatever an instruction, a call or the resolution of an
    expression returns, the store it leaves comes from the store it found
    by a sequence of store operations. *)
Lemma keeps_core fuel :
  (∀ i, keeps (executeInstruction parseBody clock fired fuel i))
  ∧ (∀ n args, keeps (executeFunctionCall parseBody clock fired fuel n args))
  ∧ (∀ e, keeps (resolveValue parseBody clock fired fuel e))
  ∧ (∀ es, keeps (resolveAll parseBody clock fired fuel es)).
Proof.
  induction fuel as [|fuel (IHi & IHc & IHv & IHa)].
  - repeat split; intros; apply keeps_outOfFuel.
  - destruct keeps_simple_executions as (K1 & K2 & K3 & K4 & K5 & K6).
    destruct (keeps_resolving_executions _ _ IHv IHa) as (R1 & R2 & R3 & R4 & R5).
    split; [|split; [|split]].
    + intros i. rewrite executeInstruction_S.
      destruct i; unfold executeInstructionBody; auto.
    + intros n args x a x' H. rewrite executeFunctionCall_S in H.
      unfold executeFunctionCallBody in H.
      destruct (findFunction n x) as [[]|];
        match type of H with
        | ?m x = _ =>
            assert (K : keeps m) by (repeat keeps_step; auto); exact (K _ _ _ H)
        end.
    + intros e. rewrite resolveValue_S.
      destruct e; unfold resolveValueBody; repeat keeps_step; auto.
    + intros es. rewrite resolveAll_S. unfold resolveAllBody.
      repeat keeps_step; auto.
Qed.

Lemma keeps_executeInstruction fuel i :
  keeps (executeInstruction parseBody clock fired fuel i).
Proof. apply keeps_core. Qed.

#[local] Hint Resolve keeps_executeInstruction : keeps.

Lemma keeps_runCallback fuel callback :
  keeps (runCallback parseBody clock fired fuel callback).
Proof. unfold runCallback. repeat keeps_step. Qed.

#[local] Hint Resolve keeps_runCallback : keeps.

Lemma keeps_microtaskTurn fuel : keeps (microtaskTurn parseBody clock fired fuel).
Proof.
  unfold microtaskTurn. repeat keeps_step.
  destruct a as [t|]; repeat keeps_step.
Qed.

#[local] Hint Resolve keeps_microtaskTurn : keeps.

Lemma keeps_microtaskLoop fuel state :
  keeps (microtaskLoop parseBody clock fired fuel state).
Proof.
  induction fuel as [|fuel IH]; [apply keeps_outOfFuel|].
  intros x a x' H. cbn [microtaskLoop] in H.
  destruct (nonEmpty (microtaskQueue (eventLoop state)) || nonEmpty (pendingMicrotasks x)).
  - revert H. apply keeps_bind; [apply keeps_microtaskTurn | intros _; exact IH].
  - injection H as <- <-. apply through_refl.
Qed.

Lemma keeps_processOneCallback fuel :
  keeps (processOneCallback parseBody clock fired fuel).
Proof.
  unfold processOneCallback. apply keeps_bind; [apply keeps_ask|].
  intros callbackState x a x' H.
  destruct (nonEmpty (callbackQueue (eventLoop callbackState)) || nonEmpty (pendingTimers x)).
  - revert H. repeat keeps_step.
    destruct a0 as [c|]; repeat keeps_step.
    intros x0 r0 x1 H0. destruct (globalScope x0) as [g|]; [|discriminate H0].
    revert H0. repeat keeps_step.
  - injection H as <- <-. apply through_refl.
Qed.

#[local] Hint Resolve keeps_microtaskLoop keeps_processOneCallback : keeps.

Lemma keeps_processEventLoop fuel :
  keeps (processEventLoop parseBody clock fired fuel).
Proof. unfold processEventLoop. repeat keeps_step. Qed.

#[local] Hint Resolve keeps_processEventLoop : keeps.

Lemma keeps_step fuel : keeps (step parseBody clock fired fuel).
Proof.
  intros x a x' H. unfold step in H.
  destruct (instructions x !! currentIndex x) as [instruction|];
    revert H; repeat keeps_step.
Qed.

#[local] Hint Resolve keeps_step : keeps.

Lemma keeps_init parsed : keeps (init clock parsed).
Proof. unfold init. repeat keeps_step. Qed.

Lemma keeps_runLoop fuel : keeps (runLoop parseBody clock fired fuel).
Proof.
  induction fuel as [|fuel IH]; [apply keeps_outOfFuel|].
  cbn [runLoop]. repeat keeps_step.
Qed.

#[local] Hint Resolve keeps_init keeps_runLoop : keeps.

Lemma keeps_run fuel : keeps (run parseBody clock fired fuel).
Proof. unfold run. repeat keeps_step. Qed.

(** X1. Every state in which a run of the interpreter returns holds a store
    that a session of store operations produces; so what holds throughout
    every session holds there: only the top frame is active, scope
    identities are distinct, no reference list has a duplicate. *)
Lemma run_is_a_session parsed fuel a x :
  bind (init clock parsed) (λ _, run parseBody clock fired fuel) initialExec
  = Done a x →
  ∃ ops,
    store x = StateManager.run ops initialStore
    ∧ topOnlyActive (callStack (state (store x)))
    ∧ NoDup (scope_id <$> scopes (state (store x)))
    ∧ refsNoDup (store x).
Proof.
  intros H.
  assert (K : keeps (bind (init clock parsed) (λ _, run parseBody clock fired fuel)))
    by (apply keeps_bind; [apply keeps_init | intros _; apply keeps_run]).
  destruct (K _ _ _ H) as [ops Hops]. exists ops. split; [exact Hops|].
  rewrite Hops. split; [|split].
  - apply (StoreFacts.session_top_frame_active ops).
  - apply StoreFacts.scope_ids_distinct.
  - intros id obj. apply StoreFacts.heap_references_distinct.
Qed.

End Discipline.

(** *** The scenarios *)

Import Scenario.

(** The run of the one statement [console.log("A")]. *)
Lemma run_is_a_session_witness :
  ∃ x,
    bind (init hostClock [Console "log" [EString "A"] 1])
      (λ _, run translated hostClock hostFired 5) initialExec = Done () x
    ∧ ∃ ops,
        store x = StateManager.run ops initialStore
        ∧ topOnlyActive (callStack (state (store x)))
        ∧ NoDup (scope_id <$> scopes (state (store x)))
        ∧ refsNoDup (store x).
Proof.
  eexists. split; [vm_compute; reflexivity|].
  apply (run_is_a_session translated hostClock hostFired
           [Console "log" [EString "A"] 1] 5 ()).
  vm_compute. reflexivity.
Defined.

Local Abbreviation runScenario fuel :=
  ((init hostClock timerAndPromises ;; run translated hostClock hostFired fuel)
     initialExec).

Lemma scenario_starts fuel :
  runScenario fuel
  = bind (runLoop translated hostClock hostFired fuel)
      (λ _, exec (setExecutionState false false) ;;
            logConsoleM hostClock "info" "Execution completed") started.
Proof. reflexivity. Qed.

Lemma scenario_reaches_pass f :
  runLoop translated hostClock hostFired (S (S (S (S f)))) started
  = runLoop translated hostClock hostFired (S f) exhausted.
Proof.
  rewrite (runLoop_advance translated hostClock hostFired _ started afterTimer).
  2:{ eapply step_setTimeout. vm_compute. reflexivity. }
  2:{ eexists. split; vm_compute; reflexivity. }
  rewrite (runLoop_advance translated hostClock hostFired _ afterTimer afterFirstPromise).
  2:{ eapply step_promise. vm_compute. reflexivity. }
  2:{ eexists. split; vm_compute; reflexivity. }
  rewrite (runLoop_advance translated hostClock hostFired _ afterFirstPromise exhausted).
  2:{ eapply step_promise. vm_compute. reflexivity. }
  2:{ eexists. split; vm_compute; reflexivity. }
  reflexivity.
Qed.

(** The loop of the pass, started after the three statements, uses up
    any fuel. *)
Lemma scenario_loop_out_of_fuel fuel :
  microtaskLoop translated hostClock hostFired fuel (getState (store exhausted))
    exhausted = OutOfFuel.
Proof.
  assert (Hcopy : microtaskQueue (eventLoop (getState (store exhausted))) ≠ [])
    by (vm_compute; discriminate).
  destruct fuel as [|[|[|[|[|f]]]]].
  1-5: vm_compute; reflexivity.
  rewrite (microtaskLoop_turn translated hostClock hostFired _ _ exhausted afterFirstTurn Hcopy)
    by (vm_compute; reflexivity).
  rewrite (microtaskLoop_turn translated hostClock hostFired _ _ afterFirstTurn drained Hcopy)
    by (vm_compute; reflexivity).
  apply microtaskLoop_spins; [exact Hcopy| |]; vm_compute; reflexivity.
Qed.

(** C1, evaluated on the snippet of [timerAndPromises] (a timer, then two
    promise callbacks). The run uses up any fuel it is given: it never
    finishes the pass over the queues. After the three statements the
    microtask queue holds the two promise tasks; two turns of the loop run
    them in order, logging A then B, and leave the live microtask queue
    empty with the timer task waiting in the callback queue; but the loop
    tests the copy of the queue taken before it started, which still has
    two entries, so it keeps turning and the callback is never taken. *)
Theorem microtask_loop_spins_before_callback :
  (∀ fuel, runScenario fuel = OutOfFuel)
  ∧ consoleEntries (store drained)
    = [ ("info", ["setTimeout registered (0ms)"]);
        ("info", ["Promise.then added to microtask queue"]);
        ("info", ["Promise.then added to microtask queue"]);
        ("info", ["Executing microtask: Promise.then"]);
        ("log", [quoted "A"]);
        ("info", ["Executing microtask: Promise.then"]);
        ("log", [quoted "B"]) ]
  ∧ microtaskQueue (eventLoop (state (store drained))) = []
  ∧ task_callback <$> callbackQueue (eventLoop (state (store drained))) = [logT]
  ∧ length (microtaskQueue (eventLoop (getState (store exhausted)))) = 2
  ∧ (∀ fuel,
       microtaskLoop translated hostClock hostFired fuel
         (getState (store exhausted)) drained = OutOfFuel).
Proof.
  split; [|split; [|split; [|split; [|split]]]].
  - intros fuel. rewrite scenario_starts. unfold bind at 1.
    destruct fuel as [|[|[|[|f]]]].
    1-4: vm_compute; reflexivity.
    rewrite scenario_reaches_pass. cbn [runLoop]. unfold bind at 1.
    rewrite step_exhausted_loop; [done| |apply scenario_loop_out_of_fuel].
    vm_compute. reflexivity.
  - vm_compute. reflexivity.
  - vm_compute. reflexivity.
  - vm_compute. reflexivity.
  - vm_compute. reflexivity.
  - intros fuel. apply microtaskLoop_spins.
    + vm_compute. discriminate.
    + vm_compute. reflexivity.
    + vm_compute. reflexivity.
Qed.



(** C8 at a program whose first statement calls the undeclared [foo]. *)
Lemma unknown_function_call_is_skipped_witness :
  findFunction "foo" callsUnknown = None
  ∧ ∃ more x'',
      step translated hostClock hostFired 2 callsUnknown = Done more x''
      ∧ currentIndex x'' = 1
      ∧ state (store x'') = set_currentStep 1 (set_currentLine 1 (state (store callsUnknown)))
      ∧ consoleEntries (store x'') = [("error", ["ReferenceError: foo is not defined"])].
Proof.
  assert (Hfind : findFunction "foo" callsUnknown = None) by reflexivity.
  split; [exact Hfind|].
  destruct (unknown_function_call_is_skipped translated hostClock hostFired
              0 "foo" [] 1 callsUnknown Hfind)
    as (_ & _ & _ & _ & Hstep).
  destruct (Hstep eq_refl) as (more & x'' & Hrun & Hidx & _ & _ & _ & _ & _ & Hcons).
  exists more, x''. split; [exact Hrun|]. split; [exact Hidx|].
  split; [|exact Hcons].
  vm_compute in Hrun. injection Hrun as _ <-. vm_compute. reflexivity.
Defined.

End ExecutorFacts.

(* ===================================================================== *)
(** ** Theorems: what the snapshot shares with the store *)
(* ===================================================================== *)

Module AliasingFacts.
Import StateManager Aliasing.

Ltac unfold_world_ops :=
  unfold Aliasing.apply, Aliasing.setParsedCode, Aliasing.pushCallStack,
    Aliasing.popCallStack, Aliasing.updateFrameVariable, Aliasing.allocateHeap,
    Aliasing.addHeapReference, Aliasing.deallocateHeap, Aliasing.createScope,
    Aliasing.addScopeVariable, Aliasing.updateScopeVariable, Aliasing.destroyScope,
    Aliasing.addToWebAPI, Aliasing.moveToCallbackQueue, Aliasing.addToMicrotaskQueue,
    Aliasing.processNextMicrotask, Aliasing.processNextCallback, Aliasing.addTimer,
    Aliasing.reset, setTop, allocRecord, allocBox, writeBox, writeRecord.

(** *** The footprint of an operation: it allocates upward, keeps the
    store's containers or replaces them by new ones, and writes no
    container but the store's own and the ones it allocates. *)

Lemma apply_next op w : next w.1 ≤ next (Aliasing.apply op w).1.
Proof.
  destruct w as [m s], op; unfold_world_ops; simpl;
    repeat case_match; simplify_eq/=; lia.
Qed.

Lemma apply_roots op w :
  Forall (λ r, r ∈ roots w.2 ∨ next w.1 ≤ r < next (Aliasing.apply op w).1)
    (roots (Aliasing.apply op w).2).
Proof.
  destruct w as [m s], op; unfold_world_ops; simpl;
    repeat case_match; simplify_eq/=; unfold roots; simpl;
    repeat apply Forall_cons_2; try apply Forall_nil_2;
    first [ right; lia | left; set_solver ].
Qed.

Lemma apply_boxes op w ℓ :
  ℓ ∉ roots w.2 → ℓ < next w.1 →
  boxes (Aliasing.apply op w).1 !! ℓ = boxes w.1 !! ℓ.
Proof.
  destruct w as [m s]. unfold roots. simpl. intros Hroot Hlt.
  destruct op; unfold_world_ops; simpl;
    repeat case_match; simplify_eq/=; try done;
    rewrite ?lookup_insert_ne; try done; try lia; set_solver.
Qed.

(** *** Two invariants of a session *)

Lemma apply_bounded op w : bounded w → bounded (Aliasing.apply op w).
Proof.
  unfold bounded. intros Hb.
  pose proof (apply_next op w) as Hn.
  eapply Forall_impl; [apply apply_roots|]. simpl.
  intros r [Hr|Hr]; [|lia].
  rewrite Forall_forall in Hb. specialize (Hb r Hr). lia.
Qed.

Lemma run_bounded ops w : bounded w → bounded (Aliasing.run ops w).
Proof.
  revert w. induction ops as [|op ops IH]; intros w Hb; [done|].
  simpl. apply IH. by apply apply_bounded.
Qed.

Lemma apply_apart lo hi op w : apart lo hi w → apart lo hi (Aliasing.apply op w).
Proof.
  intros [Hn Hr]. pose proof (apply_next op w) as Hnext. split; [lia|].
  eapply Forall_impl; [apply apply_roots|]. simpl.
  intros r [Hin|Hfresh]; [|lia].
  rewrite Forall_forall in Hr. by apply Hr.
Qed.

Lemma apply_apart_boxes lo hi op w ℓ :
  apart lo hi w → lo ≤ ℓ < hi →
  boxes (Aliasing.apply op w).1 !! ℓ = boxes w.1 !! ℓ.
Proof.
  intros [Hn Hr] Hℓ. apply apply_boxes; [|lia].
  intros Hin. rewrite Forall_forall in Hr. specialize (Hr ℓ Hin). lia.
Qed.

Lemma run_apart_boxes lo hi ops w ℓ :
  apart lo hi w → lo ≤ ℓ < hi →
  boxes (Aliasing.run ops w).1 !! ℓ = boxes w.1 !! ℓ.
Proof.
  revert w. induction ops as [|op ops IH]; intros w Ha Hℓ; [done|].
  simpl. rewrite IH; [|by apply apply_apart|done].
  by eapply apply_apart_boxes.
Qed.

(** *** Reading through a state object *)

Lemma readArray_ext m m' ℓ : boxes m' !! ℓ = boxes m !! ℓ → readArray m' ℓ = readArray m ℓ.
Proof. unfold readArray. by intros ->. Qed.
Lemma readMap_ext m m' ℓ : boxes m' !! ℓ = boxes m !! ℓ → readMap m' ℓ = readMap m ℓ.
Proof. unfold readMap. by intros ->. Qed.
Lemma readCode_ext m m' ℓ : boxes m' !! ℓ = boxes m !! ℓ → readCode m' ℓ = readCode m ℓ.
Proof. unfold readCode. by intros ->. Qed.
Lemma readHandles_ext m m' ℓ :
  boxes m' !! ℓ = boxes m !! ℓ → readHandles m' ℓ = readHandles m ℓ.
Proof. unfold readHandles. by intros ->. Qed.

(** What is seen through a state object depends on the records and on
    the containers the object points to, on nothing else. *)
Lemma view_ext m m' s :
  records m' = records m →
  Forall (λ r, boxes m' !! r = boxes m !! r) (roots s) →
  view m' s = view m s.
Proof.
  intros Hrec Hroots. unfold roots in Hroots.
  repeat (apply Forall_cons in Hroots as [? Hroots]).
  assert (frameAt m' = frameAt m) as Hf by (unfold frameAt; by rewrite Hrec).
  assert (scopeAt m' = scopeAt m) as Hs by (unfold scopeAt; by rewrite Hrec).
  assert (heapObjectAt m' = heapObjectAt m) as Hh
    by (unfold heapObjectAt; by rewrite Hrec).
  assert (taskAt m' = taskAt m) as Ht by (unfold taskAt; by rewrite Hrec).
  unfold view. rewrite Hf, Hs, Hh, Ht.
  rewrite !(readArray_ext m m') by done.
  rewrite !(readCode_ext m m') by done.
  rewrite (readMap_ext m m') by done.
  rewrite (readHandles_ext m m') by done.
  done.
Qed.

(** *** The copy made by [getState] *)

Lemma getState_apart w :
  bounded w →
  apart (next w.1) (next w.1 + 6) ((getState w).2, w.2)
  ∧ records (getState w).2 = records w.1
  ∧ (∀ r, r < next w.1 → boxes (getState w).2 !! r = boxes w.1 !! r)
  ∧ Forall (λ ℓ, next w.1 ≤ ℓ < next w.1 + 6) (ownBoxes (getState w).1).
Proof.
  destruct w as [m s]. unfold bounded. simpl. intros Hb.
  split; [|split; [done|split]].
  - split; [simpl; lia|]. simpl.
    eapply Forall_impl; [exact Hb|]. simpl. intros r Hr. lia.
  - intros r Hr. rewrite !lookup_insert_ne by lia. done.
  - unfold ownBoxes. simpl. repeat apply Forall_cons_2; try apply Forall_nil_2; lia.
Qed.

Lemma getState_view w :
  bounded w →
  view (getState w).2 (getState w).1 = view w.1 w.2
  ∧ containers (getState w).2 (getState w).1 = containers w.1 w.2.
Proof.
  destruct w as [m s]. unfold bounded, roots. simpl. intros Hb.
  repeat (apply Forall_cons in Hb as [? Hb]).
  assert (Hshared : ∀ r, r < next m →
            boxes (getState (m, s)).2 !! r = boxes m !! r).
  { intros r Hr. simpl. rewrite !lookup_insert_ne by lia. done. }
  unfold view, containers, readArray, readMap, readCode, readHandles,
    frameAt, scopeAt, heapObjectAt, taskAt.
  simpl in *.
  rewrite !(lookup_insert_ne _ _ (o_parsedCode s)) by lia.
  rewrite !(lookup_insert_ne _ _ (o_executionQueue s)) by lia.
  rewrite !(lookup_insert_ne _ _ (o_timers s)) by lia.
  repeat (first [ rewrite lookup_insert_eq
                | rewrite (lookup_insert_ne _ (next m + _) (next m)) by lia
                | rewrite (lookup_insert_ne _ (next m + _) (next m + _)) by lia
                | rewrite (lookup_insert_ne _ (next m) (next m + _)) by lia ]).
  done.
Qed.

Lemma initial_bounded : bounded initialWorld.
Proof.
  unfold bounded, roots. simpl.
  repeat apply Forall_cons_2; try apply Forall_nil_2; lia.
Qed.



(** The two models of the store agree on a session that uses every
    operation, before and after a reset. *)
Lemma models_agree_on_every_operation :
  view (Aliasing.run Scenario.everyOperation initialWorld).1
    (Aliasing.run Scenario.everyOperation initialWorld).2
  = state (StateManager.run Scenario.everyOperation initialStore)
  ∧ view (Aliasing.run (Scenario.everyOperation ++ [OReset; OCreateScope 0 "Global" "global" None])
            initialWorld).1
      (Aliasing.run (Scenario.everyOperation ++ [OReset; OCreateScope 0 "Global" "global" None])
         initialWorld).2
    = state (StateManager.run
               (Scenario.everyOperation ++ [OReset; OCreateScope 0 "Global" "global" None])
               initialStore).
Proof. split; vm_compute; reflexivity. Qed.

End AliasingFacts.
(* ===================================================================== *)
(** ** Theorems: the object graph refines the value model of the store *)
(* ===================================================================== *)

Module RefinementFacts.
Import StateManager Aliasing.

(** The operations of the value model read the state and nothing else. *)
Lemma apply_state op σ : state (StateManager.apply op σ) = applyState op (state σ).
Proof.
  destruct σ as [st e c]. unfold applyState.
  destruct op; StoreFacts.unfold_ops; simpl; repeat case_match; simplify_eq/=; done.
Qed.

(** *** Reading records through a list of addresses *)

Section Holds.
Context {A : Type} (proj : Rec → option A).
Implicit Types (R : gmap loc Rec) (l : list loc) (xs : list A).

Lemma holds_view R l xs :
  holds proj R l xs → omap (λ ℓ, R !! ℓ ≫= proj) l = xs.
Proof.
  induction 1 as [|ℓ x l xs Hx _ IH]; [done|].
  simpl. rewrite Hx. simpl. f_equal. exact IH.
Qed.

Lemma holds_ext R R' l xs :
  (∀ ℓ, ℓ ∈ l → R' !! ℓ ≫= proj = R !! ℓ ≫= proj) →
  holds proj R l xs → holds proj R' l xs.
Proof.
  intros Hsame Hh. induction Hh as [|ℓ x l xs Hx _ IH]; [constructor|].
  constructor.
  - rewrite Hsame; [done|]. apply list_elem_of_here.
  - apply IH. intros ℓ' Hin. apply Hsame. by apply list_elem_of_further.
Qed.

Lemma holds_lookup R l xs i ℓ :
  holds proj R l xs → l !! i = Some ℓ →
  ∃ x, xs !! i = Some x ∧ R !! ℓ ≫= proj = Some x.
Proof. intros Hh Hi. exact (Forall2_lookup_l _ _ _ _ _ Hh Hi). Qed.

Lemma holds_allocated R l xs ℓ :
  holds proj R l xs → ℓ ∈ l → is_Some (R !! ℓ).
Proof.
  intros Hh Hin. apply list_elem_of_lookup in Hin as [i Hi].
  destruct (holds_lookup _ _ _ _ _ Hh Hi) as (x & _ & Hx).
  destruct (R !! ℓ); [by eexists | discriminate].
Qed.

Lemma holds_length R l xs : holds proj R l xs → length l = length xs.
Proof. apply Forall2_length. Qed.

Lemma holds_snoc R l xs ℓ x :
  holds proj R l xs → R !! ℓ ≫= proj = Some x →
  holds proj R (l ++ [ℓ]) (xs ++ [x]).
Proof. intros Hh Hx. apply Forall2_app; [done|]. by constructor. Qed.

Lemma holds_take R l xs n :
  holds proj R l xs → holds proj R (take n l) (take n xs).
Proof. apply Forall2_take. Qed.

Lemma holds_delete R l xs i :
  holds proj R l xs → holds proj R (delete i l) (delete i xs).
Proof. apply Forall2_delete. Qed.

Lemma holds_tail R ℓ l x xs :
  holds proj R (ℓ :: l) (x :: xs) → holds proj R l xs.
Proof. intros Hh. by apply Forall2_cons_1 in Hh as [_ ?]. Qed.

Lemma holds_update R l xs i ℓ r x :
  NoDup l → l !! i = Some ℓ → proj r = Some x →
  holds proj R l xs → holds proj (<[ℓ := r]> R) l (<[i := x]> xs).
Proof.
  intros Hnd Hi Hr Hh.
  apply Forall2_same_length_lookup. split.
  - rewrite length_insert. by eapply Forall2_length.
  - intros j ℓ' y Hj Hy. simpl.
    destruct (decide (j = i)) as [->|Hne].
    + assert (ℓ' = ℓ) as -> by congruence.
      rewrite lookup_insert_eq. simpl.
      rewrite list_lookup_insert_eq in Hy; [congruence|].
      erewrite <- Forall2_length by done. by eapply lookup_lt_Some.
    + rewrite list_lookup_insert_ne in Hy by done.
      assert (ℓ ≠ ℓ') as Hℓ.
      { intros ->. apply Hne. by eapply NoDup_lookup. }
      rewrite lookup_insert_ne by done.
      unfold holds in Hh.
      exact (Forall2_lookup_lr _ _ _ _ _ _ Hh Hj Hy).
Qed.

(** A write of a record of another kind over a record of that kind. *)
Lemma holds_other R l xs ℓ r :
  proj r = None → R !! ℓ ≫= proj = None →
  holds proj R l xs → holds proj (<[ℓ := r]> R) l xs.
Proof.
  intros Hr Hold. apply holds_ext. intros ℓ' _.
  destruct (decide (ℓ = ℓ')) as [<-|Hne].
  - rewrite lookup_insert_eq. simpl. by rewrite Hr, Hold.
  - by rewrite lookup_insert_ne.
Qed.

Lemma holds_alloc R l xs n r :
  (∀ ℓ, is_Some (R !! ℓ) → ℓ < n) →
  holds proj R l xs → holds proj (<[n := r]> R) l xs.
Proof.
  intros Hb Hh. eapply holds_ext; [|done]. intros ℓ Hin.
  rewrite lookup_insert_ne; [done|].
  intros <-. pose proof (Hb _ (holds_allocated _ _ _ _ Hh Hin)). lia.
Qed.

Lemma holds_last R l xs :
  holds proj R l xs →
  option_Forall2 (λ ℓ x, R !! ℓ ≫= proj = Some x) (last l) (last xs).
Proof.
  intros Hh. rewrite !last_lookup, <- (holds_length _ _ _ Hh).
  destruct (l !! pred (length l)) as [ℓ|] eqn:Hl.
  - destruct (holds_lookup _ _ _ _ _ Hh Hl) as (x & -> & Hx). by constructor.
  - apply lookup_ge_None in Hl. rewrite lookup_ge_None_2; [constructor|].
    rewrite <- (holds_length _ _ _ Hh). lia.
Qed.

(** Searching the addresses by what their records are is searching the
    values. *)
Lemma holds_find R l xs (P : A → Prop) `{!∀ x, Decision (P x)}
    (Q : loc → Prop) `{!∀ ℓ, Decision (Q ℓ)} :
  (∀ ℓ x, R !! ℓ ≫= proj = Some x → Q ℓ ↔ P x) →
  holds proj R l xs →
  option_Forall2 (λ a b, a.1 = b.1 ∧ R !! a.2 ≫= proj = Some b.2)
    (list_find Q l) (list_find P xs).
Proof.
  intros HPQ Hh. induction Hh as [|ℓ x l xs Hx _ IH]; simpl; [constructor|].
  pose proof (HPQ _ _ Hx) as Hiff.
  destruct (decide (Q ℓ)) as [Hq|Hq], (decide (P x)) as [Hp|Hp]; try tauto.
  - by constructor.
  - destruct IH as [[i ℓ'] [j x'] [Hij Hx']|]; simpl in *; constructor.
    simpl. split; [by f_equal|done].
Qed.

End Holds.

(** *** Reading heap objects through the entries of the heap *)

Lemma holdsMap_view R e h :
  holdsMap R e h → omap (λ ℓ, R !! ℓ ≫= asHeapObject) e = h.
Proof.
  intros Hh. apply map_eq. intros k. rewrite lookup_omap.
  specialize (Hh k). destruct Hh as [ℓ o Ho|]; simpl; done.
Qed.

Lemma holdsMap_ext R R' e h :
  (∀ k ℓ, e !! k = Some ℓ → R' !! ℓ ≫= asHeapObject = R !! ℓ ≫= asHeapObject) →
  holdsMap R e h → holdsMap R' e h.
Proof.
  intros Hsame Hh k. specialize (Hh k).
  destruct (e !! k) as [ℓ|] eqn:Hk; inversion Hh; subst; constructor.
  by rewrite (Hsame k ℓ).
Qed.

Lemma holdsMap_allocated R e h k ℓ :
  holdsMap R e h → e !! k = Some ℓ → is_Some (R !! ℓ).
Proof.
  intros Hh Hk. specialize (Hh k). rewrite Hk in Hh. inversion Hh as [? o Ho|]; subst.
  destruct (R !! ℓ); [by eexists | discriminate].
Qed.

Lemma holdsMap_alloc R e h n r :
  (∀ ℓ, is_Some (R !! ℓ) → ℓ < n) →
  holdsMap R e h → holdsMap (<[n := r]> R) e h.
Proof.
  intros Hb Hh. eapply holdsMap_ext; [|done]. intros k ℓ Hk.
  rewrite lookup_insert_ne; [done|].
  intros <-. pose proof (Hb _ (holdsMap_allocated _ _ _ _ _ Hh Hk)). lia.
Qed.

Lemma holdsMap_other R e h ℓ r :
  asHeapObject r = None → R !! ℓ ≫= asHeapObject = None →
  holdsMap R e h → holdsMap (<[ℓ := r]> R) e h.
Proof.
  intros Hr Hold. apply holdsMap_ext. intros k ℓ' _.
  destruct (decide (ℓ = ℓ')) as [<-|Hne].
  - rewrite lookup_insert_eq. simpl. by rewrite Hr, Hold.
  - by rewrite lookup_insert_ne.
Qed.

Lemma holdsMap_insert R e h k ℓ o :
  R !! ℓ ≫= asHeapObject = Some o →
  holdsMap R e h → holdsMap R (<[k := ℓ]> e) (<[k := o]> h).
Proof.
  intros Ho Hh k'. destruct (decide (k = k')) as [<-|Hne].
  - rewrite !lookup_insert_eq. by constructor.
  - rewrite !lookup_insert_ne by done. apply Hh.
Qed.

Lemma holdsMap_delete R e h k :
  holdsMap R e h → holdsMap R (delete k e) (delete k h).
Proof.
  intros Hh k'. destruct (decide (k = k')) as [<-|Hne].
  - rewrite !lookup_delete_eq. constructor.
  - rewrite !lookup_delete_ne by done. apply Hh.
Qed.

Lemma holdsMap_update R e h k ℓ o :
  (∀ k', e !! k' = Some ℓ → k' = k) → e !! k = Some ℓ →
  holdsMap R e h → holdsMap (<[ℓ := RHeapObject o]> R) e (<[k := o]> h).
Proof.
  intros Hinj Hk Hh k'. destruct (decide (k = k')) as [<-|Hne].
  - rewrite lookup_insert_eq, Hk. constructor. by rewrite lookup_insert_eq.
  - rewrite lookup_insert_ne by done. specialize (Hh k').
    destruct (e !! k') as [ℓ'|] eqn:Hk'; inversion Hh; subst; constructor.
    rewrite lookup_insert_ne; [done|]. intros <-. apply Hne. symmetry. by apply Hinj.
Qed.

(** *** Reading a container after a write *)

Lemma readArray_eq R B N r l : readArray (mkMemory R (<[r := BArray l]> B) N) r = l.
Proof. unfold readArray. simpl. by rewrite lookup_insert_eq. Qed.
Lemma readMap_eq R B N r e : readMap (mkMemory R (<[r := BMap e]> B) N) r = e.
Proof. unfold readMap. simpl. by rewrite lookup_insert_eq. Qed.
Lemma readCode_eq R B N r l : readCode (mkMemory R (<[r := BCode l]> B) N) r = l.
Proof. unfold readCode. simpl. by rewrite lookup_insert_eq. Qed.
Lemma readHandles_eq R B N r l :
  readHandles (mkMemory R (<[r := BHandles l]> B) N) r = l.
Proof. unfold readHandles. simpl. by rewrite lookup_insert_eq. Qed.

Lemma readArray_ne R B N r r' b :
  r ≠ r' → readArray (mkMemory R (<[r := b]> B) N) r' = readArray (mkMemory R B N) r'.
Proof. intros. unfold readArray. simpl. by rewrite lookup_insert_ne. Qed.
Lemma readMap_ne R B N r r' b :
  r ≠ r' → readMap (mkMemory R (<[r := b]> B) N) r' = readMap (mkMemory R B N) r'.
Proof. intros. unfold readMap. simpl. by rewrite lookup_insert_ne. Qed.
Lemma readCode_ne R B N r r' b :
  r ≠ r' → readCode (mkMemory R (<[r := b]> B) N) r' = readCode (mkMemory R B N) r'.
Proof. intros. unfold readCode. simpl. by rewrite lookup_insert_ne. Qed.
Lemma readHandles_ne R B N r r' b :
  r ≠ r' →
  readHandles (mkMemory R (<[r := b]> B) N) r' = readHandles (mkMemory R B N) r'.
Proof. intros. unfold readHandles. simpl. by rewrite lookup_insert_ne. Qed.

Lemma readArray_boxes R N m r : readArray (mkMemory R (boxes m) N) r = readArray m r.
Proof. done. Qed.
Lemma readMap_boxes R N m r : readMap (mkMemory R (boxes m) N) r = readMap m r.
Proof. done. Qed.
Lemma readCode_boxes R N m r : readCode (mkMemory R (boxes m) N) r = readCode m r.
Proof. done. Qed.
Lemma readHandles_boxes R N m r :
  readHandles (mkMemory R (boxes m) N) r = readHandles m r.
Proof. done. Qed.

(** The containers of a state object are distinct objects. *)
Lemma roots_distinct s i j x y :
  NoDup (roots s) → roots s !! i = Some x → roots s !! j = Some y → i ≠ j → x ≠ y.
Proof. intros Hnd Hi Hj Hne ->. apply Hne. by eapply NoDup_lookup. Qed.

Ltac root_index x :=
  lazymatch x with
  | o_parsedCode _ => constr:(0)
  | o_callStack _ => constr:(1)
  | o_heap _ => constr:(2)
  | o_scopes _ => constr:(3)
  | o_webAPIs _ => constr:(4)
  | o_callbackQueue _ => constr:(5)
  | o_microtaskQueue _ => constr:(6)
  | o_executionQueue _ => constr:(7)
  | o_timers _ => constr:(8)
  end.

Lemma roots_below m s i x : bounded (m, s) → roots s !! i = Some x → x < next m.
Proof.
  unfold bounded. simpl. intros Hb Hi. rewrite Forall_forall in Hb. apply Hb.
  by eapply list_elem_of_lookup_2.
Qed.

Ltac root_ne :=
  first
    [ lazymatch goal with
      | H : NoDup (roots ?s) |- ?x ≠ ?y =>
          let i := root_index x in
          let j := root_index y in
          exact (roots_distinct s i j x y H eq_refl eq_refl ltac:(lia))
      end
    | lazymatch goal with
      | H : bounded (?m, ?s) |- _ ≠ ?x =>
          let i := root_index x in
          pose proof (roots_below m s i x H eq_refl); lia
      end
    | lia ].

Ltac reads :=
  repeat first
    [ rewrite readArray_eq | rewrite readMap_eq | rewrite readCode_eq
    | rewrite readHandles_eq
    | rewrite readArray_ne by root_ne | rewrite readMap_ne by root_ne
    | rewrite readCode_ne by root_ne | rewrite readHandles_ne by root_ne ];
  rewrite ?readArray_boxes, ?readMap_boxes, ?readCode_boxes, ?readHandles_boxes.

Ltac destruct_sim H :=
  destruct H as [Hcode Hhc Hsc Hcl Hcs Hir Hip Hsp Hpc Heq Htm Hst Hss Hwa Hcq Hmq
                   Hhp Hroots Hbd Hrec Hst1 Hss1 Hhp1].

(** What is seen of a world is the state that describes it. *)
Lemma sim_view w st : sim w st → view w.1 w.2 = st.
Proof.
  intros Hsim. destruct_sim Hsim.
  destruct w as [m s], st as [? ? ? ? ? ? ? [? ? ?] ? ? ? ? ? ? ?].
  simpl in *. unfold view, frameAt, scopeAt, taskAt, heapObjectAt.
  rewrite (holds_view asFrame _ _ _ Hst).
  rewrite (holds_view asScope _ _ _ Hss).
  rewrite (holds_view asTask _ _ _ Hwa).
  rewrite (holds_view asTask _ _ _ Hcq).
  rewrite (holds_view asTask _ _ _ Hmq).
  rewrite (holdsMap_view _ _ _ Hhp).
  by subst.
Qed.

Lemma sim_initial : sim initialWorld initialState.
Proof.
  constructor; simpl; try done; try (by constructor).
  - unfold roots. simpl. by apply (bool_decide_unpack _).
  - apply AliasingFacts.initial_bounded.
  - intros ℓ [r Hr]. by rewrite lookup_empty in Hr.
Qed.

(** *** The flag of the top frame *)

Lemma setTop_cases b stack m :
  setTop b stack m = m
  ∨ ∃ top f, last stack = Some top ∧ records m !! top = Some (RFrame f)
      ∧ setTop b stack m = writeRecord top (RFrame (setActive b f)) m.
Proof.
  unfold setTop, frameAt. destruct (last stack) as [top|]; [|by left].
  destruct (records m !! top) as [[f| | |]|] eqn:Htop; simpl; try by left.
  right. by exists top, f.
Qed.

Lemma setTop_boxes b stack m : boxes (setTop b stack m) = boxes m.
Proof. destruct (setTop_cases b stack m) as [->|(? & ? & _ & _ & ->)]; done. Qed.

Lemma setTop_next b stack m : next (setTop b stack m) = next m.
Proof. destruct (setTop_cases b stack m) as [->|(? & ? & _ & _ & ->)]; done. Qed.

Lemma readArray_setTop b stack m r : readArray (setTop b stack m) r = readArray m r.
Proof. unfold readArray. by rewrite setTop_boxes. Qed.
Lemma readMap_setTop b stack m r : readMap (setTop b stack m) r = readMap m r.
Proof. unfold readMap. by rewrite setTop_boxes. Qed.
Lemma readCode_setTop b stack m r : readCode (setTop b stack m) r = readCode m r.
Proof. unfold readCode. by rewrite setTop_boxes. Qed.
Lemma readHandles_setTop b stack m r :
  readHandles (setTop b stack m) r = readHandles m r.
Proof. unfold readHandles. by rewrite setTop_boxes. Qed.

Lemma setTop_other {A} (proj : Rec → option A) b stack m l xs :
  (∀ f, proj (RFrame f) = None) →
  holds proj (records m) l xs → holds proj (records (setTop b stack m)) l xs.
Proof.
  intros Hproj Hh.
  destruct (setTop_cases b stack m) as [->|(top & f & _ & Htop & ->)]; [done|].
  simpl. apply holds_other; [apply Hproj| |done].
  rewrite Htop. apply Hproj.
Qed.

Lemma setTop_heap b stack m e h :
  holdsMap (records m) e h → holdsMap (records (setTop b stack m)) e h.
Proof.
  intros Hh.
  destruct (setTop_cases b stack m) as [->|(top & f & _ & Htop & ->)]; [done|].
  simpl. apply holdsMap_other; [done| |done]. by rewrite Htop.
Qed.

Lemma setTop_allocated b stack m n :
  (∀ ℓ, is_Some (records m !! ℓ) → ℓ < n) →
  ∀ ℓ, is_Some (records (setTop b stack m) !! ℓ) → ℓ < n.
Proof.
  intros Hb ℓ.
  destruct (setTop_cases b stack m) as [->|(top & f & _ & Htop & ->)]; [apply Hb|].
  simpl. destruct (decide (top = ℓ)) as [<-|Hne].
  - intros _. apply Hb. by eexists.
  - rewrite lookup_insert_ne by done. apply Hb.
Qed.

Lemma setTop_elsewhere b stack m ℓ :
  ℓ ∉ stack → records (setTop b stack m) !! ℓ = records m !! ℓ.
Proof.
  intros Hnin.
  destruct (setTop_cases b stack m) as [->|(top & f & Hlast & _ & ->)]; [done|].
  simpl. rewrite lookup_insert_ne; [done|]. intros ->. apply Hnin.
  apply last_Some in Hlast as [l' ->]. set_solver.
Qed.

Lemma setTopActive_insert b (fs : list Frame) f :
  last fs = Some f → setTopActive b fs = <[length fs - 1 := setActive b f]> fs.
Proof.
  intros Hlast. unfold setTopActive. destruct fs as [|f0 fs]; [done|].
  rewrite last_lookup in Hlast.
  replace (pred (length (f0 :: fs))) with (length (f0 :: fs) - 1) in Hlast by lia.
  apply list_eq. intros i.
  destruct (decide (i = length (f0 :: fs) - 1)) as [->|Hne].
  - rewrite list_lookup_alter_eq, Hlast. simpl.
    rewrite list_lookup_insert_eq; [done|]. simpl. lia.
  - rewrite list_lookup_alter_ne, list_lookup_insert_ne by done. done.
Qed.

Lemma setTop_frames b m l fs :
  NoDup l → holds asFrame (records m) l fs →
  holds asFrame (records (setTop b l m)) l (setTopActive b fs).
Proof.
  intros Hnd Hh. pose proof (holds_length _ _ _ _ Hh) as Hlen.
  destruct (last l) as [top|] eqn:Hlast.
  - pose proof Hlast as Hi. rewrite last_lookup in Hi.
    destruct (holds_lookup _ _ _ _ _ _ Hh Hi) as (f & Hf & Htop).
    unfold setTop, frameAt. rewrite Hlast, Htop. simpl.
    rewrite (setTopActive_insert b fs f).
    + replace (length fs - 1) with (pred (length l)) by lia.
      by apply holds_update.
    + rewrite last_lookup. by rewrite <- Hlen.
  - apply last_None in Hlast as ->. inversion Hh; subst.
    unfold setTop. simpl. constructor.
Qed.

(** *** Small facts about allocation *)

Lemma list_alter_const {A} (l : list A) i y : alter (λ _, y) i l = <[i := y]> l.
Proof.
  revert i. induction l as [|x l IH]; intros [|i]; simpl; try done.
  f_equal. apply IH.
Qed.

Lemma allocated_insert (R : gmap loc Rec) n r :
  (∀ ℓ, is_Some (R !! ℓ) → ℓ < n) → ∀ ℓ, is_Some (<[n := r]> R !! ℓ) → ℓ < S n.
Proof.
  intros Hb ℓ. destruct (decide (n = ℓ)) as [<-|Hne]; [lia|].
  rewrite lookup_insert_ne by done. intros H. apply Hb in H. lia.
Qed.

Lemma allocated_write (R : gmap loc Rec) n ℓ0 r :
  is_Some (R !! ℓ0) →
  (∀ ℓ, is_Some (R !! ℓ) → ℓ < n) → ∀ ℓ, is_Some (<[ℓ0 := r]> R !! ℓ) → ℓ < n.
Proof.
  intros H0 Hb ℓ. destruct (decide (ℓ0 = ℓ)) as [<-|Hne]; [intros _; by apply Hb|].
  rewrite lookup_insert_ne by done. apply Hb.
Qed.

Lemma holds_fresh {A} (proj : Rec → option A) R l xs n :
  (∀ ℓ, is_Some (R !! ℓ) → ℓ < n) → holds proj R l xs → n ∉ l.
Proof.
  intros Hb Hh Hin. pose proof (Hb _ (holds_allocated _ _ _ _ _ Hh Hin)). lia.
Qed.

Lemma holdsMap_fresh R e h n :
  (∀ ℓ, is_Some (R !! ℓ) → ℓ < n) → holdsMap R e h → ∀ k, e !! k ≠ Some n.
Proof.
  intros Hb Hh k Hk. pose proof (Hb _ (holdsMap_allocated _ _ _ _ _ Hh Hk)). lia.
Qed.

Lemma once_insert (e : gmap string loc) id n :
  (∀ k, e !! k ≠ Some n) →
  (∀ k k' ℓ, e !! k = Some ℓ → e !! k' = Some ℓ → k = k') →
  ∀ k k' ℓ, <[id := n]> e !! k = Some ℓ → <[id := n]> e !! k' = Some ℓ → k = k'.
Proof.
  intros Hfresh Hinj k k' ℓ.
  destruct (decide (id = k)) as [<-|Hk], (decide (id = k')) as [<-|Hk'];
    rewrite ?lookup_insert_eq, ?lookup_insert_ne by done; try done.
  - intros [= <-] Hn. by apply Hfresh in Hn.
  - intros Hn [= <-]. by apply Hfresh in Hn.
  - apply Hinj.
Qed.

Lemma once_delete (e : gmap string loc) id :
  (∀ k k' ℓ, e !! k = Some ℓ → e !! k' = Some ℓ → k = k') →
  ∀ k k' ℓ, delete id e !! k = Some ℓ → delete id e !! k' = Some ℓ → k = k'.
Proof.
  intros Hinj k k' ℓ Hk Hk'.
  apply lookup_delete_Some in Hk as [_ Hk], Hk' as [_ Hk']. by eapply Hinj.
Qed.

Lemma NoDup_snoc_fresh (l : list loc) n : NoDup l → n ∉ l → NoDup (l ++ [n]).
Proof.
  intros Hnd Hn. apply NoDup_app. split; [done|]. split.
  - intros x Hx Hx'. apply list_elem_of_singleton in Hx'. by subst.
  - apply NoDup_singleton.
Qed.

Lemma bounded_next m m' s s' :
  roots s' = roots s → next m ≤ next m' → bounded (m, s) → bounded (m', s').
Proof.
  unfold bounded. simpl. intros -> Hn Hb.
  eapply Forall_impl; [exact Hb|]. simpl. intros r Hr. lia.
Qed.

Ltac other_kind :=
  match goal with
  | H : ?R !! ?ℓ ≫= _ = Some _ |- ?R !! ?ℓ ≫= _ = None =>
      destruct (R !! ℓ) as [[]|]; simplify_eq/=; done
  | H : ?R !! ?ℓ = Some _ |- ?R !! ?ℓ ≫= _ = None => by rewrite H
  end.

Ltac unchanged :=
  first
    [ eassumption
    | apply holds_alloc; eassumption
    | apply holdsMap_alloc; eassumption
    | apply holds_other; [done | other_kind | eassumption]
    | apply holdsMap_other; [done | other_kind | eassumption]
    | apply allocated_insert; eassumption
    | apply allocated_write; [by eexists | eassumption]
    | eapply bounded_next; [| |eassumption]; [done | rewrite ?setTop_next; simpl; lia] ].

Lemma sim_pushCallStack id f w st :
  sim w st → sim (Aliasing.pushCallStack id f w) (applyState (OPushCallStack id f) st).
Proof.
  intros Hsim. destruct_sim Hsim. destruct w as [m s].
  unfold Aliasing.pushCallStack, allocRecord, writeBox. simpl in *.
  pose proof (holds_fresh _ _ _ _ _ Hrec Hst) as Hfresh.
  constructor; simpl;
    rewrite ?readArray_setTop, ?readMap_setTop, ?readCode_setTop, ?readHandles_setTop,
      ?setTop_boxes, ?setTop_next;
    reads; try done.
  - apply holds_snoc.
    + apply setTop_frames; [done|]. simpl. unchanged.
    + rewrite setTop_elsewhere by done. simpl. by rewrite lookup_insert_eq.
  - apply setTop_other; [done|]. simpl. unchanged.
  - apply setTop_other; [done|]. simpl. unchanged.
  - apply setTop_other; [done|]. simpl. unchanged.
  - apply setTop_other; [done|]. simpl. unchanged.
  - apply setTop_heap. simpl. unchanged.
  - unchanged.
  - apply setTop_allocated. simpl. unchanged.
  - by apply NoDup_snoc_fresh.
Qed.

Lemma sim_popCallStack w st :
  sim w st → sim (Aliasing.popCallStack w) (applyState OPopCallStack st).
Proof.
  intros Hsim. destruct_sim Hsim. destruct w as [m s].
  unfold Aliasing.popCallStack, writeBox. simpl in *.
  pose proof (holds_length _ _ _ _ Hst) as Hlen.
  assert (NoDup (take (length (readArray m (o_callStack s)) - 1)
                   (readArray m (o_callStack s)))) as Hnd.
  { eapply sublist_NoDup; [exact Hst1|]. apply sublist_take. }
  constructor; simpl;
    rewrite ?readArray_setTop, ?readMap_setTop, ?readCode_setTop, ?readHandles_setTop,
      ?setTop_boxes, ?setTop_next;
    reads; try done.
  - rewrite <- Hlen. apply setTop_frames; [done|]. simpl. by apply holds_take.
  - by apply setTop_other.
  - by apply setTop_other.
  - by apply setTop_other.
  - by apply setTop_other.
  - by apply setTop_heap.
  - unchanged.
  - by apply setTop_allocated.
Qed.

Lemma sim_updateFrameVariable n v t w st :
  sim w st →
  sim (Aliasing.updateFrameVariable n v t w) (applyState (OUpdateFrameVariable n v t) st).
Proof.
  intros Hsim. pose proof Hsim as Hsim'. destruct_sim Hsim. destruct w as [m s].
  unfold Aliasing.updateFrameVariable, applyState, StateManager.apply,
    StateManager.updateFrameVariable, frameAt, writeRecord. simpl in *.
  pose proof (holds_length _ _ _ _ Hst) as Hlen.
  pose proof (holds_last _ _ _ _ Hst) as Hlast.
  inversion Hlast as [top f Htop Hl Hf|Hl Hf]; [|done].
  assert (readArray m (o_callStack s) !! (length (callStack st) - 1) = Some top) as Hi.
  { rewrite <- Hlen. replace (length (readArray m (o_callStack s)) - 1)
      with (pred (length (readArray m (o_callStack s)))) by lia.
    rewrite <- last_lookup. done. }
  rewrite Htop. simpl.
  constructor; simpl; reads; try done; try unchanged.
  - rewrite list_alter_const. by apply holds_update.
  - apply allocated_write; [|done]. destruct (records m !! top); [by eexists|done].
Qed.

Lemma sim_allocateHeap now t v r w st :
  sim w st →
  sim (Aliasing.allocateHeap now t v r w) (applyState (OAllocateHeap now t v r) st).
Proof.
  intros Hsim. destruct_sim Hsim. destruct w as [m s].
  unfold Aliasing.allocateHeap, applyState, StateManager.apply,
    StateManager.allocateHeap, allocRecord, writeBox. simpl in *.
  pose proof (holdsMap_fresh _ _ _ _ Hrec Hhp) as Hfresh.
  rewrite <- Hhc.
  destruct r as [r0|]; [destruct (bool_decide (r0 = ""))|]; simpl;
    (constructor; simpl; reads; try done; try unchanged; try congruence;
     [ apply holdsMap_insert; [by rewrite lookup_insert_eq | unchanged]
     | by apply once_insert ]).
Qed.

Lemma sim_addHeapReference f t w st :
  sim w st →
  sim (Aliasing.addHeapReference f t w) (applyState (OAddHeapReference f t) st).
Proof.
  intros Hsim. pose proof Hsim as Hsim'. destruct_sim Hsim. destruct w as [m s].
  unfold Aliasing.addHeapReference, applyState, StateManager.apply,
    StateManager.addHeapReference, heapObjectAt, writeRecord. simpl in *.
  pose proof (Hhp f) as Hf.
  inversion Hf as [ℓ o Ho Hl Hh|Hl Hh]; [|done].
  rewrite Ho. simpl.
  destruct (bool_decide (t ∈ ho_references o)); [done|]. simpl.
  constructor; simpl; reads; try done; try unchanged.
  - apply holdsMap_update; [|done|done].
    intros k' Hk'. by eapply Hhp1.
  - apply allocated_write; [|done]. destruct (records m !! ℓ); [by eexists|done].
Qed.

Lemma sim_deallocateHeap id w st :
  sim w st → sim (Aliasing.deallocateHeap id w) (applyState (ODeallocateHeap id) st).
Proof.
  intros Hsim. pose proof Hsim as Hsim'. destruct_sim Hsim. destruct w as [m s].
  unfold Aliasing.deallocateHeap, applyState, StateManager.apply,
    StateManager.deallocateHeap, writeBox. simpl in *.
  pose proof (Hhp id) as Hf.
  inversion Hf as [ℓ o Ho Hl Hh|Hl Hh]; [|done]. simpl.
  constructor; simpl; reads; try done; try unchanged.
  - by apply holdsMap_delete.
  - by apply once_delete.
Qed.

Lemma sim_createScope now n t p w st :
  sim w st →
  sim (Aliasing.createScope now n t p w) (applyState (OCreateScope now n t p) st).
Proof.
  intros Hsim. destruct_sim Hsim. destruct w as [m s].
  unfold Aliasing.createScope, applyState, StateManager.apply,
    StateManager.createScope, allocRecord, writeBox. simpl in *.
  pose proof (holds_fresh _ _ _ _ _ Hrec Hss) as Hfresh.
  rewrite <- Hsc.
  constructor; simpl; reads; try done; try unchanged; try congruence.
  - apply holds_snoc; [unchanged|]. by rewrite lookup_insert_eq.
  - by apply NoDup_snoc_fresh.
Qed.

(** *** Finding a scope, finding a task *)

Lemma findScopeAt_holds m k l ss :
  holds asScope (records m) l ss →
  option_Forall2 (λ a b, a.1 = b.1 ∧ records m !! a.2 ≫= asScope = Some b.2)
    (findScopeAt m k l) (findScope k ss).
Proof.
  intros Hh. unfold findScopeAt, findScope. destruct k as [k|]; [|constructor].
  apply holds_find; [|done]. intros ℓ x Hx. unfold scopeAt. rewrite Hx. simpl.
  split; congruence.
Qed.

Lemma findTask_holds m id l ts :
  holds asTask (records m) l ts →
  option_Forall2 (λ a b, a.1 = b.1 ∧ records m !! a.2 ≫= asTask = Some b.2)
    (list_find (λ ℓ, (task_id <$> taskAt m ℓ) = Some id) l)
    (list_find (λ t, task_id t = id) ts).
Proof.
  intros Hh. apply holds_find; [|done]. intros ℓ x Hx. unfold taskAt. rewrite Hx.
  simpl. split; congruence.
Qed.

Lemma sim_addScopeVariable k n v t d w st :
  sim w st →
  sim (Aliasing.addScopeVariable k n v t d w) (applyState (OAddScopeVariable k n v t d) st).
Proof.
  intros Hsim. pose proof Hsim as Hsim'. destruct_sim Hsim. destruct w as [m s].
  unfold Aliasing.addScopeVariable, applyState, StateManager.apply,
    StateManager.addScopeVariable, scopeAt, writeRecord. simpl in *.
  pose proof (findScopeAt_holds m k _ _ Hss) as Hfind.
  inversion Hfind as [[i ℓ] [j sc] [Hij Hsc'] Hl Hr|Hl Hr]; [|done].
  simpl in *. subst j. rewrite Hsc'. simpl.
  assert (readArray m (o_scopes s) !! i = Some ℓ) as Hi.
  { symmetry in Hl. unfold findScopeAt in Hl. destruct k; [|done].
    by apply list_find_Some in Hl as [? _]. }
  constructor; simpl; reads; try done; try unchanged.
  - by apply holds_update.
  - apply allocated_write; [|done]. destruct (records m !! ℓ); [by eexists|done].
Qed.

Lemma sim_updateScopeVariable k n v w st :
  sim w st →
  sim (Aliasing.updateScopeVariable k n v w) (applyState (OUpdateScopeVariable k n v) st).
Proof.
  intros Hsim. pose proof Hsim as Hsim'. destruct_sim Hsim. destruct w as [m s].
  unfold Aliasing.updateScopeVariable, applyState, StateManager.apply,
    StateManager.updateScopeVariable, scopeAt, writeRecord. simpl in *.
  pose proof (findScopeAt_holds m k _ _ Hss) as Hfind.
  inversion Hfind as [[i ℓ] [j sc] [Hij Hsc'] Hl Hr|Hl Hr]; [|done].
  simpl in *. subst j. rewrite Hsc'. simpl.
  assert (readArray m (o_scopes s) !! i = Some ℓ) as Hi.
  { symmetry in Hl. unfold findScopeAt in Hl. destruct k; [|done].
    by apply list_find_Some in Hl as [? _]. }
  destruct (scope_variables sc !! n) as [var|]; [|done]. simpl.
  constructor; simpl; reads; try done; try unchanged.
  - by apply holds_update.
  - apply allocated_write; [|done]. destruct (records m !! ℓ); [by eexists|done].
Qed.

Lemma sim_destroyScope k w st :
  sim w st → sim (Aliasing.destroyScope k w) (applyState (ODestroyScope k) st).
Proof.
  intros Hsim. pose proof Hsim as Hsim'. destruct_sim Hsim. destruct w as [m s].
  unfold Aliasing.destroyScope, applyState, StateManager.apply,
    StateManager.destroyScope, writeBox. simpl in *.
  pose proof (findScopeAt_holds m k _ _ Hss) as Hfind.
  inversion Hfind as [[i ℓ] [j sc] [Hij Hsc'] Hl Hr|Hl Hr]; [|done].
  simpl in *. subst j.
  constructor; simpl; reads; try done; try unchanged.
  - by apply holds_delete.
  - eapply sublist_NoDup; [exact Hss1|]. apply sublist_delete.
Qed.

Lemma sim_addToWebAPI id now t w st :
  sim w st → sim (Aliasing.addToWebAPI id now t w) (applyState (OAddToWebAPI id now t) st).
Proof.
  intros Hsim. destruct_sim Hsim. destruct w as [m s].
  unfold Aliasing.addToWebAPI, applyState, StateManager.apply,
    StateManager.addToWebAPI, allocRecord, writeBox. simpl in *.
  constructor; simpl; reads; try done; try unchanged.
  apply holds_snoc; [unchanged|]. by rewrite lookup_insert_eq.
Qed.

Lemma sim_addToMicrotaskQueue id t w st :
  sim w st →
  sim (Aliasing.addToMicrotaskQueue id t w) (applyState (OAddToMicrotaskQueue id t) st).
Proof.
  intros Hsim. destruct_sim Hsim. destruct w as [m s].
  unfold Aliasing.addToMicrotaskQueue, applyState, StateManager.apply,
    StateManager.addToMicrotaskQueue, allocRecord, writeBox. simpl in *.
  constructor; simpl; reads; try done; try unchanged.
  apply holds_snoc; [unchanged|]. by rewrite lookup_insert_eq.
Qed.

Lemma sim_moveToCallbackQueue id w st :
  sim w st →
  sim (Aliasing.moveToCallbackQueue id w) (applyState (OMoveToCallbackQueue id) st).
Proof.
  intros Hsim. pose proof Hsim as Hsim'. destruct_sim Hsim. destruct w as [m s].
  unfold Aliasing.moveToCallbackQueue, applyState, StateManager.apply,
    StateManager.moveToCallbackQueue, writeBox. simpl in *.
  pose proof (findTask_holds m id _ _ Hwa) as Hfind.
  inversion Hfind as [[i ℓ] [j task] [Hij Htask] Hl Hr|Hl Hr]; [|done].
  simpl in *. subst j.
  constructor; simpl; reads; try done; try unchanged.
  - by apply holds_delete.
  - by apply holds_snoc.
Qed.

Lemma sim_processNextMicrotask w st :
  sim w st → sim (Aliasing.processNextMicrotask w) (applyState OProcessNextMicrotask st).
Proof.
  intros Hsim. pose proof Hsim as Hsim'. destruct_sim Hsim. destruct w as [m s].
  unfold Aliasing.processNextMicrotask, applyState, StateManager.apply,
    StateManager.processNextMicrotask, writeBox. simpl in *.
  inversion Hmq as [|ℓ t l q Ht Hq Hl Hr]; [done|]. simpl.
  constructor; simpl; reads; try done; try unchanged.
Qed.

Lemma sim_processNextCallback w st :
  sim w st → sim (Aliasing.processNextCallback w) (applyState OProcessNextCallback st).
Proof.
  intros Hsim. pose proof Hsim as Hsim'. destruct_sim Hsim. destruct w as [m s].
  unfold Aliasing.processNextCallback, applyState, StateManager.apply,
    StateManager.processNextCallback, writeBox. simpl in *.
  inversion Hcq as [|ℓ t l q Ht Hq Hl Hr]; [done|]. simpl.
  constructor; simpl; reads; try done; try unchanged.
Qed.

Lemma sim_addTimer id w st :
  sim w st → sim (Aliasing.addTimer id w) (applyState (OAddTimer id) st).
Proof.
  intros Hsim. destruct_sim Hsim. destruct w as [m s].
  unfold Aliasing.addTimer, applyState, StateManager.apply,
    StateManager.addTimer, writeBox. simpl in *.
  constructor; simpl; reads; try done; try unchanged.
  by rewrite Htm.
Qed.

Lemma sim_setParsedCode p w st :
  sim w st → sim (Aliasing.setParsedCode p w) (applyState (OSetParsedCode p) st).
Proof.
  intros Hsim. destruct_sim Hsim. destruct w as [m s].
  unfold Aliasing.setParsedCode, applyState, StateManager.apply,
    StateManager.setParsedCode, allocBox. simpl in *.
  assert (Forall (λ r, r < next m) (roots s)) as Hlt by exact Hbd.
  unfold roots in Hroots, Hlt. apply NoDup_cons in Hroots as [_ Hroots].
  apply Forall_cons in Hlt as [_ Hlt].
  constructor; simpl; reads; try done; try unchanged.
  - unfold roots. simpl. apply NoDup_cons_2; [|done].
    intros Hin. rewrite Forall_forall in Hlt. apply Hlt in Hin. lia.
  - unfold bounded, roots. simpl. apply Forall_cons_2; [lia|].
    eapply Forall_impl; [exact Hlt|]. simpl. intros r Hr. lia.
  - intros ℓ Hℓ. apply Hrec in Hℓ. lia.
Qed.

Lemma sim_reset w st : sim w st → sim (Aliasing.reset w) (applyState OReset st).
Proof.
  intros Hsim. destruct_sim Hsim. destruct w as [m s].
  unfold Aliasing.reset, applyState, StateManager.apply, StateManager.reset.
  simpl in *.
  constructor; simpl; reads; try done; try (by constructor).
  - unfold roots. simpl.
    repeat (apply NoDup_cons_2;
            [rewrite ?not_elem_of_cons; repeat split; try lia; apply not_elem_of_nil|]).
    apply NoDup_nil_2.
  - unfold bounded, roots. simpl.
    repeat (apply Forall_cons_2; [lia|]). apply Forall_nil_2.
  - intros ℓ Hℓ. apply Hrec in Hℓ. lia.
Qed.

Lemma sim_scalar op w st :
  match op with
  | OSetCode _ | OSetCurrentLine _ | OIncrementStep | OSetExecutionState _ _
  | OSetSpeed _ | OLogConsole _ _ _ => True
  | _ => False
  end →
  sim w st → sim (Aliasing.apply op w) (applyState op st).
Proof.
  intros Hop Hsim. destruct_sim Hsim. destruct w as [m s].
  destruct op; try done; constructor; simpl in *; try done; congruence.
Qed.

(** *** Every operation, every session *)

(** An operation takes a world described by a state to a world described
    by the state the value model computes. *)
Lemma sim_apply op w st :
  sim w st → sim (Aliasing.apply op w) (applyState op st).
Proof.
  intros Hsim. destruct op; try (by apply sim_scalar); simpl.
  - by apply sim_setParsedCode.
  - by apply sim_pushCallStack.
  - by apply sim_popCallStack.
  - by apply sim_updateFrameVariable.
  - by apply sim_allocateHeap.
  - by apply sim_addHeapReference.
  - by apply sim_deallocateHeap.
  - by apply sim_createScope.
  - by apply sim_addScopeVariable.
  - by apply sim_updateScopeVariable.
  - by apply sim_destroyScope.
  - by apply sim_addToWebAPI.
  - by apply sim_moveToCallbackQueue.
  - by apply sim_addToMicrotaskQueue.
  - by apply sim_processNextMicrotask.
  - by apply sim_processNextCallback.
  - by apply sim_addTimer.
  - by apply sim_reset.
Qed.

Lemma sim_run ops w σ :
  sim w (state σ) → sim (Aliasing.run ops w) (state (StateManager.run ops σ)).
Proof.
  revert w σ. induction ops as [|op ops IH]; intros w σ Hsim; [done|].
  simpl. apply IH. rewrite apply_state. by apply sim_apply.
Qed.

(** X2. After any session from load time, what a reader of the store's own
    state object sees, following every address, is the state of the value
    model after the same session. *)
Theorem object_graph_refines_value_model ops :
  view (Aliasing.run ops initialWorld).1 (Aliasing.run ops initialWorld).2
  = state (StateManager.run ops initialStore).
Proof. apply sim_view. apply sim_run. exact sim_initial. Qed.

End RefinementFacts.
(* ===================================================================== *)
(** ** Theorems: sessions of the store *)
(* ===================================================================== *)

Module SessionFacts.
Import StateManager Executor Sessions.

(** *** Scopes *)

Lemma filter_all {A} (P : A → Prop) `{!∀ x, Decision (P x)} (l : list A) :
  Forall P l → filter P l = l.
Proof.
  induction 1 as [|x l Hx _ IH]; [done|].
  rewrite filter_cons_True by done. by rewrite IH.
Qed.

Lemma delete_first_match {A B} `{EqDecision B} (f : A → B) (b : B) (l : list A) i a :
  NoDup (f <$> l) →
  list_find (λ x, f x = b) l = Some (i, a) →
  delete i l = filter (λ x, f x ≠ b) l.
Proof.
  revert i. induction l as [|x l IH]; intros i Hnd Hfind; [done|].
  simpl in Hnd. apply NoDup_cons in Hnd as [Hx Hnd].
  simpl in Hfind. destruct (decide (f x = b)) as [Hb|Hb].
  - injection Hfind as <- <-. simpl.
    rewrite filter_cons_False by (intros H; by apply H).
    symmetry. apply filter_all. apply Forall_forall. intros y Hy Hyb.
    apply Hx. rewrite Hb, <- Hyb. by apply list_elem_of_fmap_2.
  - destruct (list_find (λ x, f x = b) l) as [[j y]|] eqn:Hl; [|done].
    simpl in Hfind. injection Hfind as <- <-. simpl.
    rewrite filter_cons_True by done. f_equal. by apply IH.
Qed.

Lemma no_match_filter {A B} `{EqDecision B} (f : A → B) (b : B) (l : list A) :
  list_find (λ x, f x = b) l = None → filter (λ x, f x ≠ b) l = l.
Proof.
  intros Hnone. apply filter_all. apply Forall_forall. intros y Hy Hyb.
  apply list_find_None in Hnone. rewrite Forall_forall in Hnone.
  by apply (Hnone y Hy).
Qed.

Lemma session_scopesNumbered ops : scopesNumbered (StateManager.run ops initialStore).
Proof.
  apply (StoreFacts.run_invariant scopesNumbered).
  - split; constructor.
  - apply StoreFacts.apply_scopesNumbered.
Qed.

Lemma destroyScope_filter (scopeId : option string) (σ : Store) :
  NoDup (scope_id <$> scopes (state σ)) →
  scopes (state (destroyScope scopeId σ))
  = filter (λ s, Some (scope_id s) ≠ scopeId) (scopes (state σ)).
Proof.
  intros Hnd. unfold destroyScope, findScope. destruct scopeId as [id|].
  - assert (Hsame : filter (λ s, Some (scope_id s) ≠ Some id) (scopes (state σ))
                    = filter (λ s, scope_id s ≠ id) (scopes (state σ))).
    { apply list_filter_iff. intros s. split; intros H; congruence. }
    rewrite Hsame.
    destruct (list_find (λ s, scope_id s = id) (scopes (state σ))) as [[i s]|] eqn:Hf.
    + simpl. by eapply (delete_first_match scope_id).
    + symmetry. by apply (no_match_filter scope_id).
  - symmetry. apply filter_all. apply Forall_forall. by intros s _.
Qed.

(** X3. In every session from load time, [destroyScope(id)] leaves exactly the
    live scopes whose identity is not [id], in their order; with [null] for
    an identity nothing is removed. *)
Theorem destroyScope_removes_the_scope (ops : list Op) (scopeId : option string) :
  let σ := StateManager.run ops initialStore in
  scopes (state (destroyScope scopeId σ))
  = filter (λ s, Some (scope_id s) ≠ scopeId) (scopes (state σ)).
Proof.
  intros σ. apply destroyScope_filter. apply (session_scopesNumbered ops).
Qed.

Lemma insert_snoc {A} (l : list A) (x y : A) : <[length l := y]> (l ++ [x]) = l ++ [y].
Proof.
  rewrite insert_app_r_alt by lia. by rewrite Nat.sub_diag.
Qed.

Lemma findScope_last (ss : list Scope) (s : Scope) :
  NoDup (scope_id <$> (ss ++ [s])) →
  findScope (Some (scope_id s)) (ss ++ [s]) = Some (length ss, s).
Proof.
  intros Hnd. unfold findScope. apply list_find_Some. split; [|split; [done|]].
  - by apply list_lookup_middle.
  - intros j y Hj Hlt Hid.
    rewrite lookup_app_l in Hj by done.
    rewrite fmap_app in Hnd. apply NoDup_app in Hnd as (_ & Hdis & _).
    apply (Hdis (scope_id y)).
    + apply list_elem_of_fmap_2. by eapply list_elem_of_lookup_2.
    + rewrite Hid. simpl. apply list_elem_of_here.
Qed.

Lemma addScopeVariable_lookup (σ : Store) (name : string) (value : Value)
    (varType declarationType : string) :
  NoDup (scope_id <$> scopes (state σ)) →
  scopes (state σ) ≠ [] →
  lookupVariable name
    (addScopeVariable (getCurrentScopeId σ) name value varType declarationType σ)
  = value.
Proof.
  intros Hnd Hne.
  destruct (scopes (state σ)) as [|s0 ss0 _] eqn:Hss using rev_ind; [done|].
  unfold getCurrentScopeId, getState. rewrite Hss, last_snoc. simpl.
  unfold addScopeVariable. rewrite Hss, (findScope_last _ _ Hnd).
  unfold lookupVariable, getState. simpl.
  rewrite insert_snoc, ExecutorFacts.lookupLoop_snoc. simpl.
  by rewrite lookup_insert_eq.
Qed.

(** X4. In every session from load time with a live scope: a variable added
    to the current scope is what a lookup of the name then yields, whatever
    the outer scopes bind. *)
Theorem added_variable_is_looked_up (ops : list Op) (name : string) (value : Value)
    (varType declarationType : string) :
  let σ := StateManager.run ops initialStore in
  scopes (state σ) ≠ [] →
  lookupVariable name
    (addScopeVariable (getCurrentScopeId σ) name value varType declarationType σ)
  = value.
Proof.
  intros σ Hne. apply addScopeVariable_lookup; [|done].
  apply (session_scopesNumbered ops).
Qed.

(** *** The task queues *)

(** X5. [moveToCallbackQueue(id)] moves the first Web-API task with the
    identity to the end of the callback queue and touches no other task:
    the tasks of the two collections together are the same before and
    after, the callback queue only grows at its end, the microtask queue
    is as before; with no such task the store is left as it is. *)
Theorem moveToCallbackQueue_moves_one_task (taskId : Z) (σ : Store) :
  let e := eventLoop (state σ) in
  let e' := eventLoop (state (moveToCallbackQueue taskId σ).2) in
  webAPIs e' ++ callbackQueue e' ≡ₚ webAPIs e ++ callbackQueue e
  ∧ microtaskQueue e' = microtaskQueue e
  ∧ match (moveToCallbackQueue taskId σ).1 with
    | Some task =>
        task_id task = taskId
        ∧ callbackQueue e' = callbackQueue e ++ [task]
        ∧ ∃ i, webAPIs e !! i = Some task
               ∧ webAPIs e' = delete i (webAPIs e)
               ∧ ∀ j t, webAPIs e !! j = Some t → j < i → task_id t ≠ taskId
    | None =>
        (moveToCallbackQueue taskId σ).2 = σ
        ∧ Forall (λ t, task_id t ≠ taskId) (webAPIs e)
    end.
Proof.
  intros e e'. subst e'. unfold moveToCallbackQueue. fold e.
  destruct (list_find (λ t, task_id t = taskId) (webAPIs e)) as [[i task]|] eqn:Hf; simpl.
  - apply list_find_Some in Hf as (Hi & Hid & Hfirst).
    split; [|split; [done|]].
    + rewrite (delete_Permutation (webAPIs e) i task Hi) at 2.
      rewrite (assoc_L (++)), <- Permutation_cons_append. done.
    + split; [done|]. split; [done|]. exists i. done.
  - apply list_find_None in Hf. done.
Qed.

Lemma run_app ops1 ops2 σ :
  StateManager.run (ops1 ++ ops2) σ = StateManager.run ops2 (StateManager.run ops1 σ).
Proof. unfold StateManager.run. by rewrite foldl_app. Qed.

Lemma enqueue_all items σ :
  eventLoop (state (StateManager.run (enqueue <$> items) σ))
  = set_microtaskQueue
      (microtaskQueue (eventLoop (state σ)) ++ (microTask <$> items))
      (eventLoop (state σ)).
Proof.
  revert σ. induction items as [|item items IH]; intros σ.
  - simpl. rewrite app_nil_r. by destruct (eventLoop (state σ)).
  - simpl. rewrite IH. simpl. by rewrite <- (assoc_L (++)).
Qed.

Lemma dequeue_some k σ :
  microtaskQueue
    (eventLoop (state (StateManager.run (replicate k OProcessNextMicrotask) σ)))
  = drop k (microtaskQueue (eventLoop (state σ))).
Proof.
  revert σ. induction k as [|k IH]; intros σ; [done|].
  simpl. rewrite IH. unfold processNextMicrotask.
  destruct (microtaskQueue (eventLoop (state σ))) as [|t q] eqn:Hq; simpl; [|done].
  by rewrite Hq, drop_nil.
Qed.

(** X6. The microtask queue is first in, first out: once tasks are added to
    an empty queue, the k-th [processNextMicrotask] that follows hands out
    the k-th task added, and [null] once they are used up. *)
Theorem microtasks_leave_in_arrival_order
    (items : list (Z * TaskInit)) (k : nat) (σ : Store) :
  microtaskQueue (eventLoop (state σ)) = [] →
  (processNextMicrotask
     (StateManager.run (replicate k OProcessNextMicrotask)
        (StateManager.run (enqueue <$> items) σ))).1
  = (microTask <$> items) !! k.
Proof.
  intros Hempty.
  assert (Hq : microtaskQueue
                 (eventLoop (state (StateManager.run (replicate k OProcessNextMicrotask)
                                      (StateManager.run (enqueue <$> items) σ))))
               = drop k (microTask <$> items)).
  { rewrite dequeue_some, enqueue_all, Hempty. done. }
  unfold processNextMicrotask. rewrite Hq.
  replace ((microTask <$> items) !! k) with (drop k (microTask <$> items) !! 0)
    by (by rewrite lookup_drop, Nat.add_0_r).
  by destruct (drop k (microTask <$> items)).
Qed.

(** *** The console and the timers *)

Lemma apply_consoleEntries op σ :
  consoleEntries (StateManager.apply op σ) = consoleEntries σ ++ loggedBy [op].
Proof.
  unfold consoleEntries, loggedBy.
  destruct op; StoreFacts.unfold_ops; simpl; repeat case_match; simplify_eq/=;
    rewrite ?omap_app; simpl; rewrite ?app_nil_r; done.
Qed.

(** X7. The console is written by [logConsole] and by nothing else: over any
    session the console notifications sent are those the session asked for
    with [logConsole], in order. No other operation sends one, and
    [reset] does not announce the console as cleared. *)
Theorem console_written_by_logConsole_only (ops : list Op) (σ : Store) :
  consoleEntries (StateManager.run ops σ) = consoleEntries σ ++ loggedBy ops.
Proof.
  revert σ. induction ops as [|op ops IH]; intros σ; [by rewrite app_nil_r|].
  simpl. rewrite IH, apply_consoleEntries. rewrite <- (assoc_L (++)). f_equal.
  unfold loggedBy. by destruct op.
Qed.

Lemma apply_timers op σ :
  cancelled (StateManager.apply op σ) ++ timers (state (StateManager.apply op σ))
  = (cancelled σ ++ timers (state σ)) ++ registeredBy [op].
Proof.
  unfold registeredBy.
  destruct op; StoreFacts.unfold_ops; simpl; repeat case_match; simplify_eq/=;
    rewrite ?app_nil_r, ?(assoc_L (++)); done.
Qed.

(** X8. No timer handle is lost and none is cleared twice: at any point of a
    session from load time, the handles already given to [clearTimeout]
    followed by the handles still tracked are the handles registered with
    [addTimer], each once, in the order of registration. *)
Theorem timers_cleared_once_in_order (ops : list Op) :
  let σ := StateManager.run ops initialStore in
  cancelled σ ++ timers (state σ) = registeredBy ops.
Proof.
  simpl.
  assert (H : ∀ σ, cancelled (StateManager.run ops σ)
                   ++ timers (state (StateManager.run ops σ))
                 = (cancelled σ ++ timers (state σ)) ++ registeredBy ops).
  { induction ops as [|op ops IH]; intros σ; [by rewrite app_nil_r|].
    simpl. rewrite IH, apply_timers. rewrite <- (assoc_L (++)). f_equal.
    unfold registeredBy. by destruct op. }
  by rewrite H.
Qed.

(** *** Operations that undo each other *)

Lemma setActive_same b f : frame_isActive f = b → setActive b f = f.
Proof. intros <-. by destruct f. Qed.

Lemma setTopActive_undo (stack : list Frame) :
  topOnlyActive stack → setTopActive true (setTopActive false stack) = stack.
Proof.
  intros Htop. apply list_eq. intros i.
  rewrite StoreFacts.lookup_setTopActive, StoreFacts.length_setTopActive.
  rewrite StoreFacts.lookup_setTopActive.
  case_bool_decide as Hi; [|done].
  destruct (stack !! i) as [f|] eqn:Hf; [|done]. simpl.
  pose proof (Htop i f Hf) as Hact. rewrite bool_decide_eq_true_2 in Hact by done.
  f_equal. destruct f. simpl in *. by subst.
Qed.

(** X9. In every session from load time a pop undoes a push: [popCallStack]
    right after [pushCallStack] hands back the frame that was pushed and
    leaves the call stack exactly as it was before the push, the previous
    top frame active again. *)
Theorem pop_undoes_push (ops : list Op) (id : Z) (frame : FrameInit) :
  let σ := StateManager.run ops initialStore in
  let pushed := pushCallStack id frame σ in
  let popped := popCallStack pushed.2 in
  popped.1 = Some pushed.1
  ∧ frame_isActive pushed.1 = true
  ∧ callStack (state popped.2) = callStack (state σ).
Proof.
  intros σ pushed popped. subst pushed popped.
  pose proof (StoreFacts.session_top_frame_active ops) as Htop. fold σ in Htop.
  unfold popCallStack, pushCallStack. simpl.
  split; [by rewrite last_snoc|]. split; [done|].
  rewrite length_app, StoreFacts.length_setTopActive. simpl.
  replace (length (callStack (state σ)) + 1 - 1) with
    (length (setTopActive false (callStack (state σ))))
    by (rewrite StoreFacts.length_setTopActive; lia).
  rewrite take_app_length. by apply setTopActive_undo.
Qed.

(** X10. In every session from load time destroying a scope right after
    creating it leaves the live scopes exactly as they were before. *)
Theorem destroy_undoes_create (ops : list Op) (now : Z) (name type : string)
    (parentId : option string) :
  let σ := StateManager.run ops initialStore in
  let created := createScope now name type parentId σ in
  scopes (state (destroyScope (Some (scope_id created.1)) created.2))
  = scopes (state σ).
Proof.
  intros σ created.
  destruct (StoreFacts.apply_scopesNumbered (OCreateScope now name type parentId) σ
              (session_scopesNumbered ops)) as [Hnd _].
  change (StateManager.apply (OCreateScope now name type parentId) σ)
    with created.2 in Hnd.
  rewrite (destroyScope_filter _ _ Hnd).
  subst created. unfold createScope in *. simpl in *.
  rewrite fmap_app in Hnd. apply NoDup_app in Hnd as (_ & Hdis & _).
  rewrite filter_app, filter_cons_False, filter_nil, app_nil_r.
  - apply filter_all. apply Forall_forall. intros s Hs [= Hid].
    apply (Hdis (scope_id s)); [by apply list_elem_of_fmap_2|].
    rewrite Hid. apply list_elem_of_here.
  - intros H. by apply H.
Qed.

(** *** The heap *)

(** X11. In every session from load time each heap object is stored under its
    own identity: the key of an entry of the heap [Map] is the [id] of the
    object found there. *)
Theorem heap_objects_stored_under_their_id (ops : list Op) (key : string)
    (obj : HeapObject) :
  heap (state (StateManager.run ops initialStore)) !! key = Some obj →
  ho_id obj = key.
Proof.
  revert key obj.
  apply (StoreFacts.run_invariant
           (λ σ, ∀ key obj, heap (state σ) !! key = Some obj → ho_id obj = key)).
  - intros key obj H. simpl in H. by rewrite lookup_empty in H.
  - intros op σ Hinv key obj.
    destruct (touchesHeap op) eqn:Ht.
    2:{ rewrite (proj1 (StoreFacts.apply_heap op σ Ht)). apply Hinv. }
    destruct op; try discriminate Ht; simpl.
    + unfold allocateHeap.
      repeat case_match; simplify_eq/=;
        (intros [[<- <-]|[_ H]]%lookup_insert_Some; [done|by apply Hinv]).
    + unfold addHeapReference.
      destruct (heap (state σ) !! fromId) as [o|] eqn:Ho; [|apply Hinv].
      destruct (bool_decide (toId ∈ ho_references o)); [apply Hinv|]. simpl.
      intros [[<- <-]|[_ H]]%lookup_insert_Some; [|by apply Hinv].
      simpl. by apply Hinv.
    + unfold deallocateHeap.
      destruct (heap (state σ) !! id) as [o|] eqn:Ho; [|apply Hinv]. simpl.
      intros [_ H]%lookup_delete_Some. by apply Hinv.
    + simpl. intros H. by rewrite lookup_empty in H.
Qed.

(** *** The statements with a premise, at concrete sessions *)

(** A function scope inside the global scope, both binding [x]: the value
    added to the function scope is the one read. *)
Lemma added_variable_is_looked_up_witness :
  let σ :=
    StateManager.run
      [ OCreateScope 0 "Global" "global" None;
        OAddScopeVariable (Some "scope_1") "x" (VNumber 1) "number" "var";
        OCreateScope 1 "f" "function" (Some "scope_1") ]
      initialStore in
  scopes (state σ) ≠ []
  ∧ lookupVariable "x"
      (addScopeVariable (getCurrentScopeId σ) "x" (VNumber 2) "number" "let" σ)
    = VNumber 2.
Proof.
  intros σ.
  assert (Hne : scopes (state σ) ≠ []) by (vm_compute; discriminate).
  split; [exact Hne|].
  exact (added_variable_is_looked_up _ "x" (VNumber 2) "number" "let" Hne).
Defined.

(** Three microtasks added after load: the second [processNextMicrotask]
    after the first one hands out the second task. *)
Lemma microtasks_leave_in_arrival_order_witness :
  let items :=
    [ (1%Z, mkTaskInit "Promise.then" "a()" 0 "");
      (2%Z, mkTaskInit "Promise.then" "b()" 0 "");
      (3%Z, mkTaskInit "Promise.then" "c()" 0 "") ] in
  microtaskQueue (eventLoop (state initialStore)) = []
  ∧ (processNextMicrotask
       (StateManager.run (replicate 1 OProcessNextMicrotask)
          (StateManager.run (enqueue <$> items) initialStore))).1
    = Some (mkTask 2 "Promise.then" "b()" None None "microtask").
Proof.
  intros items. split; [reflexivity|].
  exact (microtasks_leave_in_arrival_order items 1 initialStore eq_refl).
Defined.

(** An object allocated under the store's numbering and one under an
    identity of the caller's. *)
Lemma heap_objects_stored_under_their_id_witness :
  let ops :=
    [ OAllocateHeap 0 "object" (VObject []) None;
      OAllocateHeap 1 "array" (VArray []) (Some "mine") ] in
  heap (state (StateManager.run ops initialStore)) !! "mine"
  = Some (mkHeapObject "mine" "array" (VArray []) [] 1)
  ∧ ho_id (mkHeapObject "mine" "array" (VArray []) [] 1) = "mine".
Proof.
  intros ops.
  assert (H : heap (state (StateManager.run ops initialStore)) !! "mine"
              = Some (mkHeapObject "mine" "array" (VArray []) [] 1))
    by (vm_compute; reflexivity).
  split; [exact H|].
  exact (heap_objects_stored_under_their_id ops "mine" _ H).
Defined.

End SessionFacts.

(* ===================================================================== *)
(** ** Theorems: the other functions of the parser module *)
(* ===================================================================== *)

Module TranslatorFacts.
Import Parser Translator Executor.

(** *** Function declarations through the hoisting pass *)

Lemma functionNames_functionDeclarations insts :
  getFunctionNames (functionDeclarations insts) = getFunctionNames insts.
Proof.
  unfold getFunctionNames.
  induction insts as [|i insts IH]; [done|].
  destruct i; simpl; rewrite ?filter_cons; repeat case_decide; simplify_eq/=.
  all: try (by rewrite ?IH).
  f_equal. exact IH.
Qed.

Lemma functionNames_none (insts : list Instruction) :
  Forall (λ i, isFunctionDeclaration i = false) insts → getFunctionNames insts = [].
Proof.
  unfold getFunctionNames. induction 1 as [|i insts Hi _ IH]; [done|].
  rewrite filter_cons_False by (by rewrite Hi). exact IH.
Qed.

Lemma varDeclarations_no_function insts :
  Forall (λ i, isFunctionDeclaration i = false) (varDeclarations insts).
Proof.
  induction insts as [|i insts IH]; [constructor|].
  destruct i; simpl; try done. case_bool_decide; [by constructor|done].
Qed.

Lemma rest_no_function insts :
  Forall (λ i, isFunctionDeclaration i = false) (rest insts).
Proof.
  induction insts as [|i insts IH]; [constructor|].
  destruct i; simpl; try done; by constructor.
Qed.

Lemma rest_filter insts :
  rest insts = filter (λ i, isFunctionDeclaration i = false) insts.
Proof.
  induction insts as [|i insts IH]; [done|].
  destruct i; simpl; rewrite ?filter_cons; repeat case_decide; simplify_eq/=;
    by rewrite ?IH.
Qed.

Lemma filter_none {A} (P : A → Prop) `{!∀ x, Decision (P x)} (l : list A) :
  Forall (λ x, ¬ P x) l → filter P l = [].
Proof.
  induction 1 as [|x l Hx _ IH]; [done|]. by rewrite filter_cons_False.
Qed.

(** X12. The hoisting pass keeps the program: the function names
    [getFunctionNames] reads off its output are those of its input, each
    once and in source order, and the statements of the output that are
    neither the marker nor hoisted are the statements of the input other
    than function declarations, in source order, [var] declarations with
    their initialisations still in place. *)
Theorem hoisting_keeps_the_program (insts : list Instruction) :
  forallb recognized insts = true →
  getFunctionNames (processHoisting insts) = getFunctionNames insts
  ∧ filter (λ i, isNonHoisted i = true) (processHoisting insts)
    = filter (λ i, isFunctionDeclaration i = false) insts.
Proof.
  intros Hrec. split.
  - unfold processHoisting.
    assert (Hm : ∀ l : list Instruction,
              getFunctionNames
                (match functionDeclarations insts, varDeclarations insts with
                 | [], [] => []
                 | _, _ =>
                     [HoistingPhase (inst_name <$> functionDeclarations insts)
                        (inst_name <$> varDeclarations insts) 0]
                 end ++ l) = getFunctionNames l).
    { intros l. destruct (functionDeclarations insts), (varDeclarations insts); done. }
    rewrite Hm. unfold getFunctionNames. rewrite !filter_app, !fmap_app.
    fold (getFunctionNames (functionDeclarations insts)).
    fold (getFunctionNames (varDeclarations insts)).
    fold (getFunctionNames (rest insts)).
    rewrite functionNames_functionDeclarations.
    rewrite (functionNames_none _ (varDeclarations_no_function insts)).
    rewrite (functionNames_none _ (rest_no_function insts)).
    by rewrite app_nil_r.
  - unfold processHoisting. rewrite !filter_app.
    pose proof (ParserFacts.functionDeclarations_hoisted insts) as Hf.
    pose proof (ParserFacts.varDeclarations_hoisted insts) as Hv.
    pose proof (ParserFacts.rest_not_hoisted insts Hrec) as Hr.
    assert (Hm : filter (λ i, isNonHoisted i = true)
                   (match functionDeclarations insts, varDeclarations insts with
                    | [], [] => []
                    | _, _ =>
                        [HoistingPhase (inst_name <$> functionDeclarations insts)
                           (inst_name <$> varDeclarations insts) 0]
                    end) = []).
    { destruct (functionDeclarations insts), (varDeclarations insts); done. }
    rewrite Hm. clear Hm.
    rewrite (filter_none _ (functionDeclarations insts)),
      (filter_none _ (varDeclarations insts)).
    + simpl. rewrite <- rest_filter. apply SessionFacts.filter_all.
      eapply Forall_impl; [exact Hr|]. intros i [Hh Hmk].
      unfold isNonHoisted. by rewrite Hh, Hmk.
    + eapply Forall_impl; [exact Hv|]. intros i [Hh _].
      unfold isNonHoisted. rewrite Hh, andb_false_r. done.
    + eapply Forall_impl; [exact Hf|]. intros i [Hh _].
      unfold isNonHoisted. rewrite Hh, andb_false_r. done.
Qed.

(** *** Which declaration a call finds *)

Lemma find_functionDeclarations name insts :
  List.find (declares name) (functionDeclarations insts)
  = (λ i, match i with
          | FunctionDeclaration n ps l b e _ => FunctionDeclaration n ps l b e true
          | _ => i
          end) <$> List.find (declares name) insts.
Proof.
  induction insts as [|i insts IH]; [done|].
  destruct i; simpl; try exact IH. by case_bool_decide.
Qed.

Lemma find_app {A} (f : A → bool) (l1 l2 : list A) :
  List.find f (l1 ++ l2)
  = match List.find f l1 with Some x => Some x | None => List.find f l2 end.
Proof.
  induction l1 as [|x l1 IH]; [done|]. simpl. by destruct (f x).
Qed.

(** X13. A call runs the first declaration of its name: when the statements
    hold a function declaration of [name] with no declaration of that name
    before it, that declaration (marked hoisted) is what the interpreter
    running the translated program finds for [name], and what
    [Parser.findFunction] finds, whatever declarations of the name
    follow. *)
Theorem call_runs_first_declaration (before after : list Instruction)
    (name : string) (params : list string) (line : nat) (body : string)
    (endLine : nat) (hoisted : bool) (x : Exec) :
  let insts := before ++ FunctionDeclaration name params line body endLine hoisted :: after in
  Forall (λ i, declares name i = false) before →
  instructions x = processHoisting insts →
  Executor.findFunction name x
  = Some (FunctionDeclaration name params line body endLine true)
  ∧ Translator.findFunction (processHoisting insts) name
    = Some (FunctionDeclaration name params line body endLine true).
Proof.
  intros insts Hbefore Hx.
  assert (Hfind : List.find (declares name) (processHoisting insts)
                  = Some (FunctionDeclaration name params line body endLine true)).
  { unfold processHoisting.
    assert (Hm : ∀ l : list Instruction,
              List.find (declares name)
                (match functionDeclarations insts, varDeclarations insts with
                 | [], [] => []
                 | _, _ =>
                     [HoistingPhase (inst_name <$> functionDeclarations insts)
                        (inst_name <$> varDeclarations insts) 0]
                 end ++ l) = List.find (declares name) l).
    { intros l. destruct (functionDeclarations insts), (varDeclarations insts); done. }
    rewrite Hm, find_app, find_functionDeclarations.
    subst insts. rewrite find_app.
    assert (List.find (declares name) before = None) as ->.
    { clear -Hbefore. induction Hbefore as [|i l Hi _ IH]; [done|].
      simpl. by rewrite Hi. }
    simpl. by rewrite bool_decide_eq_true_2. }
  split; [|exact Hfind]. unfold Executor.findFunction. by rewrite Hx.
Qed.

(** Two declarations of [f]: the call finds the first. *)
Lemma call_runs_first_declaration_witness :
  let insts :=
    [ Console "log" [ENumber 1] 1;
      FunctionDeclaration "f" [] 2 "return 1" 2 false;
      FunctionDeclaration "f" [] 3 "return 2" 3 false ] in
  let x := mkExec initialStore (processHoisting insts) 0 None [] [] 0 0 [] in
  Executor.findFunction "f" x = Some (FunctionDeclaration "f" [] 2 "return 1" 2 true)
  ∧ Translator.findFunction (processHoisting insts) "f"
    = Some (FunctionDeclaration "f" [] 2 "return 1" 2 true).
Proof.
  intros insts x.
  apply (call_runs_first_declaration [Console "log" [ENumber 1] 1]
           [FunctionDeclaration "f" [] 3 "return 2" 3 false] "f" [] 2 "return 1" 2 false x).
  - repeat constructor.
  - reflexivity.
Defined.

(** The hoisting theorem at a snippet with a function between two
    statements. *)
Lemma hoisting_keeps_the_program_witness :
  let insts :=
    [ VariableDeclaration "var" "a" (ENumber 1) 1;
      FunctionDeclaration "f" [] 2 "" 2 false;
      Console "log" [EReference "a"] 3 ] in
  forallb recognized insts = true
  ∧ getFunctionNames (processHoisting insts) = ["f"]
  ∧ filter (λ i, isNonHoisted i = true) (processHoisting insts)
    = [ VariableDeclaration "var" "a" (ENumber 1) 1; Console "log" [EReference "a"] 3 ].
Proof.
  intros insts.
  assert (Hrec : forallb recognized insts = true) by reflexivity.
  split; [exact Hrec|].
  destruct (hoisting_keeps_the_program insts Hrec) as [Hn Hf].
  split; [exact Hn | exact Hf].
Defined.

(** *** Splitting an argument text *)

Lemma chars_app (s1 s2 : string) :
  String.list_ascii_of_string (s1 +:+ s2)
  = String.list_ascii_of_string s1 ++ String.list_ascii_of_string s2.
Proof. induction s1 as [|c s1 IH]; [done|]. simpl. by rewrite IH. Qed.

Lemma text_nil (cs : list Ascii.ascii) : String.string_of_list_ascii cs = "" → cs = [].
Proof. by destruct cs. Qed.

Section ParseArguments.

Variable parseValue : string → ValueExpr.

Local Abbreviation scanChar := (Translator.scanChar parseValue).
Local Abbreviation parseArguments := (Translator.parseArguments parseValue).

Lemma scan_piece (p : list Ascii.ascii) (d d' : Z) (st : Scan) :
  scanDepth d p = Some d' → depth st = d →
  foldl scanChar st p = mkScan (args st) d' (current st ++ p).
Proof.
  revert d st. induction p as [|c p IH]; intros d st Hscan Hd.
  - simpl in *. injection Hscan as <-. rewrite app_nil_r. by destruct st; simpl in *; subst.
  - simpl in Hscan. simpl.
    set (d2 := if isClosing c then ((if isOpening c then d + 1 else d) - 1)%Z
               else (if isOpening c then (d + 1)%Z else d)) in *.
    destruct (isComma c && bool_decide (d2 = 0%Z)) eqn:Hc; [done|].
    assert (Hstep : scanChar st c = mkScan (args st) d2 (current st ++ [c])).
    { unfold Translator.scanChar. rewrite Hd. fold d2. by rewrite Hc. }
    rewrite Hstep.
    rewrite (IH d2 (mkScan (args st) d2 (current st ++ [c])) Hscan eq_refl). simpl.
    by rewrite <- (assoc_L (++)).
Qed.

Lemma scan_comma (st : Scan) (c : Ascii.ascii) :
  charCode c = 44 → depth st = 0%Z →
  scanChar st c
  = mkScan (args st ++ [parseValue (String.string_of_list_ascii (trimChars (current st)))])
      0 [].
Proof.
  intros Hc Hd. unfold Translator.scanChar, isOpening, isClosing, isComma.
  rewrite Hd, Hc. reflexivity.
Qed.

Local Abbreviation parsed := (Translator.parsed parseValue).

Lemma concat_cons (p : string) (ps : list string) (q : string) :
  String.concat "," (p :: ps ++ [q]) = p +:+ "," +:+ String.concat "," (ps ++ [q]).
Proof. simpl. by destruct ps. Qed.

Lemma scan_pieces (pieces : list string) (last : string) (st : Scan) :
  Forall closedPiece pieces → closedPiece last →
  depth st = 0%Z → current st = [] →
  foldl scanChar st (String.list_ascii_of_string (String.concat "," (pieces ++ [last])))
  = mkScan (args st ++ (parsed <$> pieces)) 0 (String.list_ascii_of_string last).
Proof.
  intros Hps Hlast. revert st.
  induction Hps as [|p ps Hp _ IH]; intros st Hd Hcur.
  - simpl. rewrite (scan_piece _ 0 0 st Hlast Hd), Hcur, app_nil_r. done.
  - change ((p :: ps) ++ [last]) with (p :: ps ++ [last]).
    rewrite concat_cons, !chars_app, !foldl_app.
    rewrite (scan_piece _ 0 0 st Hp Hd), Hcur. simpl.
    rewrite scan_comma by reflexivity. simpl.
    rewrite IH by done. simpl. by rewrite <- (assoc_L (++)).
Qed.

(** X14. [parseArguments] splits an argument text at its top-level commas.
    For a text made of pieces joined by commas, each piece with its
    commas inside brackets and its brackets closed, and not blank as a
    whole: every piece but the last yields one argument, the trimmed piece
    handed to [parseValue], also when the piece is empty or blank; the last
    piece yields one too unless it is blank, so a trailing comma adds no
    argument. *)
Theorem parseArguments_splits_at_top_level_commas
    (pieces : list string) (last : string) :
  Forall closedPiece pieces → closedPiece last →
  ¬ blank (String.concat "," (pieces ++ [last])) →
  parseArguments (String.concat "," (pieces ++ [last]))
  = parsed <$> (if bool_decide (blank last) then pieces else pieces ++ [last]).
Proof.
  intros Hps Hlast Hnb. unfold Translator.parseArguments.
  rewrite bool_decide_eq_false_2 by exact Hnb.
  rewrite (scan_pieces pieces last (mkScan [] 0 []) Hps Hlast eq_refl eq_refl). simpl.
  unfold Translator.parsed, blank, trim.
  destruct (decide (trimChars (String.list_ascii_of_string last) = [])) as [He|Hne].
  - rewrite He. done.
  - rewrite (bool_decide_eq_false_2 _ Hne).
    rewrite bool_decide_eq_false_2 by (by intros ?%text_nil).
    by rewrite fmap_app.
Qed.

End ParseArguments.

(** The text [[1,2], f(a, b) , ] of three pieces: two arguments, the
    commas inside the brackets split nothing and the trailing comma adds
    nothing. *)
Lemma parseArguments_splits_at_top_level_commas_witness :
  Translator.parseArguments EReference "[1,2], f(a, b) , "
  = [EReference "[1,2]"; EReference "f(a, b)"].
Proof.
  apply (parseArguments_splits_at_top_level_commas EReference ["[1,2]"; " f(a, b) "] " ").
  - repeat constructor.
  - reflexivity.
  - unfold blank. vm_compute. discriminate.
Defined.

End TranslatorFacts.

(* ===================================================================== *)
(** ** Theorems: subscriptions *)
(* ===================================================================== *)

Module SubscriptionFacts.
Import Subscriptions.

Lemma serve_topics r subs event :
  is_Some (serve r subs !! event) ↔ is_Some (subs !! event).
Proof.
  destruct r as [e cb|[e cb|]]; simpl; unfold subscribe; [| |done].
  - destruct (subs !! e) as [cbs|] eqn:He; simpl; [|done].
    destruct (decide (e = event)) as [<-|Hne].
    + rewrite lookup_insert_eq, He. split; intros _; by eexists.
    + by rewrite lookup_insert_ne.
  - destruct (subs !! e) as [cbs|] eqn:He; [|done].
    destruct (list_find _ cbs) as [[i c]|]; [|done].
    destruct (decide (e = event)) as [<-|Hne].
    + rewrite lookup_insert_eq, He. split; intros _; by eexists.
    + by rewrite lookup_insert_ne.
Qed.

Lemma served_topics requests event :
  is_Some (served requests !! event) ↔ event ∈ topics.
Proof.
  unfold served. induction requests as [|r requests IH] using rev_ind.
  - simpl. unfold initialSubscribers.
    rewrite <- not_eq_None_Some, <- not_elem_of_list_to_map.
    rewrite <- list_fmap_compose, list_fmap_id.
    split; [apply dec_stable | by intros ? ?].
  - rewrite foldl_app. simpl. by rewrite serve_topics.
Qed.

(** X15. The store announces [setCode] under the topic [code], which the
    subscriber table does not hold: whatever was subscribed and
    unsubscribed before, subscribing to [code] registers nothing and hands
    back a function that does nothing, and the announcement of a new
    source text calls the subscribers of [all] and nobody else. *)
Theorem code_topic_has_no_subscribers (requests : list Request)
    (callback : Callback) (text : string) :
  let subs := served requests in
  subscribe "code" callback subs = (Idle, subs)
  ∧ ∃ everyone,
      subs !! "all" = Some everyone
      ∧ notify (StateManager.NCode text) subs
        = (λ cb, CallAll cb "code" (StateManager.NCode text)) <$> everyone.
Proof.
  intros subs.
  assert (Hcode : subs !! "code" = None).
  { destruct (subs !! "code") eqn:H; [|done].
    assert (Hin : "code" ∈ topics) by (apply (served_topics requests); by eexists).
    exfalso. revert Hin. by apply (bool_decide_unpack _). }
  assert (Hall : is_Some (subs !! "all")).
  { apply (served_topics requests). by apply (bool_decide_unpack _). }
  destruct Hall as [everyone Hall].
  split.
  - unfold subscribe. by rewrite Hcode.
  - exists everyone. split; [done|]. unfold notify. simpl. by rewrite Hcode, Hall.
Qed.

Lemma delete_app_l {A} (l1 l2 : list A) (i : nat) :
  i < length l1 → delete i (l1 ++ l2) = delete i l1 ++ l2.
Proof.
  revert i. induction l1 as [|x l1 IH]; intros [|i] Hi; simpl in *; try lia; [done|].
  f_equal. apply IH. lia.
Qed.

Lemma find_snoc_fresh (callbacks : list nat) (callback : nat) :
  callback ∉ callbacks →
  list_find (λ cb, cb = callback) (callbacks ++ [callback])
  = Some (length callbacks, callback).
Proof.
  intros Hnin. apply list_find_Some. split; [by apply list_lookup_middle|].
  split; [done|]. intros j y Hj Hlt ->.
  rewrite lookup_app_l in Hj by done. apply Hnin. by eapply list_elem_of_lookup_2.
Qed.

Lemma find_snoc_old (callbacks : list nat) (callback : nat) (i : nat) :
  callbacks !! i = Some callback →
  (∀ j, j < i → callbacks !! j ≠ Some callback) →
  list_find (λ cb, cb = callback) (callbacks ++ [callback]) = Some (i, callback).
Proof.
  intros Hi Hfirst. apply list_find_Some.
  split; [by apply lookup_app_l_Some|]. split; [done|].
  intros j y Hj Hlt ->.
  rewrite lookup_app_l in Hj by (apply lookup_lt_Some in Hi; lia).
  by apply (Hfirst j).
Qed.

(** X16. Unsubscribing removes the oldest registration of the callback, not
    the one the function was handed out for. Under a topic of the table:
    subscribing a callback that is not registered and calling the function
    handed back leaves the table as it was; when the callback is already
    registered, the same two calls leave its earlier registration removed
    and the new one at the end of the list, so the callback is now called
    after everyone who subscribed in between. *)
Theorem unsubscribe_removes_oldest_registration
    (subs : Subscribers) (event : string) (callback : Callback)
    (callbacks : list Callback) :
  subs !! event = Some callbacks →
  let u := (subscribe event callback subs).1 in
  let subs1 := (subscribe event callback subs).2 in
  (callback ∉ callbacks → unsubscribe u subs1 = subs)
  ∧ (∀ i, callbacks !! i = Some callback →
          (∀ j, j < i → callbacks !! j ≠ Some callback) →
          unsubscribe u subs1 = <[event := delete i callbacks ++ [callback]]> subs).
Proof.
  intros He u subs1. subst u subs1. unfold subscribe. rewrite He. simpl.
  rewrite lookup_insert_eq. split.
  - intros Hnin. rewrite (find_snoc_fresh _ _ Hnin).
    rewrite insert_insert_eq, delete_middle, app_nil_r.
    by apply insert_id.
  - intros i Hi Hfirst. rewrite (find_snoc_old _ _ i Hi Hfirst).
    rewrite insert_insert_eq. f_equal.
    apply delete_app_l. by eapply lookup_lt_Some.
Qed.

(** One subscriber of [heap] between two registrations of another. *)
Lemma unsubscribe_removes_oldest_registration_witness :
  let subs := served [Subscribe "heap" 1; Subscribe "heap" 2] in
  let u := (subscribe "heap" 1 subs).1 in
  let subs1 := (subscribe "heap" 1 subs).2 in
  subs !! "heap" = Some [1; 2]
  ∧ unsubscribe u subs1 !! "heap" = Some [2; 1].
Proof.
  intros subs u subs1.
  assert (He : subs !! "heap" = Some [1; 2]) by (vm_compute; reflexivity).
  split; [exact He|].
  destruct (unsubscribe_removes_oldest_registration subs "heap" 1 [1; 2] He)
    as [_ Hold].
  fold u subs1 in Hold.
  rewrite (Hold 0 eq_refl); [by rewrite lookup_insert_eq|].
  intros j Hj. lia.
Defined.

(** A subscriber of [all] and one of [console]. *)
Lemma code_topic_has_no_subscribers_witness :
  let subs := served [Subscribe "all" 7; Subscribe "console" 8; Subscribe "code" 9] in
  subscribe "code" 9 subs = (Idle, subs)
  ∧ notify (StateManager.NCode "var a") subs
    = [CallAll 7 "code" (StateManager.NCode "var a")].
Proof.
  intros subs.
  destruct (code_topic_has_no_subscribers
              [Subscribe "all" 7; Subscribe "console" 8; Subscribe "code" 9] 9 "var a")
    as [Hs (everyone & Hall & Hn)].
  fold subs in Hs, Hall, Hn. split; [exact Hs|].
  rewrite Hn.
  assert (subs !! "all" = Some [7]) as Hall' by (vm_compute; reflexivity).
  rewrite Hall' in Hall. by injection Hall as <-.
Defined.

End SubscriptionFacts.

(* ===================================================================== *)
(** ** Theorems: what an execution leaves as it found it *)
(* ===================================================================== *)

Module ConductFacts.
Import Executor Conduct.

(** *** Relations kept by every part of a computation *)

Section Respects.

Context (R : Exec → Exec → Prop).
Hypothesis R_refl : ∀ x, R x x.
Hypothesis R_trans : ∀ x y z, R x y → R y z → R x z.

Lemma respects_ret {A} (a : A) : respects R (ret a).
Proof. intros x a' x' [= <- <-]. apply R_refl. Qed.

Lemma respects_bind {A B} (m : M A) (k : A → M B) :
  respects R m → (∀ a, respects R (k a)) → respects R (bind m k).
Proof.
  intros Hm Hk x b x' H. unfold bind in H.
  destruct (m x) as [a x1| |w] eqn:Hmx; try discriminate.
  eapply R_trans; [by eapply Hm | by eapply Hk].
Qed.

Lemma respects_ask {A} (f : Store → A) : respects R (ask f).
Proof. intros x a x' [= <- <-]. apply R_refl. Qed.

Lemma respects_if {A} (b : bool) (m1 m2 : M A) :
  respects R m1 → respects R m2 → respects R (if b then m1 else m2).
Proof. by destruct b. Qed.

Lemma respects_forEach {A} (body : A → M unit) items :
  (∀ item, respects R (body item)) → respects R (forEach body items).
Proof.
  intros Hbody. induction items as [|item items IH]; simpl.
  - apply respects_ret.
  - apply respects_bind; [apply Hbody | intros _; exact IH].
Qed.

Lemma respects_mapM {A B} (f : A → M B) items :
  (∀ item, respects R (f item)) → respects R (mapM f items).
Proof.
  intros Hf. induction items as [|item items IH]; simpl.
  - apply respects_ret.
  - apply respects_bind; [apply Hf|]. intros b.
    apply respects_bind; [exact IH|]. intros bs. apply respects_ret.
Qed.

Lemma respects_stuck {A} w : respects R (λ _ : Exec, @Stuck A w).
Proof. intros x a x' H. discriminate H. Qed.

Lemma respects_outOfFuel {A} : respects R (λ _ : Exec, @OutOfFuel A).
Proof. intros x a x' H. discriminate H. Qed.

Lemma respects_update {A} (a : Exec → A) (g : Exec → Exec) :
  (∀ x, R x (g x)) → respects R (λ x, Done (a x) (g x)).
Proof. intros Hg x a' x' [= <- <-]. apply Hg. Qed.

Lemma respects_call {A} (f : Store → A * Store) op :
  (∀ σ, (f σ).2 = StateManager.apply op σ) →
  (∀ x, R x (set_store (StateManager.apply op (store x)) x)) →
  respects R (call f).
Proof.
  intros Hf HR x a x' H. unfold call in H. specialize (Hf (store x)).
  destruct (f (store x)) as [a0 σ]. simpl in *. injection H as <- <-.
  rewrite Hf. apply HR.
Qed.

Lemma respects_exec (f : Store → Store) op :
  (∀ σ, f σ = StateManager.apply op σ) →
  (∀ x, R x (set_store (StateManager.apply op (store x)) x)) →
  respects R (exec f).
Proof. intros Hf HR x a x' [= <- <-]. rewrite Hf. apply HR. Qed.

(** The relation is kept by the quiet operations of the store and by the
    host's counters. *)
Hypothesis R_quiet :
  ∀ op x, quiet op = true → R x (set_store (StateManager.apply op (store x)) x).
Hypothesis R_host :
  ∀ x x', store x' = store x → sameVariables x x' → R x x'.

Variable parseBody : string → list Instruction.
Variable clock : nat → Z.
Variable fired : nat → list Z.

Lemma respects_now : respects R (now clock).
Proof. unfold now. apply respects_update. intros x. by apply R_host. Qed.

Lemma respects_setTimeout task timeout : respects R (setTimeout task timeout).
Proof. unfold setTimeout. apply respects_update. intros x. by apply R_host. Qed.

Lemma respects_quiet_exec (f : Store → Store) op :
  (∀ σ, f σ = StateManager.apply op σ) → quiet op = true → respects R (exec f).
Proof. intros Hf Hq. apply (respects_exec f op Hf). intros x. by apply R_quiet. Qed.

Lemma respects_quiet_call {A} (f : Store → A * Store) op :
  (∀ σ, (f σ).2 = StateManager.apply op σ) → quiet op = true → respects R (call f).
Proof. intros Hf Hq. apply (respects_call f op Hf). intros x. by apply R_quiet. Qed.

Lemma respects_logConsoleM type text : respects R (logConsoleM clock type text).
Proof.
  unfold logConsoleM. apply respects_bind; [apply respects_now|]. intros t.
  by apply (respects_quiet_exec _ (OLogConsole t type [text])).
Qed.

Lemma R_moves ids x :
  R x (set_store (foldl (λ σ id, (moveToCallbackQueue id σ).2) (store x) ids) x).
Proof.
  revert x. induction ids as [|id ids IH]; intros x.
  - simpl. by apply R_host.
  - simpl. eapply R_trans; [apply (R_quiet (OMoveToCallbackQueue id) x eq_refl)|].
    eapply R_trans; [apply IH|]. by apply R_host.
Qed.

Lemma respects_delay : respects R (delay fired).
Proof.
  unfold delay. apply respects_bind; [apply respects_ask|]. intros speed.
  apply respects_bind; [apply respects_setTimeout|]. intros timerId.
  apply respects_bind; [by apply (respects_quiet_exec _ (OAddTimer timerId))|].
  intros _. apply respects_update. intros x.
  eapply R_trans; [apply (R_moves (fired (waits x)))|]. by apply R_host.
Qed.

Lemma respects_allocateHeap t type value :
  respects R (call (allocateHeap t type value None)).
Proof. by apply (respects_quiet_call _ (OAllocateHeap t type value None)). Qed.
Lemma respects_addScopeVariable s n v t d :
  respects R (exec (addScopeVariable s n v t d)).
Proof. by apply (respects_quiet_exec _ (OAddScopeVariable s n v t d)). Qed.
Lemma respects_updateScopeVariable s n v : respects R (exec (updateScopeVariable s n v)).
Proof. by apply (respects_quiet_exec _ (OUpdateScopeVariable s n v)). Qed.
Lemma respects_updateFrameVariable n v t : respects R (exec (updateFrameVariable n v t)).
Proof. by apply (respects_quiet_exec _ (OUpdateFrameVariable n v t)). Qed.
Lemma respects_setCurrentLine l : respects R (exec (setCurrentLine l)).
Proof. by apply (respects_quiet_exec _ (OSetCurrentLine l)). Qed.

Create HintDb respects.

#[local] Hint Resolve respects_ret respects_ask respects_stuck respects_outOfFuel
  respects_now respects_setTimeout respects_logConsoleM respects_delay
  respects_allocateHeap respects_addScopeVariable respects_updateScopeVariable
  respects_updateFrameVariable respects_setCurrentLine : respects.

(** One step of a proof that a computation keeps the relation. *)
Ltac respects_step :=
  cbv beta;
  first
    [ solve [auto with respects]
    | apply respects_bind; [|intros ?]
    | apply respects_if
    | apply respects_forEach; intros ?
    | apply respects_mapM; intros ? ].

Lemma respects_bindParameters scopeId params args :
  respects R (bindParameters scopeId params args).
Proof.
  revert args. induction params as [|p ps IH]; intros args; simpl.
  - apply respects_ret.
  - repeat respects_step.
Qed.

Lemma respects_simple_executions :
  (∀ fs vs, respects R (executeHoisting clock fs vs))
  ∧ (∀ n ps b, respects R (executeFunctionDeclaration clock n ps b))
  ∧ (∀ n, respects R (executeHoistedVar n))
  ∧ (∀ d n, respects R (executeNewObject clock d n)).
Proof.
  repeat split; intros;
    unfold executeHoisting, executeFunctionDeclaration, executeHoistedVar,
      executeNewObject;
    repeat respects_step.
Qed.

Lemma respects_resolving_executions
    (resolveValue : ValueExpr → M Value)
    (resolveAll : list ValueExpr → M (list Value)) :
  (∀ e, respects R (resolveValue e)) → (∀ es, respects R (resolveAll es)) →
  (∀ d n e, respects R (executeVariableDeclaration clock resolveValue d n e))
  ∧ (∀ n e, respects R (executeAssignment resolveValue n e))
  ∧ (∀ m args, respects R (executeConsole clock resolveAll m args))
  ∧ (∀ o m args, respects R (executeMethodCall clock resolveAll o m args))
  ∧ (∀ e, respects R (executeReturn clock resolveValue e)).
Proof.
  intros Hv Ha. repeat split; intros;
    unfold executeVariableDeclaration, executeAssignment, executeMethodCall,
      executeConsole, executeReturn;
    repeat respects_step.
Qed.

(** The relation is kept by the execution of every instruction as soon
    as it is kept by the registration of a timer and of a microtask and by
    a call whose body and argument resolutions keep it. *)
Lemma respects_core :
  (∀ c, respects R (executePromise clock c)) →
  (∀ c d, respects R (executeSetTimeout clock c d)) →
  (∀ (executeInstruction : Instruction → M unit)
     (resolveAll : list ValueExpr → M (list Value)),
     (∀ i, respects R (executeInstruction i)) →
     (∀ es, respects R (resolveAll es)) →
     ∀ n args,
       respects R (executeFunctionCallBody parseBody clock fired executeInstruction
                     resolveAll n args)) →
  ∀ fuel,
    (∀ i, respects R (executeInstruction parseBody clock fired fuel i))
    ∧ (∀ n args, respects R (executeFunctionCall parseBody clock fired fuel n args))
    ∧ (∀ e, respects R (resolveValue parseBody clock fired fuel e))
    ∧ (∀ es, respects R (resolveAll parseBody clock fired fuel es)).
Proof.
  intros Hp Ht Hcall.
  induction fuel as [|fuel (IHi & IHc & IHv & IHa)].
  - repeat split; intros; apply respects_outOfFuel.
  - destruct respects_simple_executions as (K1 & K2 & K3 & K4).
    destruct (respects_resolving_executions _ _ IHv IHa) as (R1 & R2 & R3 & R4 & R5).
    split; [|split; [|split]].
    + intros i. rewrite ExecutorFacts.executeInstruction_S.
      destruct i; unfold executeInstructionBody; auto.
    + intros n args. rewrite ExecutorFacts.executeFunctionCall_S. by apply Hcall.
    + intros e. rewrite ExecutorFacts.resolveValue_S.
      destruct e; unfold resolveValueBody; repeat respects_step; auto.
    + intros es. rewrite ExecutorFacts.resolveAll_S. unfold resolveAllBody.
      repeat respects_step; auto.
Qed.

(** When the relation is also kept by the operations that make and leave
    an execution context and that register tasks, and by an entry added to
    a pending list, every instruction keeps it. *)
Hypothesis R_nested :
  ∀ op x, nested op = true → R x (set_store (StateManager.apply op (store x)) x).
Hypothesis R_pendingTimers :
  ∀ x entry, R x (set_pendingTimers (pendingTimers x ++ [entry]) x).
Hypothesis R_pendingMicrotasks :
  ∀ x entry, R x (set_pendingMicrotasks (pendingMicrotasks x ++ [entry]) x).

Lemma respects_nested_call {A} (f : Store → A * Store) op :
  (∀ σ, (f σ).2 = StateManager.apply op σ) → nested op = true → respects R (call f).
Proof. intros Hf Hq. apply (respects_call f op Hf). intros x. by apply R_nested. Qed.

Lemma respects_nested_exec (f : Store → Store) op :
  (∀ σ, f σ = StateManager.apply op σ) → nested op = true → respects R (exec f).
Proof. intros Hf Hq. apply (respects_exec f op Hf). intros x. by apply R_nested. Qed.

Lemma respects_addToMicrotaskQueue id task :
  respects R (call (addToMicrotaskQueue id task)).
Proof. by apply (respects_nested_call _ (OAddToMicrotaskQueue id task)). Qed.
Lemma respects_addToWebAPI id t task : respects R (call (addToWebAPI id t task)).
Proof. by apply (respects_nested_call _ (OAddToWebAPI id t task)). Qed.
Lemma respects_addTimer id : respects R (exec (addTimer id)).
Proof. by apply (respects_quiet_exec _ (OAddTimer id)). Qed.
Lemma respects_createScope t n ty p : respects R (call (createScope t n ty p)).
Proof. by apply (respects_nested_call _ (OCreateScope t n ty p)). Qed.
Lemma respects_pushCallStack id f : respects R (call (pushCallStack id f)).
Proof. by apply (respects_nested_call _ (OPushCallStack id f)). Qed.
Lemma respects_popCallStack : respects R (call popCallStack).
Proof. by apply (respects_nested_call _ OPopCallStack). Qed.
Lemma respects_destroyScope s : respects R (exec (destroyScope s)).
Proof. by apply (respects_nested_exec _ (ODestroyScope s)). Qed.

#[local] Hint Resolve respects_addToMicrotaskQueue respects_addToWebAPI
  respects_addTimer respects_createScope respects_pushCallStack
  respects_popCallStack respects_destroyScope respects_bindParameters : respects.

Lemma respects_executePromise c : respects R (executePromise clock c).
Proof.
  unfold executePromise. repeat respects_step.
  apply respects_update. intros x. apply R_pendingMicrotasks.
Qed.

Lemma respects_executeSetTimeout c d : respects R (executeSetTimeout clock c d).
Proof.
  unfold executeSetTimeout. repeat respects_step.
  apply respects_update. intros x. apply R_pendingTimers.
Qed.

Lemma respects_executeFunctionCallBody
    (executeInstruction : Instruction → M unit)
    (resolveAll : list ValueExpr → M (list Value)) :
  (∀ i, respects R (executeInstruction i)) →
  (∀ es, respects R (resolveAll es)) →
  ∀ n args,
    respects R (executeFunctionCallBody parseBody clock fired executeInstruction
                  resolveAll n args).
Proof.
  intros Hi Ha n args x a x' H. unfold executeFunctionCallBody in H.
  destruct (findFunction n x) as [[]|];
    match type of H with
    | ?m x = _ =>
        assert (K : respects R m) by (repeat respects_step; auto); exact (K _ _ _ H)
    end.
Qed.

(** Every instruction, call and resolution keeps such a relation. *)
Lemma respects_execution fuel :
  (∀ i, respects R (executeInstruction parseBody clock fired fuel i))
  ∧ (∀ n args, respects R (executeFunctionCall parseBody clock fired fuel n args))
  ∧ (∀ e, respects R (resolveValue parseBody clock fired fuel e))
  ∧ (∀ es, respects R (resolveAll parseBody clock fired fuel es)).
Proof.
  apply respects_core.
  - apply respects_executePromise.
  - apply respects_executeSetTimeout.
  - apply respects_executeFunctionCallBody.
Qed.

End Respects.

(** *** The program, the cursor and the flags *)

Lemma undisturbed_refl x : undisturbed x x.
Proof. unfold undisturbed. repeat split; reflexivity. Qed.

Lemma undisturbed_trans x y z : undisturbed x y → undisturbed y z → undisturbed x z.
Proof.
  unfold undisturbed. intros H1 H2.
  destruct H1 as (?&?&?&?&?&?&?&?&?&?&?&?&?&?), H2 as (?&?&?&?&?&?&?&?&?&?&?&?&?&?).
  repeat split; try congruence; etrans; eassumption.
Qed.

Ltac grows :=
  first [ reflexivity | by apply prefix_app_r | by eexists ].

Lemma undisturbed_nested op x :
  nested op = true → undisturbed x (set_store (StateManager.apply op (store x)) x).
Proof.
  intros Hn. unfold undisturbed.
  destruct op; try discriminate Hn; simpl;
    StoreFacts.unfold_ops; simpl; repeat case_match; simplify_eq/=;
    repeat split; grows.
Qed.

Lemma quiet_nested op : quiet op = true → nested op = true.
Proof. by destruct op. Qed.

Lemma undisturbed_host x x' : store x' = store x → sameVariables x x' → undisturbed x x'.
Proof.
  intros Hs (Hi & Hc & Hg & Ht & Hm). unfold undisturbed.
  rewrite Hs, Hi, Hc, Hg, Ht, Hm. repeat split; reflexivity.
Qed.

Section Undisturbed.

Variable parseBody : string → list Instruction.
Variable clock : nat → Z.
Variable fired : nat → list Z.

Lemma undisturbed_execution fuel :
  (∀ i, respects undisturbed (executeInstruction parseBody clock fired fuel i))
  ∧ (∀ n args, respects undisturbed (executeFunctionCall parseBody clock fired fuel n args))
  ∧ (∀ e, respects undisturbed (resolveValue parseBody clock fired fuel e))
  ∧ (∀ es, respects undisturbed (resolveAll parseBody clock fired fuel es)).
Proof.
  apply respects_execution.
  - apply undisturbed_refl.
  - apply undisturbed_trans.
  - intros op x Hq. by apply undisturbed_nested, quiet_nested.
  - apply undisturbed_host.
  - apply undisturbed_nested.
  - intros x entry. unfold undisturbed. simpl. repeat split; grows.
  - intros x entry. unfold undisturbed. simpl. repeat split; grows.
Qed.

(** X17. Whatever an instruction does, with the calls and callbacks nested in
    it, it leaves alone the program and the cursor of the interpreter and
    the global scope it remembers; in the store the source text, the
    translated program, the step counter, the speed, the running and
    paused flags and the timers cancelled so far; and the notifications
    sent, the timers tracked and the pending lists only grow at their
    end. *)
Theorem instruction_leaves_program_and_flags
    (fuel : nat) (instruction : Instruction) (x x' : Exec) :
  executeInstruction parseBody clock fired fuel instruction x = Done () x' →
  undisturbed x x'.
Proof. intros H. by eapply (proj1 (undisturbed_execution fuel)). Qed.

(** X18. A step on a program that is not used up executes one top-level
    instruction: if it returns, the cursor has moved on by one and the
    step counter has grown by one, however many instructions of function
    bodies ran in between, the program is the same, and the step reports
    more work exactly when an instruction is left or a task is pending. *)
Theorem step_executes_one_instruction
    (fuel : nat) (instruction : Instruction) (x x' : Exec) (more : bool) :
  instructions x !! currentIndex x = Some instruction →
  step parseBody clock fired fuel x = Done more x' →
  currentIndex x' = S (currentIndex x)
  ∧ instructions x' = instructions x
  ∧ currentStep (state (store x')) = S (currentStep (state (store x)))
  ∧ more = bool_decide (S (currentIndex x) < length (instructions x))
           || hasPendingTasks x'.
Proof.
  intros Hi Hstep. unfold step in Hstep. rewrite Hi in Hstep.
  unfold bind at 1 in Hstep. simpl in Hstep.
  unfold bind at 1 in Hstep. simpl in Hstep.
  unfold bind at 1 in Hstep.
  destruct (executeInstruction parseBody clock fired fuel instruction _)
    as [[] x1| |] eqn:Hexec; try discriminate Hstep.
  apply (proj1 (undisturbed_execution fuel)) in Hexec.
  simpl in Hstep. injection Hstep as <- <-.
  destruct Hexec as (Hins & Hidx & _ & _ & _ & Hcs & _).
  simpl in *. rewrite Hidx, Hins, Hcs. done.
Qed.

(** X19. A declaration binds the name in the current scope, to the value when
    it is a number, a string, a boolean, [null] or [undefined], and otherwise
    to the identity of a new heap object that holds the value: once the
    initialiser is resolved to [value], with some scope alive and scope
    identities distinct, the declaration ends; a lookup of the name then
    yields [value] in the first case and in the second the identity
    [ref_n] handed out by the heap, as a string, under which the heap
    holds the array, object or function. *)
Theorem declaration_binds_value_or_reference
    (fuel : nat) (declarationType name : string) (valueExpr : ValueExpr)
    (line : nat) (x x1 : Exec) (value : Value) :
  resolveValue parseBody clock fired fuel valueExpr x = Done value x1 →
  NoDup (scope_id <$> scopes (state (store x1))) →
  scopes (state (store x1)) ≠ [] →
  ∃ x2,
    executeInstruction parseBody clock fired (S fuel)
      (VariableDeclaration declarationType name valueExpr line) x = Done () x2
    ∧ if isObjectValue value
      then
        let id := refName (S (heapIdCounter (state (store x1)))) in
        lookupVariable name (store x2) = VString id
        ∧ heap (state (store x2)) !! id
          = Some (mkHeapObject id (if isArrayValue value then "array" else "object")
                    value [] (clock (reads x1)))
      else lookupVariable name (store x2) = value.
Proof.
  intros Hres Hnd Hne.
  rewrite ExecutorFacts.executeInstruction_S.
  unfold executeInstructionBody, executeVariableDeclaration.
  unfold bind at 1. rewrite Hres.
  destruct (isObjectValue value) eqn:Hobj.
  - eexists. split; [reflexivity|]. simpl.
    match goal with
    | |- context [addScopeVariable _ _ _ _ _ ?σ] => set (σ1 := σ)
    end.
    assert (Hss : scopes (state σ1) = scopes (state (store x1))) by done.
    split.
    + unfold lookupVariable, getState. rewrite ExecutorFacts.updateFrameVariable_scopes.
      apply (SessionFacts.addScopeVariable_lookup σ1); by rewrite Hss.
    + unfold updateFrameVariable, addScopeVariable.
      repeat case_match; simpl; by rewrite lookup_insert_eq.
  - eexists. split; [reflexivity|]. simpl.
    unfold lookupVariable, getState. rewrite ExecutorFacts.updateFrameVariable_scopes.
    by apply (SessionFacts.addScopeVariable_lookup (store x1)).
Qed.

End Undisturbed.


(** *** The statements at concrete programs *)

(** The call [f(1)] of a declared function whose body logs: the body's
    instruction runs inside the call, and the program, the cursor and the
    step counter are as before. *)
Lemma instruction_leaves_program_and_flags_witness :
  ∃ x',
    executeInstruction Scenario.translated Scenario.hostClock Scenario.hostFired 6
      (FunctionCall "f" [ENumber 1] 2) Programs.beforeCall = Done () x'
    ∧ consoleEntries (store x')
      = consoleEntries (store Programs.beforeCall) ++ [("log", [quoted "A"])]
    ∧ undisturbed Programs.beforeCall x'.
Proof.
  eexists. split; [vm_compute; reflexivity|]. split; [vm_compute; reflexivity|].
  apply (instruction_leaves_program_and_flags Scenario.translated Scenario.hostClock
           Scenario.hostFired 6 (FunctionCall "f" [ENumber 1] 2)).
  vm_compute. reflexivity.
Defined.

(** The step that executes the call [f(1)]: one step is counted for the
    call and the instruction of the body together. *)
Lemma step_executes_one_instruction_witness :
  ∃ x',
    step Scenario.translated Scenario.hostClock Scenario.hostFired 6 Programs.beforeCall
    = Done false x'
    ∧ currentIndex x' = S (currentIndex Programs.beforeCall)
    ∧ currentStep (state (store x'))
      = S (currentStep (state (store Programs.beforeCall))).
Proof.
  eexists. split; [vm_compute; reflexivity|].
  match goal with
  | |- currentIndex ?x' = _ ∧ _ =>
      destruct (step_executes_one_instruction Scenario.translated Scenario.hostClock
                  Scenario.hostFired 6 (FunctionCall "f" [ENumber 1] 2)
                  Programs.beforeCall x' false)
        as (Hidx & _ & Hstep & _)
  end.
  - vm_compute. reflexivity.
  - vm_compute. reflexivity.
  - split; [exact Hidx | exact Hstep].
Defined.

(** [let n = 7] and [let a = [1, 2]] declared in the global scope of the
    program above. *)
Lemma declaration_binds_value_or_reference_witness :
  (∃ x2,
     executeInstruction Scenario.translated Scenario.hostClock Scenario.hostFired 2
       (VariableDeclaration "let" "n" (ENumber 7) 3) Programs.beforeCall = Done () x2
     ∧ lookupVariable "n" (store x2) = VNumber 7)
  ∧ (∃ x2,
       executeInstruction Scenario.translated Scenario.hostClock Scenario.hostFired 4
         (VariableDeclaration "let" "a" (EArray [ENumber 1; ENumber 2]) 3)
         Programs.beforeCall
       = Done () x2
       ∧ lookupVariable "a" (store x2)
         = VString (refName (S (heapIdCounter (state (store Programs.beforeCall)))))).
Proof.
  assert (Hnd : NoDup (scope_id <$> scopes (state (store Programs.beforeCall))))
    by (vm_compute; apply NoDup_singleton).
  assert (Hne : scopes (state (store Programs.beforeCall)) ≠ [])
    by (vm_compute; discriminate).
  assert (H7 : resolveValue Scenario.translated Scenario.hostClock Scenario.hostFired 1
                 (ENumber 7) Programs.beforeCall = Done (VNumber 7) Programs.beforeCall)
    by reflexivity.
  assert (Ha : resolveValue Scenario.translated Scenario.hostClock Scenario.hostFired 3
                 (EArray [ENumber 1; ENumber 2]) Programs.beforeCall
               = Done (VArray [VNumber 1; VNumber 2]) Programs.beforeCall)
    by reflexivity.
  split.
  - destruct (declaration_binds_value_or_reference Scenario.translated
                Scenario.hostClock Scenario.hostFired 1 "let" "n" (ENumber 7) 3
                _ _ _ H7 Hnd Hne) as (x2 & Hrun & Hlook).
    exists x2. split; [exact Hrun | exact Hlook].
  - destruct (declaration_binds_value_or_reference Scenario.translated
                Scenario.hostClock Scenario.hostFired 3 "let" "a"
                (EArray [ENumber 1; ENumber 2]) 3
                _ _ _ Ha Hnd Hne) as (x2 & Hrun & Hlook & _).
    exists x2. split; [exact Hrun | exact Hlook].
Defined.

End ConductFacts.

(* ===================================================================== *)
(** ** Theorems: programs that run to their end *)
(* ===================================================================== *)

Module StraightFacts.
Import Executor Conduct Straight.

Lemma calm_refl x : calm x x.
Proof. by repeat split. Qed.

Lemma calm_trans x y z : calm x y → calm y z → calm x z.
Proof.
  intros [(?&?&?&?&?) ?] [(?&?&?&?&?) ?].
  repeat split; congruence.
Qed.

Lemma max_list_elem (f : ValueExpr → nat) (e : ValueExpr) (es : list ValueExpr) :
  e ∈ es → f e ≤ max_list (map f es).
Proof.
  induction 1 as [e es|e e' es _ IH]; simpl; lia.
Qed.

Section Resolve.

Variable parseBody : string → list Instruction.
Variable clock : nat → Z.
Variable fired : nat → list Z.

Local Abbreviation executeInstruction := (Executor.executeInstruction parseBody clock fired).
Local Abbreviation resolveValue := (Executor.resolveValue parseBody clock fired).
Local Abbreviation resolveAll := (Executor.resolveAll parseBody clock fired).

Lemma mapM_pure {A B} (f : A → M B) (g : A → B) (items : list A) (x : Exec) :
  (∀ item, item ∈ items → f item x = Done (g item) x) →
  mapM f items x = Done (map g items) x.
Proof.
  induction items as [|item items IH]; intros Hf; [done|].
  simpl. unfold bind at 1. rewrite Hf by apply list_elem_of_here.
  unfold bind at 1. rewrite IH; [done|].
  intros item' Hin. apply Hf. by apply list_elem_of_further.
Qed.

Lemma sequential_callFree (es : list ValueExpr) :
  forallb (λ e, negb (containsCall e)) es = true → sequentialArgs es = true.
Proof.
  induction es as [|e es IH]; [done|]. simpl.
  intros [He Hes]%andb_prop. destruct es as [|e' es]; [done|].
  rewrite He. simpl. by apply IH.
Qed.

Lemma existsb_false {A} (f : A → bool) (l : list A) (a : A) :
  existsb f l = false → a ∈ l → f a = false.
Proof.
  intros He Hin. destruct (f a) eqn:Hfa; [|done].
  assert (existsb f l = true); [|congruence].
  apply existsb_exists. exists a. split; [|done]. by apply list_elem_of_In.
Qed.

(** Resolving an expression in which no call occurs yields its value and
    changes nothing. *)
Lemma resolve_callFree fuel (e : ValueExpr) (x : Exec) :
  containsCall e = false → exprDepth e < fuel →
  resolveValue fuel e x = Done (evalExpr (store x) e) x.
Proof.
  revert e. induction fuel as [fuel IH] using lt_wf_ind. intros e Hc Hd.
  destruct fuel as [|fuel]; [lia|].
  rewrite ExecutorFacts.resolveValue_S. unfold resolveValueBody.
  destruct e as [n|s|b| | |elems|props|ps body|ps body|name args|text|name];
    try done.
  - simpl in Hc, Hd. destruct fuel as [|fuel]; [lia|].
    unfold bind. rewrite ExecutorFacts.resolveAll_S. unfold resolveAllBody.
    rewrite sequential_callFree.
    + rewrite (mapM_pure _ (evalExpr (store x))); [done|].
      intros e He. apply IH; [lia| |].
      * by eapply existsb_false.
      * pose proof (max_list_elem exprDepth e elems He). lia.
    + apply forallb_forall. intros e He. apply list_elem_of_In in He.
      by rewrite (existsb_false _ _ _ Hc He).
  - simpl in Hc, Hd. unfold bind.
    rewrite (mapM_pure _ (λ kv, (kv.1, evalExpr (store x) kv.2))); [done|].
    intros kv Hkv. unfold bind. rewrite IH; [done|lia| |].
    + by apply (existsb_false (λ kv, containsCall kv.2) props kv).
    + assert (exprDepth kv.2 ≤ max_list (map (λ kv, exprDepth kv.2) props)).
      { clear -Hkv. induction Hkv; simpl; lia. }
      lia.
Qed.

Lemma resolveAll_callFree fuel (es : list ValueExpr) (x : Exec) :
  forallb (λ e, negb (containsCall e)) es = true →
  S (max_list (map exprDepth es)) < fuel →
  resolveAll fuel es x = Done (map (evalExpr (store x)) es) x.
Proof.
  intros Hc Hd. destruct fuel as [|fuel]; [lia|].
  rewrite ExecutorFacts.resolveAll_S. unfold resolveAllBody.
  rewrite (sequential_callFree _ Hc).
  apply mapM_pure. intros e He. apply resolve_callFree.
  - rewrite forallb_forall in Hc. apply list_elem_of_In in He.
    specialize (Hc e He). by destruct (containsCall e).
  - pose proof (max_list_elem exprDepth e es He). lia.
Qed.

(** *** Computations that always return *)

Lemma settles_ret {A} (a : A) : settles (ret a).
Proof. intros x. exists a, x. split; [done|apply calm_refl]. Qed.

Lemma settles_bind {A B} (m : M A) (k : A → M B) :
  settles m → (∀ a, settles (k a)) → settles (bind m k).
Proof.
  intros Hm Hk x. destruct (Hm x) as (a & x1 & Hmx & Hc1).
  destruct (Hk a x1) as (b & x2 & Hkx & Hc2).
  exists b, x2. split; [|by eapply calm_trans].
  unfold bind. by rewrite Hmx.
Qed.

Lemma settles_ask {A} (f : Store → A) : settles (ask f).
Proof. intros x. eexists _, x. split; [done|apply calm_refl]. Qed.

Lemma settles_if {A} (b : bool) (m1 m2 : M A) :
  settles m1 → settles m2 → settles (if b then m1 else m2).
Proof. by destruct b. Qed.

Lemma settles_now : settles (now clock).
Proof. intros x. eexists _, _. split; [reflexivity|]. by repeat split. Qed.

Lemma settles_exec (f : Store → Store) :
  (∀ σ, eventLoop (state (f σ)) = eventLoop (state σ)) → settles (exec f).
Proof.
  intros Hf x. eexists _, _. split; [reflexivity|]. split; [by repeat split|].
  simpl. apply Hf.
Qed.

Lemma settles_call {A} (f : Store → A * Store) :
  (∀ σ, eventLoop (state (f σ).2) = eventLoop (state σ)) → settles (call f).
Proof.
  intros Hf x. unfold call. specialize (Hf (store x)).
  destruct (f (store x)) as [a σ]. eexists _, _. split; [reflexivity|].
  split; [by repeat split|]. exact Hf.
Qed.

Lemma settles_logConsoleM type text : settles (logConsoleM clock type text).
Proof.
  unfold logConsoleM. apply settles_bind; [apply settles_now|]. intros t.
  by apply settles_exec.
Qed.

Lemma settles_allocateHeap t type value :
  settles (call (allocateHeap t type value None)).
Proof. by apply settles_call. Qed.

Lemma settles_addScopeVariable s n v t d : settles (exec (addScopeVariable s n v t d)).
Proof.
  apply settles_exec. intros σ. unfold addScopeVariable. by repeat case_match.
Qed.

Lemma settles_updateScopeVariable s n v : settles (exec (updateScopeVariable s n v)).
Proof.
  apply settles_exec. intros σ. unfold updateScopeVariable. by repeat case_match.
Qed.

Lemma settles_updateFrameVariable n v t : settles (exec (updateFrameVariable n v t)).
Proof.
  apply settles_exec. intros σ. unfold updateFrameVariable. by repeat case_match.
Qed.

Lemma settles_resolveValue fuel e :
  containsCall e = false → exprDepth e < fuel → settles (resolveValue fuel e).
Proof.
  intros Hc Hd x. eexists _, x. split; [by apply resolve_callFree|apply calm_refl].
Qed.

Lemma settles_resolveAll fuel es :
  forallb (λ e, negb (containsCall e)) es = true →
  S (max_list (map exprDepth es)) < fuel → settles (resolveAll fuel es).
Proof.
  intros Hc Hd x. eexists _, x. split; [by apply resolveAll_callFree|apply calm_refl].
Qed.

Create HintDb settles.

#[local] Hint Resolve settles_ret settles_ask settles_now settles_logConsoleM
  settles_allocateHeap settles_addScopeVariable settles_updateScopeVariable
  settles_updateFrameVariable : settles.

Ltac settles_step :=
  cbv beta;
  first
    [ solve [auto with settles]
    | apply settles_bind; [|intros ?]
    | apply settles_if ].

(** A straight statement always ends, given fuel for the depth of its
    expressions, and leaves the tasks and the interpreter's variables as
    they were. *)
Lemma straight_settles fuel (i : Instruction) :
  straight i = true → instructionDepth i + 1 < fuel →
  settles (executeInstruction fuel i).
Proof.
  intros Hs Hd. destruct fuel as [|fuel]; [lia|].
  rewrite ExecutorFacts.executeInstruction_S.
  destruct i; try discriminate Hs; simpl in Hs, Hd; unfold executeInstructionBody,
    executeHoisting, executeFunctionDeclaration, executeHoistedVar, executeNewObject,
    executeVariableDeclaration, executeAssignment, executeConsole, executeMethodCall,
    executeReturn.
  all: try (apply negb_true_iff in Hs).
  all: repeat settles_step.
  all: try (apply settles_resolveValue; [done|lia]).
  all: try (apply settles_resolveAll; [done|lia]).
Qed.

(** *** The loop of [run] over a straight-line program *)

Local Abbreviation step := (Executor.step parseBody clock fired).
Local Abbreviation runLoop := (Executor.runLoop parseBody clock fired).

Lemma resting_calm x x' : resting x → calm x x' → resting x'.
Proof.
  intros (He & Ht & Hm) [(_ & _ & _ & Ht' & Hm') He'].
  repeat split; congruence.
Qed.

Lemma resting_idle x : resting x → hasPendingTasks x = false.
Proof.
  intros (He & Ht & Hm). unfold hasPendingTasks, getState. by rewrite He, Ht, Hm.
Qed.

Lemma moves_idle ids σ :
  webAPIs (eventLoop (state σ)) = [] →
  foldl (λ σ id, (moveToCallbackQueue id σ).2) σ ids = σ.
Proof.
  intros Hw. induction ids as [|id ids IH]; [done|].
  simpl. unfold moveToCallbackQueue at 2. rewrite Hw. simpl. exact IH.
Qed.

(** With no timer task in the Web APIs a pacing wait ends and moves no
    task. *)
Lemma delay_idle x :
  webAPIs (eventLoop (state (store x))) = [] →
  ∃ x', delay fired x = Done () x' ∧ calm x x' ∧ undisturbed x x'.
Proof.
  intros Hw. unfold delay, bind, ask, setTimeout, exec. simpl.
  rewrite moves_idle by done.
  eexists. split; [reflexivity|]. split.
  - by repeat split.
  - unfold undisturbed. simpl. repeat split; try reflexivity.
    by apply prefix_app_r.
Qed.

Lemma undisturbed_delay : respects undisturbed (delay fired).
Proof.
  apply ConductFacts.respects_delay.
  - apply ConductFacts.undisturbed_refl.
  - apply ConductFacts.undisturbed_trans.
  - intros op x Hq. by apply ConductFacts.undisturbed_nested, ConductFacts.quiet_nested.
  - apply ConductFacts.undisturbed_host.
Qed.

(** One step over a straight statement. *)
Lemma step_straight fuel (i : Instruction) (x : Exec) :
  instructions x !! currentIndex x = Some i →
  straight i = true → instructionDepth i + 1 < fuel → resting x →
  ∃ x',
    step fuel x = Done (bool_decide (S (currentIndex x) < length (instructions x))) x'
    ∧ instructions x' = instructions x
    ∧ currentIndex x' = S (currentIndex x)
    ∧ globalScope x' = globalScope x
    ∧ currentStep (state (store x')) = S (currentStep (state (store x)))
    ∧ speed (state (store x')) = speed (state (store x))
    ∧ resting x'.
Proof.
  intros Hi Hs Hd Hrest. unfold Executor.step. rewrite Hi.
  unfold bind at 1. simpl. unfold bind at 1. simpl. unfold bind at 1.
  set (x0 := set_store _ _).
  destruct (straight_settles fuel i Hs Hd x0) as ([] & x1 & Hrun & Hcalm).
  rewrite Hrun. simpl.
  pose proof (proj1 (ConductFacts.undisturbed_execution parseBody clock fired fuel)
                i x0 () x1 Hrun) as (Hins & Hidx & Hg & _ & _ & Hcs & Hsp & _).
  assert (Hrest0 : resting x0).
  { destruct Hrest as (He & Ht & Hm). by repeat split. }
  pose proof (resting_calm _ _ Hrest0 Hcalm) as Hrest1.
  exists (set_currentIndex (S (currentIndex x1)) x1). split.
  - unfold bind. simpl.
    assert (hasPendingTasks (set_currentIndex (S (currentIndex x1)) x1) = false) as ->.
    { apply resting_idle. destruct Hrest1 as (He & Ht & Hm). by repeat split. }
    rewrite orb_false_r, Hidx, Hins. done.
  - simpl. rewrite Hins, Hidx, Hg, Hcs, Hsp. repeat split; apply Hrest1.
Qed.

Lemma runLoop_straight (D k : nat) :
  ∀ fuel x,
    Forall (λ i, straight i = true ∧ instructionDepth i ≤ D) (instructions x) →
    resting x →
    currentIndex x + S k = length (instructions x) →
    S k + D + 2 ≤ fuel →
    ∃ x',
      runLoop fuel x = Done () x'
      ∧ instructions x' = instructions x
      ∧ currentIndex x' = length (instructions x)
      ∧ currentStep (state (store x')) = currentStep (state (store x)) + S k
      ∧ resting x'.
Proof.
  induction k as [|k IH]; intros fuel x Hall Hrest Hidx Hfuel.
  - destruct fuel as [|fuel]; [lia|].
    destruct (instructions x !! currentIndex x) as [i|] eqn:Hi.
    2:{ apply lookup_ge_None in Hi. lia. }
    rewrite Forall_lookup in Hall. destruct (Hall _ _ Hi) as [Hs Hd].
    destruct (step_straight fuel i x Hi Hs ltac:(lia) Hrest)
      as (x1 & Hstep & Hins & Hix & _ & Hcs & _ & Hrest1).
    rewrite bool_decide_eq_false_2 in Hstep by lia.
    exists x1. split.
    { cbn [Executor.runLoop]. unfold bind. by rewrite Hstep. }
    split; [exact Hins|]. split; [lia|]. split; [lia|exact Hrest1].
  - destruct fuel as [|fuel]; [lia|].
    destruct (instructions x !! currentIndex x) as [i|] eqn:Hi.
    2:{ apply lookup_ge_None in Hi. lia. }
    pose proof Hall as Hall'.
    rewrite Forall_lookup in Hall'. destruct (Hall' _ _ Hi) as [Hs Hd].
    destruct (step_straight fuel i x Hi Hs ltac:(lia) Hrest)
      as (x1 & Hstep & Hins & Hix & _ & Hcs & _ & Hrest1).
    rewrite bool_decide_eq_true_2 in Hstep by lia.
    destruct (delay_idle x1) as (x2 & Hdelay & Hcalm & Hund).
    { destruct Hrest1 as (He & _). by rewrite He. }
    pose proof (resting_calm _ _ Hrest1 Hcalm) as Hrest2.
    destruct Hcalm as [(Hins2 & Hix2 & _) He2].
    destruct Hund as (_ & _ & _ & _ & _ & Hcs2 & _).
    destruct (IH fuel x2) as (x' & Hloop & Hins' & Hix' & Hcs' & Hrest').
    + by rewrite Hins2, Hins.
    + exact Hrest2.
    + rewrite Hins2, Hix2, Hins, Hix. lia.
    + lia.
    + exists x'. split.
      * cbn [Executor.runLoop]. unfold bind at 1. rewrite Hstep.
        unfold bind at 1. by rewrite Hdelay.
      * rewrite Hins', Hix', Hcs', Hins2, Hins, Hcs2, Hcs.
        split; [done|]. split; [done|]. split; [lia|exact Hrest'].
Qed.

Lemma instructionDepth_bound (insts : list Instruction) :
  Forall (λ i, instructionDepth i ≤ max_list (map instructionDepth insts)) insts.
Proof.
  apply Forall_forall. intros i Hi. induction Hi; simpl; lia.
Qed.

(** X20. An expression in which no call occurs is resolved by reading: the
    resolution returns, its result is the value of the expression in the
    store as it stands (a name is looked up through the live scopes, a
    function expression yields a function value, a property access its
    text), and neither the store nor the interpreter is changed. *)
Theorem callfree_expression_resolves_by_reading
    (fuel : nat) (e : ValueExpr) (x : Exec) :
  containsCall e = false → exprDepth e < fuel →
  resolveValue fuel e x = Done (evalExpr (store x) e) x.
Proof. apply resolve_callFree. Qed.

(** X21. A straight-line program runs to its end. Started on a fresh
    interpreter, with any host clock and whatever the host's timers do,
    the run of a program whose statements start no call and register no
    timer and no microtask returns; it has then executed every statement
    once (the cursor stands behind the last one and the step counter shows
    their number), nothing is pending, the store says the run is over and
    the last console entry is the notice of completion. *)
Theorem straight_line_program_runs_to_completion
    (insts : list Instruction) (fuel : nat) :
  forallb straight insts = true →
  programFuel insts ≤ fuel →
  ∃ x',
    bind (init clock insts) (λ _, run parseBody clock fired fuel) initialExec
    = Done () x'
    ∧ currentIndex x' = length insts
    ∧ currentStep (state (store x')) = length insts
    ∧ isRunning (state (store x')) = false
    ∧ hasPendingTasks x' = false
    ∧ last (consoleEntries (store x')) = Some ("info", ["Execution completed"]).
Proof.
  intros Hs Hfuel. unfold programFuel in Hfuel.
  assert (Hinit : ∃ x0,
    init clock insts initialExec = Done () x0
    ∧ instructions x0 = insts ∧ currentIndex x0 = 0
    ∧ currentStep (state (store x0)) = 0 ∧ resting x0).
  { eexists. split; [reflexivity|]. done. }
  destruct Hinit as (x0 & Hinit & Hins0 & Hidx0 & Hcs0 & Hrest0).
  unfold bind at 1. rewrite Hinit.
  unfold run. unfold bind at 1. simpl.
  set (x1 := set_store _ x0).
  assert (Hrest1 : resting x1) by exact Hrest0.
  assert (Hins1 : instructions x1 = insts) by exact Hins0.
  assert (Hidx1 : currentIndex x1 = 0) by exact Hidx0.
  assert (Hcs1 : currentStep (state (store x1)) = 0) by exact Hcs0.
  clearbody x1. clear Hinit.
  assert (Hloop : ∃ x2,
    runLoop fuel x1 = Done () x2
    ∧ currentIndex x2 = length insts
    ∧ currentStep (state (store x2)) = length insts
    ∧ resting x2).
  { destruct (decide (insts = [])) as [->|Hne].
    - destruct fuel as [|[|fuel]]; try (simpl in Hfuel; lia).
      exists x1. split; [|done].
      cbn [Executor.runLoop]. unfold bind at 1. unfold Executor.step.
      rewrite Hins1. simpl. unfold bind at 1.
      destruct Hrest1 as (He & Ht & Hm).
      rewrite (ExecutorFacts.processEventLoop_idle parseBody clock fired fuel x1)
        by (by rewrite ?He).
      done.
    - destruct (length insts) as [|k] eqn:Hlen; [by destruct insts|].
      destruct (runLoop_straight (max_list (map instructionDepth insts))
                  k fuel x1) as (x2 & Hrun & Hins & Hidx & Hcs & Hrest).
      + rewrite Hins1. apply Forall_forall. intros i Hi. split.
        * rewrite forallb_forall in Hs. apply Hs. by apply list_elem_of_In.
        * pose proof (instructionDepth_bound insts) as Hb.
          rewrite Forall_forall in Hb. by apply Hb.
      + exact Hrest1.
      + rewrite Hins1, Hidx1, Hlen. lia.
      + lia.
      + exists x2. split; [exact Hrun|]. rewrite Hins1, Hlen in Hidx.
        split; [exact Hidx|]. split; [|exact Hrest].
        rewrite Hcs, Hcs1. lia. }
  destruct Hloop as (x2 & Hrun & Hidx & Hcs & Hrest2).
  unfold bind at 1. rewrite Hrun. unfold bind, exec, logConsoleM, now. simpl.
  eexists. split; [reflexivity|]. simpl.
  split; [exact Hidx|]. split; [exact Hcs|]. split; [done|]. split.
  - apply resting_idle. destruct Hrest2 as (He & Ht & Hm). by repeat split.
  - unfold consoleEntries. simpl. rewrite omap_app. simpl. by rewrite last_snoc.
Qed.

End Resolve.

(** An array of a number and of a name that no scope binds. *)
Lemma callfree_expression_resolves_by_reading_witness :
  containsCall (EArray [ENumber 1; EReference "x"]) = false
  ∧ exprDepth (EArray [ENumber 1; EReference "x"]) < 3
  ∧ Executor.resolveValue Scenario.translated Scenario.hostClock Scenario.hostFired 3
      (EArray [ENumber 1; EReference "x"]) initialExec
    = Done (VArray [VNumber 1; VUndefined]) initialExec.
Proof.
  split; [reflexivity|]. split; [vm_compute; lia|].
  apply (callfree_expression_resolves_by_reading Scenario.translated Scenario.hostClock
           Scenario.hostFired 3 (EArray [ENumber 1; EReference "x"]) initialExec);
    [reflexivity|vm_compute; lia].
Defined.

(** The program [declareAndPrint] with the fuel of [programFuel]. *)
Lemma straight_line_program_runs_to_completion_witness :
  forallb straight declareAndPrint = true
  ∧ programFuel declareAndPrint ≤ 7
  ∧ ∃ x',
      bind (init Scenario.hostClock declareAndPrint)
        (λ _, run Scenario.translated Scenario.hostClock Scenario.hostFired 7)
        initialExec
      = Done () x'
      ∧ currentIndex x' = length declareAndPrint
      ∧ currentStep (state (store x')) = length declareAndPrint
      ∧ isRunning (state (store x')) = false
      ∧ hasPendingTasks x' = false
      ∧ last (consoleEntries (store x')) = Some ("info", ["Execution completed"]).
Proof.
  split; [reflexivity|]. split; [vm_compute; lia|].
  apply (straight_line_program_runs_to_completion
           Scenario.translated Scenario.hostClock Scenario.hostFired
           declareAndPrint 7); [reflexivity|vm_compute; lia].
Defined.

End StraightFacts.

(* ===================================================================== *)
(** ** Theorems: execution contexts are left as they are entered *)
(* ===================================================================== *)

Module BalanceFacts.
Import Executor Conduct Balance.

Lemma sound_apply op σ : sound σ → sound (StateManager.apply op σ).
Proof.
  intros [Htop Hsc]. split.
  - by apply StoreFacts.apply_topOnlyActive.
  - by apply StoreFacts.apply_scopesNumbered.
Qed.

Lemma sound_session ops : sound (StateManager.run ops initialStore).
Proof.
  split.
  - apply StoreFacts.session_top_frame_active.
  - apply SessionFacts.session_scopesNumbered.
Qed.

Lemma sameContexts_refl σ : sameContexts σ σ.
Proof. by repeat split. Qed.

Lemma sameContexts_trans σ1 σ2 σ3 :
  sameContexts σ1 σ2 → sameContexts σ2 σ3 → sameContexts σ1 σ3.
Proof.
  intros (Hb1 & Ho1 & Hs1) (Hb2 & Ho2 & Hs2). repeat split; [|congruence..].
  assert (Hlen : length (callStack (state σ2)) = length (callStack (state σ1))).
  { by rewrite <- (length_fmap outline), Ho1, length_fmap. }
  assert (Hlen' : length (callStack (state σ3)) = length (callStack (state σ2))).
  { by rewrite <- (length_fmap outline), Ho2, length_fmap. }
  unfold belowTop in *. congruence.
Qed.

Lemma restored_sameContexts σ σ' : restored σ σ' → sameContexts σ σ'.
Proof. intros [Hc Hs]. unfold sameContexts. by rewrite Hc, Hs. Qed.

Lemma keepsContexts_refl x : keepsContexts x x.
Proof. intros H. split; [done|apply sameContexts_refl]. Qed.

Lemma keepsContexts_trans x y z :
  keepsContexts x y → keepsContexts y z → keepsContexts x z.
Proof.
  intros Hxy Hyz H. destruct (Hxy H) as [Hy Hc1]. destruct (Hyz Hy) as [Hz Hc2].
  split; [done|]. by eapply sameContexts_trans.
Qed.

Lemma restoresContexts_refl x : restoresContexts x x.
Proof. intros H. split; [done|]. by split. Qed.

Lemma restoresContexts_trans x y z :
  restoresContexts x y → restoresContexts y z → restoresContexts x z.
Proof.
  intros Hxy Hyz H. destruct (Hxy H) as [Hy [Hc1 Hs1]].
  destruct (Hyz Hy) as [Hz [Hc2 Hs2]].
  split; [done|]. split; congruence.
Qed.

Lemma restores_keeps x x' : restoresContexts x x' → keepsContexts x x'.
Proof.
  intros Hr H. destruct (Hr H) as [Hs Hres]. split; [done|].
  by apply restored_sameContexts.
Qed.

Lemma keeps_then_restores x y z :
  keepsContexts x y → restoresContexts y z → keepsContexts x z.
Proof. intros Hxy Hyz. eapply keepsContexts_trans; [done|by apply restores_keeps]. Qed.

(** An operation that touches neither the call stack nor the scopes. *)
Lemma restored_untouched op σ :
  touchesCallStack op = false → touchesScopes op = false →
  restored σ (StateManager.apply op σ).
Proof.
  intros Hc Hs. split.
  - by apply StoreFacts.apply_callStack.
  - by rewrite (proj1 (StoreFacts.apply_scopes op σ Hs)).
Qed.

Lemma sameContexts_updateFrameVariable name value type σ :
  sameContexts σ (updateFrameVariable name value type σ).
Proof.
  unfold updateFrameVariable.
  destruct (last (callStack (state σ))) as [top|] eqn:Hlast;
    [|apply sameContexts_refl].
  repeat split; simpl.
  - unfold belowTop. rewrite length_alter. rewrite take_alter. by rewrite decide_False by lia.
  - apply list_eq. intros i. rewrite !list_lookup_fmap.
    destruct (decide (i = length (callStack (state σ)) - 1)) as [->|Hne].
    + rewrite list_lookup_alter. rewrite last_lookup in Hlast.
      replace (pred (length (callStack (state σ))))
        with (length (callStack (state σ)) - 1) in Hlast by lia.
      rewrite Hlast, decide_True by done. reflexivity.
    + by rewrite list_lookup_alter, decide_False by done.
Qed.

Lemma sameContexts_quiet op σ : quiet op = true → sameContexts σ (StateManager.apply op σ).
Proof.
  intros Hq.
  destruct op as [| | | |n v t| | | | |scopeId n v vt dt|scopeId n v| | | | | | | | | | | | |];
    try discriminate Hq;
    try (apply restored_sameContexts; by apply restored_untouched).
  - apply sameContexts_updateFrameVariable.
  - simpl. unfold addScopeVariable.
    destruct (findScope scopeId (scopes (state σ))) as [[i s]|] eqn:Hf;
      [|apply sameContexts_refl].
    apply StoreFacts.findScope_Some in Hf as [Hlk _].
    repeat split; simpl. by erewrite StoreFacts.insert_same_id.
  - simpl. unfold updateScopeVariable.
    destruct (findScope scopeId (scopes (state σ))) as [[i s]|] eqn:Hf;
      [|apply sameContexts_refl].
    destruct (scope_variables s !! n) as [sv|]; [|apply sameContexts_refl].
    apply StoreFacts.findScope_Some in Hf as [Hlk _].
    repeat split; simpl. by erewrite StoreFacts.insert_same_id.
Qed.

Lemma keepsContexts_quiet op x :
  quiet op = true → keepsContexts x (set_store (StateManager.apply op (store x)) x).
Proof.
  intros Hq H. split; [by apply sound_apply|]. by apply sameContexts_quiet.
Qed.

Lemma keepsContexts_host x x' :
  store x' = store x → sameVariables x x' → keepsContexts x x'.
Proof. intros Hst _ H. rewrite Hst. split; [done|apply sameContexts_refl]. Qed.

Lemma restoresContexts_host x x' : store x' = store x → restoresContexts x x'.
Proof. intros Hst H. rewrite Hst. split; [done|]. by split. Qed.

Lemma restoresContexts_untouched op x :
  touchesCallStack op = false → touchesScopes op = false →
  restoresContexts x (set_store (StateManager.apply op (store x)) x).
Proof.
  intros Hc Hs H. split; [by apply sound_apply|]. by apply restored_untouched.
Qed.

Lemma bind_Done {A B} (m : M A) (k : A → M B) x b x' :
  bind m k x = Done b x' → ∃ a x1, m x = Done a x1 ∧ k a x1 = Done b x'.
Proof.
  unfold bind. destruct (m x) as [a x1| |w]; try discriminate. by exists a, x1.
Qed.

Lemma belowTop_snoc (stack : list Frame) (f : Frame) : belowTop (stack ++ [f]) = stack.
Proof.
  unfold belowTop. rewrite length_app. simpl.
  replace (length stack + 1 - 1) with (length stack) by lia.
  by rewrite take_app_length.
Qed.

(** Leaving the context that was entered: when the contexts in between
    are the same, popping the frame and destroying the scope give back the
    call stack and the scopes found before the scope was created and the
    frame pushed. *)
Lemma leave_restores (σ σ3 : Store) t name type parent id frame :
  sound σ → sound σ3 →
  sameContexts
    (pushCallStack id frame (createScope t name type parent σ).2).2 σ3 →
  restored σ
    (destroyScope (Some (scope_id (createScope t name type parent σ).1))
       (popCallStack σ3).2).
Proof.
  intros [Htop _] [_ [Hnd3 _]] (Hbelow & _ & Hids).
  split.
  - assert (Hd : ∀ sid τ, callStack (state (destroyScope sid τ)) = callStack (state τ))
      by (intros sid τ; by apply (StoreFacts.apply_callStack (ODestroyScope sid))).
    rewrite Hd.
    change (callStack (state (popCallStack σ3).2))
      with (setTopActive true (belowTop (callStack (state σ3)))).
    rewrite Hbelow.
    change (callStack (state (pushCallStack id frame (createScope t name type parent σ).2).2))
      with (setTopActive false (callStack (state σ))
            ++ [(pushCallStack id frame (createScope t name type parent σ).2).1]).
    rewrite belowTop_snoc. by apply SessionFacts.setTopActive_undo.
  - rewrite SessionFacts.destroyScope_filter by exact Hnd3.
    change (scopes (state (popCallStack σ3).2)) with (scopes (state σ3)).
    change (scope_id <$> scopes (state (pushCallStack id frame
                                          (createScope t name type parent σ).2).2))
      with (scope_id <$> (scopes (state σ)
                          ++ [(createScope t name type parent σ).1])) in Hids.
    set (new := (createScope t name type parent σ).1) in *.
    rewrite fmap_app in Hids. simpl in Hids.
    rewrite Hids in Hnd3.
    apply fmap_app_inv in Hids as (l1 & l2 & Hl1 & Hl2 & Hl).
    rewrite Hl, filter_app, fmap_app.
    destruct l2 as [|s2 [|? ?]]; try discriminate Hl2. injection Hl2 as Hs2.
    rewrite filter_cons_False, filter_nil, app_nil_r by (intros Hne; apply Hne; by rewrite <- Hs2).
    rewrite Hl1. f_equal. apply SessionFacts.filter_all.
    apply Forall_forall. intros s1 Hs1 [= Heq].
    apply NoDup_app in Hnd3 as (_ & Hdis & _).
    apply (Hdis (scope_id s1)).
    + rewrite Hl1. by apply list_elem_of_fmap_2.
    + rewrite Heq. apply list_elem_of_here.

Qed.

Lemma restores_is_keeps {A} (m : M A) :
  respects restoresContexts m → respects keepsContexts m.
Proof. intros Hm x a x' H. apply restores_keeps. by eapply Hm. Qed.

Lemma restores_untouched_call {A} (f : Store → A * Store) op :
  (∀ σ, (f σ).2 = StateManager.apply op σ) →
  touchesCallStack op = false → touchesScopes op = false →
  respects restoresContexts (call f).
Proof.
  intros Hf Hc Hs. apply (ConductFacts.respects_call _ f op Hf).
  intros x. by apply restoresContexts_untouched.
Qed.

Section Contexts.

Variable parseBody : string → list Instruction.
Variable clock : nat → Z.
Variable fired : nat → list Z.

Lemma restores_now : respects restoresContexts (now clock).
Proof. unfold now. apply ConductFacts.respects_update. intros x. by apply restoresContexts_host. Qed.

Lemma contexts_now : respects keepsContexts (now clock).
Proof. apply restores_is_keeps, restores_now. Qed.

Lemma contexts_logConsoleM type text : respects keepsContexts (logConsoleM clock type text).
Proof.
  apply ConductFacts.respects_logConsoleM.
  - apply keepsContexts_trans.
  - apply keepsContexts_quiet.
  - apply keepsContexts_host.
Qed.

Lemma contexts_delay : respects keepsContexts (delay fired).
Proof.
  apply ConductFacts.respects_delay.
  - apply keepsContexts_refl.
  - apply keepsContexts_trans.
  - apply keepsContexts_quiet.
  - apply keepsContexts_host.
Qed.

Lemma contexts_bindParameters scopeId params args :
  respects keepsContexts (bindParameters scopeId params args).
Proof.
  apply ConductFacts.respects_bindParameters.
  - apply keepsContexts_refl.
  - apply keepsContexts_trans.
  - apply keepsContexts_quiet.
Qed.

Lemma contexts_quiet_exec (f : Store → Store) op :
  (∀ σ, f σ = StateManager.apply op σ) → quiet op = true →
  respects keepsContexts (exec f).
Proof.
  intros Hf Hq. apply (ConductFacts.respects_exec _ f op Hf).
  intros x. by apply keepsContexts_quiet.
Qed.

Lemma contexts_untouched_call {A} (f : Store → A * Store) op :
  (∀ σ, (f σ).2 = StateManager.apply op σ) →
  touchesCallStack op = false → touchesScopes op = false →
  respects keepsContexts (call f).
Proof. intros. by eapply restores_is_keeps, restores_untouched_call. Qed.

Lemma contexts_store {A} (a : Exec → A) (g : Exec → Exec) :
  (∀ x, store (g x) = store x) → respects keepsContexts (λ x, Done (a x) (g x)).
Proof.
  intros Hg. apply ConductFacts.respects_update. intros x.
  apply restores_keeps. by apply restoresContexts_host.
Qed.

Ltac contexts_bind :=
  apply (ConductFacts.respects_bind keepsContexts keepsContexts_trans); [|intros ?].

Lemma contexts_executePromise c : respects keepsContexts (executePromise clock c).
Proof.
  unfold executePromise.
  contexts_bind; [apply contexts_now|].
  contexts_bind; [eapply contexts_untouched_call with (op := OAddToMicrotaskQueue _ _);
                [intros ?; reflexivity|done..]|].
  contexts_bind; [apply contexts_logConsoleM|].
  by apply contexts_store.
Qed.

Lemma contexts_executeSetTimeout c d : respects keepsContexts (executeSetTimeout clock c d).
Proof.
  unfold executeSetTimeout.
  contexts_bind; [apply contexts_now|].
  contexts_bind; [apply contexts_now|].
  contexts_bind; [apply contexts_now|].
  contexts_bind; [eapply contexts_untouched_call with (op := OAddToWebAPI _ _ _);
                [intros ?; reflexivity|done..]|].
  contexts_bind; [apply contexts_logConsoleM|].
  contexts_bind; [apply ConductFacts.respects_ask, keepsContexts_refl|].
  contexts_bind; [unfold setTimeout; by apply contexts_store|].
  contexts_bind; [eapply contexts_quiet_exec with (op := OAddTimer _);
                [intros ?; reflexivity|done]|].
  by apply contexts_store.
Qed.

(** A context that is entered, used and left: when what runs in between
    keeps the contexts, the whole gives back the call stack and the
    scopes it found. *)
Lemma restores_bracket (m1 m2 : Scope → M unit) name type parent frame :
  (∀ s, respects keepsContexts (m1 s)) →
  (∀ s, respects keepsContexts (m2 s)) →
  respects restoresContexts
    (t <- now clock ;;
     s <- call (createScope t name type parent) ;;
     id <- now clock ;;
     call (pushCallStack id frame) ;;
     m1 s ;;
     m2 s ;;
     call popCallStack ;;
     exec (destroyScope (Some (scope_id s)))).
Proof.
  intros H1 H2 x a x' H Hsound.
  apply bind_Done in H as (t & xa & Hnow & H). injection Hnow as <- <-.
  apply bind_Done in H as (s & xb & Hcreate & H). injection Hcreate as <- <-.
  apply bind_Done in H as (id & xc & Hnow & H). injection Hnow as <- <-.
  apply bind_Done in H as (fr & xd & Hpush & H). injection Hpush as <- <-.
  apply bind_Done in H as ([] & x3 & Hm1 & H).
  apply bind_Done in H as ([] & x4 & Hm2 & H).
  apply bind_Done in H as (popped & x5 & Hpop & H). injection Hpop as <- <-.
  injection H as <- <-.
  apply H1 in Hm1. apply H2 in Hm2.
  set (σ := store x) in *.
  set (t := clock (reads x)) in *.
  set (id := clock (S (reads x))) in *.
  assert (Hsd : sound (pushCallStack id frame (createScope t name type parent σ).2).2).
  { apply (sound_apply (OPushCallStack id frame)).
    by apply (sound_apply (OCreateScope t name type parent)). }
  destruct (Hm1 Hsd) as [Hs3 Hc3]. destruct (Hm2 Hs3) as [Hs4 Hc4].
  pose proof (sameContexts_trans _ _ _ Hc3 Hc4) as Hc.
  split.
  - apply (sound_apply (ODestroyScope _)). by apply (sound_apply OPopCallStack).
  - by apply (leave_restores σ (store x4) t name type parent id frame).
Qed.

Ltac restores_bind :=
  apply (ConductFacts.respects_bind restoresContexts restoresContexts_trans); [|intros ?].

Lemma restores_logConsoleM type text :
  respects restoresContexts (logConsoleM clock type text).
Proof.
  unfold logConsoleM. restores_bind; [apply restores_now|].
  apply (ConductFacts.respects_exec _ _ (OLogConsole a type [text])); [done|].
  intros x. by apply restoresContexts_untouched.
Qed.

(** The part of a call that follows the resolution of the arguments. *)
Lemma restores_entered_call (executeInstruction : Instruction → M unit)
    name params funcLine body values :
  (∀ i, respects keepsContexts (executeInstruction i)) →
  respects restoresContexts
    (parent <- ask getCurrentScopeId ;;
     t <- now clock ;;
     funcScope <- call (createScope t name "function" parent) ;;
     id <- now clock ;;
     call (pushCallStack id (mkFrameInit name "function" (Some ∅) "window" funcLine)) ;;
     bindParameters (scope_id funcScope) params values ;;
     (if bool_decide (body = "") then ret ()
      else forEach
             (λ bodyInst,
                exec (setCurrentLine
                        (Z.of_nat (if bool_decide (inst_line bodyInst = 0)
                                   then funcLine else inst_line bodyInst))) ;;
                executeInstruction bodyInst ;;
                delay fired)
             (parseBody body)) ;;
     call popCallStack ;;
     exec (destroyScope (Some (scope_id funcScope)))).
Proof.
  intros Hi. restores_bind; [apply ConductFacts.respects_ask, restoresContexts_refl|].
  apply (restores_bracket
           (λ s, bindParameters (scope_id s) params values)
           (λ _, if bool_decide (body = "") then ret ()
                 else forEach
                        (λ bodyInst,
                           exec (setCurrentLine
                                   (Z.of_nat (if bool_decide (inst_line bodyInst = 0)
                                              then funcLine else inst_line bodyInst))) ;;
                           executeInstruction bodyInst ;;
                           delay fired)
                        (parseBody body))).
  - intros s. apply contexts_bindParameters.
  - intros _. apply ConductFacts.respects_if.
    + apply ConductFacts.respects_ret, keepsContexts_refl.
    + apply ConductFacts.respects_forEach;
        [apply keepsContexts_refl|apply keepsContexts_trans|]. intros bodyInst.
      contexts_bind.
      { eapply contexts_quiet_exec with (op := OSetCurrentLine _);
          [intros ?; reflexivity|done]. }
      contexts_bind; [apply Hi|]. apply contexts_delay.
Qed.

Lemma call_body_cases (R : Exec → Exec → Prop)
    (executeInstruction : Instruction → M unit)
    (resolveAll : list ValueExpr → M (list Value)) name args :
  (∀ x y z, R x y → R y z → R x z) →
  (∀ es, respects R (resolveAll es)) →
  (∀ params funcLine body values,
     respects R
       (parent <- ask getCurrentScopeId ;;
        t <- now clock ;;
        funcScope <- call (createScope t name "function" parent) ;;
        id <- now clock ;;
        call (pushCallStack id (mkFrameInit name "function" (Some ∅) "window" funcLine)) ;;
        bindParameters (scope_id funcScope) params values ;;
        (if bool_decide (body = "") then ret ()
         else forEach
                (λ bodyInst,
                   exec (setCurrentLine
                           (Z.of_nat (if bool_decide (inst_line bodyInst = 0)
                                      then funcLine else inst_line bodyInst))) ;;
                   executeInstruction bodyInst ;;
                   delay fired)
                (parseBody body)) ;;
        call popCallStack ;;
        exec (destroyScope (Some (scope_id funcScope))))) →
  (∀ text, respects R (logConsoleM clock "error" text)) →
  respects R (executeFunctionCallBody parseBody clock fired executeInstruction
                resolveAll name args).
Proof.
  intros Htrans Ha Hrest Hlog x a x' H. unfold executeFunctionCallBody in H.
  destruct (findFunction name x) as [[]|]; try (by eapply Hlog).
  revert H. apply (ConductFacts.respects_bind R Htrans); [apply Ha|].
  intros values. apply Hrest.
Qed.

Lemma contexts_executeFunctionCallBody
    (executeInstruction : Instruction → M unit)
    (resolveAll : list ValueExpr → M (list Value)) :
  (∀ i, respects keepsContexts (executeInstruction i)) →
  (∀ es, respects keepsContexts (resolveAll es)) →
  ∀ n args,
    respects keepsContexts
      (executeFunctionCallBody parseBody clock fired executeInstruction resolveAll n args).
Proof.
  intros Hi Ha n args. apply call_body_cases.
  - apply keepsContexts_trans.
  - exact Ha.
  - intros. by apply restores_is_keeps, restores_entered_call.
  - intros. apply contexts_logConsoleM.
Qed.

(** Every instruction, call and resolution keeps the contexts. *)
Lemma contexts_execution fuel :
  (∀ i, respects keepsContexts (executeInstruction parseBody clock fired fuel i))
  ∧ (∀ n args, respects keepsContexts (executeFunctionCall parseBody clock fired fuel n args))
  ∧ (∀ e, respects keepsContexts (resolveValue parseBody clock fired fuel e))
  ∧ (∀ es, respects keepsContexts (resolveAll parseBody clock fired fuel es)).
Proof.
  apply ConductFacts.respects_core.
  - apply keepsContexts_refl.
  - apply keepsContexts_trans.
  - apply keepsContexts_quiet.
  - apply keepsContexts_host.
  - apply contexts_executePromise.
  - apply contexts_executeSetTimeout.
  - apply contexts_executeFunctionCallBody.
Qed.

(** A call, and the resolution of an expression with the calls in it,
    give back the call stack and the scopes. *)
Lemma restores_execution fuel :
  (∀ n args, respects restoresContexts (executeFunctionCall parseBody clock fired fuel n args))
  ∧ (∀ e, respects restoresContexts (resolveValue parseBody clock fired fuel e))
  ∧ (∀ es, respects restoresContexts (resolveAll parseBody clock fired fuel es)).
Proof.
  induction fuel as [|fuel (IHc & IHv & IHa)].
  - split; [|split]; intros; apply ConductFacts.respects_outOfFuel.
  - split; [|split].
    + intros n args. rewrite ExecutorFacts.executeFunctionCall_S.
      apply call_body_cases.
      * apply restoresContexts_trans.
      * exact IHa.
      * intros. apply restores_entered_call. apply contexts_execution.
      * intros. apply restores_logConsoleM.
    + intros e. rewrite ExecutorFacts.resolveValue_S.
      destruct e; unfold resolveValueBody;
        try (apply ConductFacts.respects_ret, restoresContexts_refl);
        try (apply ConductFacts.respects_ask, restoresContexts_refl).
      * restores_bind; [apply IHa|]. apply ConductFacts.respects_ret, restoresContexts_refl.
      * restores_bind; [|apply ConductFacts.respects_ret, restoresContexts_refl].
        apply ConductFacts.respects_mapM;
          [apply restoresContexts_refl|apply restoresContexts_trans|].
        intros kv. restores_bind; [apply IHv|].
        apply ConductFacts.respects_ret, restoresContexts_refl.
      * restores_bind; [apply IHc|]. apply ConductFacts.respects_ret, restoresContexts_refl.
    + intros es. rewrite ExecutorFacts.resolveAll_S. unfold resolveAllBody.
      apply ConductFacts.respects_if.
      * apply ConductFacts.respects_mapM;
          [apply restoresContexts_refl|apply restoresContexts_trans|]. apply IHv.
      * apply ConductFacts.respects_stuck.
Qed.



(** *** The event loop and the run *)

Lemma contexts_runCallback fuel callback :
  respects keepsContexts (runCallback parseBody clock fired fuel callback).
Proof.
  unfold runCallback. apply ConductFacts.respects_forEach;
    [apply keepsContexts_refl|apply keepsContexts_trans|]. intros inst.
  contexts_bind; [apply contexts_execution|]. apply contexts_delay.
Qed.

Lemma contexts_microtaskTurn fuel :
  respects keepsContexts (microtaskTurn parseBody clock fired fuel).
Proof.
  unfold microtaskTurn.
  contexts_bind.
  { eapply contexts_untouched_call with (op := OProcessNextMicrotask);
      [intros ?; reflexivity|done..]. }
  contexts_bind; [|by apply contexts_store].
  destruct a as [t|]; [|apply ConductFacts.respects_ret, keepsContexts_refl].
  apply ConductFacts.respects_if; [apply ConductFacts.respects_ret, keepsContexts_refl|].
  contexts_bind; [apply contexts_logConsoleM|].
  contexts_bind; [apply contexts_delay|]. apply contexts_runCallback.
Qed.

Lemma contexts_microtaskLoop fuel state :
  respects keepsContexts (microtaskLoop parseBody clock fired fuel state).
Proof.
  induction fuel as [|fuel IH]; [apply ConductFacts.respects_outOfFuel|].
  intros x a x' H. cbn [microtaskLoop] in H.
  destruct (nonEmpty (microtaskQueue (eventLoop state)) || nonEmpty (pendingMicrotasks x)).
  - revert H. contexts_bind; [apply contexts_microtaskTurn|exact IH].
  - injection H as <- <-. apply keepsContexts_refl.
Qed.

Lemma contexts_processOneCallback fuel :
  respects keepsContexts (processOneCallback parseBody clock fired fuel).
Proof.
  unfold processOneCallback.
  contexts_bind; [apply ConductFacts.respects_ask, keepsContexts_refl|].
  intros x r x' H.
  destruct (nonEmpty (callbackQueue (eventLoop a)) || nonEmpty (pendingTimers x)).
  2:{ injection H as <- <-. apply keepsContexts_refl. }
  revert H. contexts_bind.
  { eapply contexts_untouched_call with (op := OProcessNextCallback);
      [intros ?; reflexivity|done..]. }
  contexts_bind; [|by apply contexts_store].
  destruct a0 as [c|]; [|apply ConductFacts.respects_ret, keepsContexts_refl].
  apply ConductFacts.respects_if; [apply ConductFacts.respects_ret, keepsContexts_refl|].
  contexts_bind; [apply contexts_logConsoleM|].
  intros x0 r0 x1 H0. destruct (globalScope x0) as [g|]; [|discriminate H0].
  revert H0. apply restores_is_keeps.
  apply (restores_bracket (λ _, delay fired)
           (λ _, runCallback parseBody clock fired fuel (task_callback c))).
  - intros _. apply contexts_delay.
  - intros _. apply contexts_runCallback.
Qed.

Lemma contexts_processEventLoop fuel :
  respects keepsContexts (processEventLoop parseBody clock fired fuel).
Proof.
  unfold processEventLoop.
  contexts_bind; [apply ConductFacts.respects_ask, keepsContexts_refl|].
  contexts_bind; [apply contexts_microtaskLoop|].
  contexts_bind; [apply contexts_processOneCallback|].
  by apply contexts_store.
Qed.

Lemma contexts_step fuel : respects keepsContexts (step parseBody clock fired fuel).
Proof.
  intros x a x' H. unfold step in H.
  destruct (instructions x !! currentIndex x) as [instruction|]; revert H.
  - contexts_bind.
    { eapply contexts_quiet_exec with (op := OSetCurrentLine _);
        [intros ?; reflexivity|done]. }
    contexts_bind.
    { eapply contexts_untouched_call with (op := OIncrementStep);
        [intros ?; reflexivity|done..]. }
    contexts_bind; [apply contexts_execution|].
    contexts_bind; by apply contexts_store.
  - contexts_bind; [apply contexts_processEventLoop|].
    apply ConductFacts.respects_ret, keepsContexts_refl.
Qed.

Lemma contexts_runLoop fuel : respects keepsContexts (runLoop parseBody clock fired fuel).
Proof.
  induction fuel as [|fuel IH]; [apply ConductFacts.respects_outOfFuel|].
  cbn [runLoop]. contexts_bind; [apply contexts_step|].
  destruct a.
  - contexts_bind; [apply contexts_delay|exact IH].
  - apply ConductFacts.respects_ret, keepsContexts_refl.
Qed.

Lemma contexts_setExecutionState r p :
  respects keepsContexts (exec (setExecutionState r p)).
Proof.
  apply restores_is_keeps.
  apply (ConductFacts.respects_exec _ _ (OSetExecutionState r p)); [done|].
  intros x. by apply restoresContexts_untouched.
Qed.

Lemma contexts_run fuel : respects keepsContexts (run parseBody clock fired fuel).
Proof.
  unfold run.
  contexts_bind; [apply contexts_setExecutionState|].
  contexts_bind; [apply contexts_runLoop|].
  contexts_bind; [apply contexts_setExecutionState|].
  apply contexts_logConsoleM.
Qed.

(** X24. A run that returns ends in the global context alone: whatever the
    program called and whichever callbacks ran, the call stack holds one
    frame, the active global frame pushed by [init], and the one live
    scope is the global scope. *)
Theorem run_ends_in_global_context
    (parsed : list Instruction) (fuel : nat) (x' : Exec) :
  bind (init clock parsed) (λ _, run parseBody clock fired fuel) initialExec
  = Done () x' →
  outline <$> callStack (state (store x'))
  = [mkFrame (clock 1) "Global Execution Context" "global" ∅ "window" 0 true]
  ∧ scope_id <$> scopes (state (store x')) = [scopeName 1].
Proof.
  intros H. apply bind_Done in H as ([] & x0 & Hinit & H).
  apply contexts_run in H.
  assert (Hst : store x0
                = StateManager.run
                    [OCreateScope (clock 0) "Global" "global" None;
                     OPushCallStack (clock 1)
                       (mkFrameInit "Global Execution Context" "global" (Some ∅)
                          "window" 0)] initialStore)
    by (by injection Hinit as <-).
  destruct H as [_ (_ & Hstack & Hscopes)].
  - rewrite Hst. apply sound_session.
  - rewrite Hstack, Hscopes, Hst. by split.
Qed.

End Contexts.

(** *** The statements at a concrete program *)



(** The run of the program with a call and a timer: the call and the
    timer's callback both ran, and the global context is alone at the
    end. *)
Lemma run_ends_in_global_context_witness :
  ∃ x',
    bind (init Scenario.hostClock callsAndTimer)
      (λ _, run Scenario.translated Scenario.hostClock firesAll 12) initialExec
    = Done () x'
    ∧ consoleEntries (store x')
      = [("info", ["Hoisting: Functions [f], Vars []"]);
         ("info", ["setTimeout registered (0ms)"]);
         ("log", [quoted "A"]);
         ("info", ["Executing callback: setTimeout"]);
         ("log", [quoted "T"]);
         ("info", ["Execution completed"])]
    ∧ outline <$> callStack (state (store x'))
      = [mkFrame 1 "Global Execution Context" "global" ∅ "window" 0 true]
    ∧ scope_id <$> scopes (state (store x')) = [scopeName 1].
Proof.
  eexists. split; [vm_compute; reflexivity|]. split; [vm_compute; reflexivity|].
  apply (run_ends_in_global_context Scenario.translated Scenario.hostClock firesAll
           callsAndTimer 12).
  vm_compute. reflexivity.
Defined.

End BalanceFacts.

(* ===================================================================== *)
(** ** Theorems: one pass over the queues *)
(* ===================================================================== *)

Module PassFacts.
Import Executor Conduct Passes.

Lemma takes_refl x : takes 0 x x.
Proof. unfold takes. lia. Qed.

Lemma takes_trans x y z : takes 0 x y → takes 0 y z → takes 0 x z.
Proof. unfold takes. lia. Qed.

Lemma takes_add n k x y z : takes n x y → takes k y z → takes (n + k) x z.
Proof. unfold takes. lia. Qed.

Lemma takes_host x x' : store x' = store x → takes 0 x x'.
Proof. unfold takes. intros ->. lia. Qed.

(** Every operation but [processNextCallback] leaves the number as it
    is. *)
Lemma callbacksTaken_apply op σ :
  op ≠ OProcessNextCallback →
  callbacksTaken (StateManager.apply op σ) = callbacksTaken σ.
Proof.
  intros Hop. unfold callbacksTaken.
  destruct op; try done; StoreFacts.crush_op;
    rewrite ?filter_app, ?filter_cons, ?filter_nil; simpl;
    rewrite ?app_nil_r; try done.
Qed.

Lemma takes_apply op x :
  op ≠ OProcessNextCallback →
  takes 0 x (set_store (StateManager.apply op (store x)) x).
Proof. intros Hop. unfold takes. simpl. rewrite callbacksTaken_apply by done. lia. Qed.

Lemma takes_processNextCallback x :
  takes 1 x (set_store (processNextCallback (store x)).2 x).
Proof.
  unfold takes, callbacksTaken, processNextCallback. simpl.
  destruct (callbackQueue (eventLoop (state (store x)))); simpl; [lia|].
  rewrite filter_app, length_app. simpl. lia.
Qed.

Lemma bind_takes {A B} n k (m : M A) (f : A → M B) :
  respects (takes n) m → (∀ a, respects (takes k) (f a)) →
  respects (takes (n + k)) (bind m f).
Proof.
  intros Hm Hf x b x' H. apply BalanceFacts.bind_Done in H as (a & x1 & H1 & H2).
  eapply takes_add; [by eapply Hm|by eapply Hf].
Qed.

Section Passes.

Variable parseBody : string → list Instruction.
Variable clock : nat → Z.
Variable fired : nat → list Z.

Lemma takes_execution fuel :
  (∀ i, respects (takes 0) (executeInstruction parseBody clock fired fuel i))
  ∧ (∀ n args, respects (takes 0) (executeFunctionCall parseBody clock fired fuel n args))
  ∧ (∀ e, respects (takes 0) (resolveValue parseBody clock fired fuel e))
  ∧ (∀ es, respects (takes 0) (resolveAll parseBody clock fired fuel es)).
Proof.
  apply ConductFacts.respects_execution.
  - apply takes_refl.
  - apply takes_trans.
  - intros op x Hq. apply takes_apply. by intros ->.
  - intros x x' Hst _. by apply takes_host.
  - intros op x Hq. apply takes_apply. by intros ->.
  - intros x entry. by apply takes_host.
  - intros x entry. by apply takes_host.
Qed.

Lemma takes_more {A} n k (m : M A) :
  n ≤ k → respects (takes n) m → respects (takes k) m.
Proof. intros Hle Hm x a x' H. specialize (Hm x a x' H). unfold takes in *. lia. Qed.

Lemma takes_call {A} (f : Store → A * Store) op :
  (∀ σ, (f σ).2 = StateManager.apply op σ) → op ≠ OProcessNextCallback →
  respects (takes 0) (call f).
Proof.
  intros Hf Hop. apply (ConductFacts.respects_call _ f op Hf).
  intros x. by apply takes_apply.
Qed.

Lemma takes_exec (f : Store → Store) op :
  (∀ σ, f σ = StateManager.apply op σ) → op ≠ OProcessNextCallback →
  respects (takes 0) (exec f).
Proof.
  intros Hf Hop. apply (ConductFacts.respects_exec _ f op Hf).
  intros x. by apply takes_apply.
Qed.

Lemma takes_store {A} (a : Exec → A) (g : Exec → Exec) :
  (∀ x, store (g x) = store x) → respects (takes 0) (λ x, Done (a x) (g x)).
Proof.
  intros Hg. apply ConductFacts.respects_update. intros x. by apply takes_host.
Qed.

Lemma takes_now : respects (takes 0) (now clock).
Proof. unfold now. by apply takes_store. Qed.

Lemma takes_logConsoleM type text : respects (takes 0) (logConsoleM clock type text).
Proof.
  apply ConductFacts.respects_logConsoleM.
  - apply takes_trans.
  - intros op x Hq. apply takes_apply. by intros ->.
  - intros x x' Hst _. by apply takes_host.
Qed.

Lemma takes_delay : respects (takes 0) (delay fired).
Proof.
  apply ConductFacts.respects_delay.
  - apply takes_refl.
  - apply takes_trans.
  - intros op x Hq. apply takes_apply. by intros ->.
  - intros x x' Hst _. by apply takes_host.
Qed.

Ltac takes_bind :=
  apply (ConductFacts.respects_bind (takes 0) takes_trans); [|intros ?].

Ltac takes_op o :=
  first [ apply (takes_call _ o); [intros ?; reflexivity|done]
        | apply (takes_exec _ o); [intros ?; reflexivity|done] ].

Lemma takes_runCallback fuel callback :
  respects (takes 0) (runCallback parseBody clock fired fuel callback).
Proof.
  unfold runCallback. apply ConductFacts.respects_forEach;
    [apply takes_refl|apply takes_trans|]. intros inst.
  takes_bind; [apply takes_execution|]. apply takes_delay.
Qed.

Lemma takes_microtaskTurn fuel :
  respects (takes 0) (microtaskTurn parseBody clock fired fuel).
Proof.
  unfold microtaskTurn.
  takes_bind; [takes_op OProcessNextMicrotask|].
  takes_bind; [|by apply takes_store].
  destruct a as [t|]; [|apply ConductFacts.respects_ret, takes_refl].
  apply ConductFacts.respects_if; [apply ConductFacts.respects_ret, takes_refl|].
  takes_bind; [apply takes_logConsoleM|].
  takes_bind; [apply takes_delay|]. apply takes_runCallback.
Qed.

Lemma takes_microtaskLoop fuel state :
  respects (takes 0) (microtaskLoop parseBody clock fired fuel state).
Proof.
  induction fuel as [|fuel IH]; [apply ConductFacts.respects_outOfFuel|].
  intros x a x' H. cbn [microtaskLoop] in H.
  destruct (nonEmpty (microtaskQueue (eventLoop state)) || nonEmpty (pendingMicrotasks x)).
  - revert H. takes_bind; [apply takes_microtaskTurn|exact IH].
  - injection H as <- <-. apply takes_refl.
Qed.

(** The callback stage takes at most one task. *)
Lemma takes_processOneCallback fuel :
  respects (takes 1) (processOneCallback parseBody clock fired fuel).
Proof.
  unfold processOneCallback.
  apply (bind_takes 0 1); [apply ConductFacts.respects_ask, takes_refl|].
  intros callbackState x r x' H.
  destruct (nonEmpty (callbackQueue (eventLoop callbackState))
            || nonEmpty (pendingTimers x)).
  2:{ injection H as <- <-. unfold takes. lia. }
  revert H. apply (bind_takes 1 0).
  { intros x0 c x1 H. unfold call in H.
    pose proof (takes_processNextCallback x0) as Ht.
    destruct (processNextCallback (store x0)) as [c0 σ]. injection H as <- <-.
    exact Ht. }
  intros callback. takes_bind; [|by apply takes_store].
  destruct callback as [c|]; [|apply ConductFacts.respects_ret, takes_refl].
  apply ConductFacts.respects_if; [apply ConductFacts.respects_ret, takes_refl|].
  takes_bind; [apply takes_logConsoleM|].
  intros x0 r0 x1 H0. destruct (globalScope x0) as [g|]; [|discriminate H0].
  revert H0.
  takes_bind; [apply takes_now|].
  takes_bind; [takes_op (OCreateScope a0 "setTimeout callback" "function" (Some (scope_id g)))|].
  takes_bind; [apply takes_now|].
  takes_bind; [takes_op (OPushCallStack a2
                           (mkFrameInit "setTimeout callback" "function" (Some ∅) "window" 0))|].
  takes_bind; [apply takes_delay|].
  takes_bind; [apply takes_runCallback|].
  takes_bind; [takes_op OPopCallStack|].
  takes_op (ODestroyScope (Some (scope_id a1))).
Qed.

Lemma takes_processEventLoop fuel :
  respects (takes 1) (processEventLoop parseBody clock fired fuel).
Proof.
  unfold processEventLoop.
  apply (bind_takes 0 1); [apply ConductFacts.respects_ask, takes_refl|]. intros state.
  apply (bind_takes 0 1); [apply takes_microtaskLoop|]. intros _.
  apply (bind_takes 1 0); [apply takes_processOneCallback|]. intros _.
  by apply takes_store.
Qed.

(** A step takes no task, or it is the pass over the queues, which takes
    at most one and reports that nothing is left to do. *)
Lemma step_takes fuel x more x' :
  step parseBody clock fired fuel x = Done more x' →
  takes 0 x x' ∨ (more = false ∧ takes 1 x x').
Proof.
  intros H. unfold step in H.
  destruct (instructions x !! currentIndex x) as [instruction|].
  - left. revert H.
    takes_bind; [takes_op (OSetCurrentLine (Z.of_nat (inst_line instruction)))|].
    takes_bind; [takes_op OIncrementStep|].
    takes_bind; [apply takes_execution|].
    takes_bind; by apply takes_store.
  - right. apply BalanceFacts.bind_Done in H as (b & x1 & Hloop & Hret).
    injection Hret as <- <-. split; [done|].
    by apply takes_processEventLoop in Hloop.
Qed.

Lemma takes_runLoop fuel : respects (takes 1) (runLoop parseBody clock fired fuel).
Proof.
  induction fuel as [|fuel IH]; [apply ConductFacts.respects_outOfFuel|].
  intros x a x' H. cbn [runLoop] in H.
  apply BalanceFacts.bind_Done in H as (more & x1 & Hstep & H).
  apply step_takes in Hstep as [H0|[-> H1]].
  - destruct more.
    + apply BalanceFacts.bind_Done in H as ([] & x2 & Hdelay & H).
      apply takes_delay in Hdelay. apply IH in H. unfold takes in *. lia.
    + injection H as <- <-. unfold takes in *. lia.
  - by injection H as <- <-.
Qed.

Lemma takes_run fuel : respects (takes 1) (run parseBody clock fired fuel).
Proof.
  unfold run.
  apply (bind_takes 0 1); [takes_op (OSetExecutionState true false)|]. intros _.
  apply (bind_takes 1 0); [apply takes_runLoop|]. intros _.
  takes_bind; [takes_op (OSetExecutionState false false)|].
  apply takes_logConsoleM.
Qed.

(** X25. A run makes one pass over the queues and no more: whatever the
    program registers, a run that returns has taken at most one task off
    the callback queue, so at most one timer callback has been executed
    when the completion is reported. *)
Theorem run_takes_at_most_one_callback
    (parsed : list Instruction) (fuel : nat) (x' : Exec) :
  bind (init clock parsed) (λ _, run parseBody clock fired fuel) initialExec
  = Done () x' →
  callbacksTaken (store x') ≤ 1.
Proof.
  intros H. apply BalanceFacts.bind_Done in H as ([] & x0 & Hinit & H).
  apply takes_run in H.
  assert (H0 : callbacksTaken (store x0) = 0) by (by injection Hinit as <-).
  unfold takes in H. lia.
Qed.

End Passes.

(** Two timers, both due before the program ends: the first callback
    runs, the second is still in the callback queue when the completion is
    reported. *)
Lemma run_takes_at_most_one_callback_witness :
  ∃ x',
    bind (init Scenario.hostClock twoTimers)
      (λ _, run Scenario.translated Scenario.hostClock Balance.firesAll 12) initialExec
    = Done () x'
    ∧ consoleEntries (store x')
      = [("info", ["setTimeout registered (0ms)"]);
         ("info", ["setTimeout registered (0ms)"]);
         ("info", ["Executing callback: setTimeout"]);
         ("log", [quoted "T"]);
         ("info", ["Execution completed"])]
    ∧ task_callback <$> callbackQueue (eventLoop (state (store x'))) = [Scenario.logA]
    ∧ callbacksTaken (store x') ≤ 1.
Proof.
  eexists. split; [vm_compute; reflexivity|]. split; [vm_compute; reflexivity|].
  split; [vm_compute; reflexivity|].
  apply (run_takes_at_most_one_callback Scenario.translated Scenario.hostClock
           Balance.firesAll twoTimers 12).
  vm_compute. reflexivity.
Defined.

End PassFacts.

